(** * The path-following engine of [src/animation.js]

    A shallow embedding of [AnimationFramework.moveBetweenPoints],
    [moveAlongPath], [followPath], [calculateLinearInterpolation] and
    [createLink], of the [Path] and [Link] constructors they use, and of
    the host they run on ([performance.now] and [requestAnimationFrame]).
    With them the [Element] and [Box] constructors, [Element.moveTo] and
    [flash], the accessors of [Path] and the scene lists of
    [AnimationFramework].

    - JavaScript numbers are IEEE 754 binary64 values: coordinates, times
      and durations are primitive [float]s, with the operations of the
      kernel.  The integer counters [stepIndex], [currentSegment],
      [loopCount] and the lengths of arrays are [nat]: a double counts
      exactly up to 2^53.
    - Arrays are objects in a store, the [heap], and are passed by
      reference, so that the in-place [reverse] of [followPath] can be
      observed.  Points are values: the engine never writes to one.
    - The closures the engine creates are records holding the variables
      they capture.  One chain of frame callbacks owns them, so the
      variables they share ([currentSegment], [loopCount], [pathPoints],
      [currentDirection]) live in the record of the callback that waits.
    - The callbacks of the caller are observers: a call is recorded, with
      its arguments, in the [trace]; a callback that is [null] is [false].
    - The host is a list of frames.  Each frame runs the callbacks given to
      [requestAnimationFrame] before it, with its timestamp.
    - The call stack is finite: [depth] bounds the nesting of
      [executeAnimation], which only nests when a traversal completes
      within the call that starts it.
    - Elements are objects in a store of their own.  The scene lists hold
      references: [removeElement] reads the id of each element,
      [removeTemporaryElement] and [removeFlash] compare identities. *)

From Stdlib Require Uint63.
From Stdlib Require Import Floats ZArith Bool List String Lia.
From stdpp Require Import base option list gmap strings.

Set Warnings "-inexact-float".
Local Open Scope float_scope.

(** ** JavaScript numbers *)

(** [Math.min(a, b)]: NaN if either argument is NaN, and -0 is below +0. *)
Definition Math_min (a b : float) : float :=
  if is_nan a || is_nan b then nan
  else if a <? b then a
  else if b <? a then b
  else if is_zero a && get_sign a then a else b.

(** The number holding a non-negative integer (an array length, which is
    below 2^32). *)
Definition number_of_nat (n : nat) : float :=
  PrimFloat.of_uint63 (Uint63.of_Z (Z.of_nat n)).

(** ** Data *)

(** A point [{x, y}]. *)
Record Point := { point_x : float; point_y : float }.

(** A reference to an array of points. *)
Definition loc := nat.

(** A [Path] instance: [points] is the array given to the constructor;
    [None] stands for a property overwritten with [null]. *)
Record Path := { path_points : option loc }.

(** An element exposing a position and a size (a [Box]). *)
Record Box := { box_x : float; box_y : float; box_width : float; box_height : float }.

(** A [Link]: the fields set by the [Element] and [Link] constructors, but
    for [id] (random) and the constant entries of [style]. *)
Record Link := {
  link_x : float;
  link_y : float;
  link_visible : bool;
  link_path : Path;
  link_borderStyle : string;
  startArrow : bool;
  endArrow : bool }.

(** An argument of [createLink] that the [Link] constructor type-checks. *)
Inductive Value :=
  | undefined
  | str (s : string)
  | boolean (b : bool)
  | other.

Inductive Error :=
  | TypeError (message : string)
  | RangeError (message : string).

(** ** Closures *)

(** The variables captured by the arrow functions of [followPath]
    (lines 396-399 and 401-420) and by [executeAnimation]. *)
Record FollowEnv := {
  fp_duration : float;
  fp_completeCallback : bool;
  loop : bool;
  yoyo : bool;
  loopCount : nat;
  pathPoints : loc;
  currentDirection : string }.

(** The callbacks [moveAlongPath] is given: either those of the caller
    (present or null), or the ones [executeAnimation] passes (a step
    function, [null], a completion function). *)
Inductive PathCallbacks :=
  | callerPathCallbacks (stepCallback segmentCompleteCallback completeCallback : bool)
  | followPathCallbacks (env : FollowEnv).

(** The variables captured by [moveNextSegment] and by the two arrow
    functions it passes to [moveBetweenPoints] (lines 337-342, 343-352). *)
Record PathEnv := {
  points : loc;
  totalSegments : nat;
  segmentDuration : float;
  currentSegment : nat;
  pathCallbacks : PathCallbacks }.

(** The callbacks [moveBetweenPoints] is given: those of the caller, or the
    two arrow functions of [moveNextSegment]. *)
Inductive MoveCallbacks :=
  | callerMoveCallbacks (stepCallback completeCallback : bool)
  | segmentCallbacks (env : PathEnv).

(** The closure [animate] of [moveBetweenPoints].  A point read past the
    end of an array is [undefined], here [None]. *)
Record Animate := {
  startPoint : option Point;
  endPoint : option Point;
  duration : float;
  startTime : float;
  stepIndex : nat;
  moveCallbacks : MoveCallbacks }.

(** ** The world *)

(** A call received by a callback of the caller. *)
Inductive Event :=
  | MoveStep (x y : float) (stepIndex : nat)
  | MoveComplete
  | PathStep (x y : float) (stepIndex segmentIndex : nat)
  | SegmentComplete (segmentIndex : nat)
  | PathComplete
  | Update (x y : float) (stepIndex segmentIndex loopCount : nat) (direction : string)
  | FollowComplete (loopCount : nat).

Record World := {
  clock : float;                  (* the value of performance.now() *)
  heap : gmap loc (list Point);   (* the arrays *)
  frameRequests : list Animate;   (* callbacks given to requestAnimationFrame *)
  trace : list Event }.           (* calls to the caller's callbacks, oldest first *)

(** The result of a call: normal return, or an exception leaving the
    world as it was when it was thrown. *)
Inductive Outcome :=
  | Ok (w : World)
  | Throw (e : Error) (w : World).

(** One animation frame of the host: the timestamp passed to the frame
    callbacks and the value [performance.now()] has while they run. *)
Record Frame := { timestamp : float; now : float }.

(** The world at time [t] with the arrays [h], nothing scheduled and no
    call made yet. *)
Definition newWorld (t : float) (h : gmap loc (list Point)) : World :=
  {| clock := t; heap := h; frameRequests := []; trace := [] |}.

(** A call to a callback of the caller. *)
Definition call (e : Event) (w : World) : World :=
  {| clock := clock w; heap := heap w; frameRequests := frameRequests w;
     trace := trace w ++ [e] |}.

(** [requestAnimationFrame(animate)]. *)
Definition requestAnimationFrame (a : Animate) (w : World) : World :=
  {| clock := clock w; heap := heap w; frameRequests := frameRequests w ++ [a];
     trace := trace w |}.

(** The array at [l]; every reference the engine holds is allocated. *)
Definition array (w : World) (l : loc) : list Point := default [] (heap w !! l).

(** Writing the elements of the array at [l]. *)
Definition store (l : loc) (ps : list Point) (w : World) : World :=
  {| clock := clock w; heap := <[l := ps]> (heap w);
     frameRequests := frameRequests w; trace := trace w |}.

(** A new array: [[...points]] or an array literal. *)
Definition alloc (ps : list Point) (w : World) : loc * World :=
  let l := fresh (dom (heap w)) in (l, store l ps w).

(** [array.reverse()]: in place. *)
Definition reverse (l : loc) (w : World) : World := store l (rev (array w l)) w.

(** ** The engine *)

(** [calculateLinearInterpolation] (lines 429-431). *)
Definition calculateLinearInterpolation (start end_ progress : float) : float :=
  start + (end_ - start) * progress.

(** [moveBetweenPoints] (lines 268-296): [animate] is registered with the
    start time and a step counter at 0. *)
Definition moveBetweenPoints (startPoint endPoint : option Point) (duration : float)
    (callbacks : MoveCallbacks) (w : World) : World :=
  requestAnimationFrame
    {| startPoint := startPoint; endPoint := endPoint; duration := duration;
       startTime := clock w; stepIndex := 0; moveCallbacks := callbacks |} w.

(** [Math.min(elapsed / duration, 1)] in [animate]. *)
Definition progress (a : Animate) (timestamp : float) : float :=
  let elapsed := timestamp - startTime a in
  Math_min (elapsed / duration a) 1.

(** Assignments to the counters. *)
Definition setCurrentSegment (n : nat) (env : PathEnv) : PathEnv :=
  {| points := points env; totalSegments := totalSegments env;
     segmentDuration := segmentDuration env; currentSegment := n;
     pathCallbacks := pathCallbacks env |}.

Definition setStepIndex (n : nat) (a : Animate) : Animate :=
  {| startPoint := startPoint a; endPoint := endPoint a; duration := duration a;
     startTime := startTime a; stepIndex := n; moveCallbacks := moveCallbacks a |}.

(** [currentDirection === 'forward' ? 'backward' : 'forward']. *)
Definition flipDirection (d : string) : string :=
  if String.eqb d "forward" then "backward" else "forward".

Section Engine.

(** [executeAnimation], which the completion function of [followPath]
    calls back: the recursion is closed below. *)
Variable executeAnimation : FollowEnv -> World -> Outcome.

(** The completion function [followPath] passes on (lines 401-420). *)
Definition followPath_complete (env : FollowEnv) (w : World) : Outcome :=
  let n := S (loopCount env) in
  if loop env then
    if yoyo env then
      executeAnimation
        {| fp_duration := fp_duration env; fp_completeCallback := fp_completeCallback env;
           loop := loop env; yoyo := yoyo env; loopCount := n;
           pathPoints := pathPoints env;
           currentDirection := flipDirection (currentDirection env) |}
        (reverse (pathPoints env) w)
    else
      executeAnimation
        {| fp_duration := fp_duration env; fp_completeCallback := fp_completeCallback env;
           loop := loop env; yoyo := yoyo env; loopCount := n;
           pathPoints := pathPoints env;
           currentDirection := currentDirection env |}
        w
  else
    Ok (if fp_completeCallback env then call (FollowComplete n) w else w).

(** [if (completeCallback) completeCallback()] in [moveAlongPath]. *)
Definition path_complete (callbacks : PathCallbacks) (w : World) : Outcome :=
  match callbacks with
  | callerPathCallbacks _ _ completeCallback =>
      Ok (if completeCallback then call PathComplete w else w)
  | followPathCallbacks env => followPath_complete env w
  end.

(** [if (stepCallback) stepCallback(x, y, stepIndex, currentSegment)]. *)
Definition path_step (callbacks : PathCallbacks) (x y : float)
    (stepIndex currentSegment : nat) (w : World) : World :=
  match callbacks with
  | callerPathCallbacks stepCallback _ _ =>
      if stepCallback then call (PathStep x y stepIndex currentSegment) w else w
  | followPathCallbacks env =>
      call (Update x y stepIndex currentSegment (loopCount env) (currentDirection env)) w
  end.

(** [if (segmentCompleteCallback) segmentCompleteCallback(currentSegment)]. *)
Definition path_segmentComplete (callbacks : PathCallbacks) (currentSegment : nat)
    (w : World) : World :=
  match callbacks with
  | callerPathCallbacks _ true _ => call (SegmentComplete currentSegment) w
  | _ => w
  end.

(** [moveNextSegment] (lines 322-354). *)
Definition moveNextSegment (env : PathEnv) (w : World) : Outcome :=
  if (totalSegments env <=? currentSegment env)%nat then
    path_complete (pathCallbacks env) w
  else
    Ok (moveBetweenPoints
          (array w (points env) !! currentSegment env)
          (array w (points env) !! S (currentSegment env))
          (segmentDuration env) (segmentCallbacks env) w).

(** [moveAlongPath] (lines 306-358); [points] is [None] for [null]. *)
Definition moveAlongPath (points : option loc) (duration : float)
    (callbacks : PathCallbacks) (w : World) : Outcome :=
  match points with
  | None => path_complete callbacks w
  | Some l =>
      if (length (array w l) <? 2)%nat then path_complete callbacks w
      else
        let totalSegments := (length (array w l) - 1)%nat in
        moveNextSegment
          {| points := l; totalSegments := totalSegments;
             segmentDuration := duration / number_of_nat totalSegments;
             currentSegment := 0; pathCallbacks := callbacks |} w
  end.

(** [if (stepCallback) stepCallback(x, y, stepIndex++)]: the world and
    the counter after it. *)
Definition move_step (a : Animate) (x y : float) (w : World) : nat * World :=
  match moveCallbacks a with
  | callerMoveCallbacks true _ => (S (stepIndex a), call (MoveStep x y (stepIndex a)) w)
  | callerMoveCallbacks false _ => (stepIndex a, w)
  | segmentCallbacks env =>
      (S (stepIndex a),
       path_step (pathCallbacks env) x y (stepIndex a) (currentSegment env) w)
  end.

(** [if (completeCallback) completeCallback()] in [animate]. *)
Definition move_complete (callbacks : MoveCallbacks) (w : World) : Outcome :=
  match callbacks with
  | callerMoveCallbacks _ completeCallback =>
      Ok (if completeCallback then call MoveComplete w else w)
  | segmentCallbacks env =>
      moveNextSegment
        (setCurrentSegment (S (currentSegment env)) env)
        (path_segmentComplete (pathCallbacks env) (currentSegment env) w)
  end.

(** [animate] (lines 272-293); reading [x] of a point that is
  [undefined] throws. *)
Definition animate (a : Animate) (timestamp : float) (w : World) : Outcome :=
  let progress := progress a timestamp in
  match startPoint a, endPoint a with
  | Some s, Some e =>
      let x := calculateLinearInterpolation (point_x s) (point_x e) progress in
      let y := calculateLinearInterpolation (point_y s) (point_y e) progress in
      let '(i, w) := move_step a x y w in
      if progress <? 1 then Ok (requestAnimationFrame (setStepIndex i a) w)
      else move_complete (moveCallbacks a) w
  | _, _ => Throw (TypeError "Cannot read properties of undefined") w
  end.

End Engine.

(** [executeAnimation], [depth] being the room left on the call stack. *)
Fixpoint executeAnimation (depth : nat) (env : FollowEnv) (w : World) : Outcome :=
  match depth with
  | O => Throw (RangeError "Maximum call stack size exceeded") w
  | S depth =>
      moveAlongPath (executeAnimation depth) (Some (pathPoints env)) (fp_duration env)
        (followPathCallbacks env) w
  end.

(** [followPath] (lines 370-426); a [path] that is not a [Path] instance
    is [None], and so is an optional argument left out. *)
Definition followPath (depth : nat) (path : option Path) (updateCallback : bool)
    (direction : option string) (duration : option float) (completeCallback : bool)
    (loop yoyo : option bool) (w : World) : Outcome :=
  match path with
  | None => Throw (TypeError "path参数类型错误") w
  | Some path =>
      match path_points path with
      | None => Throw (TypeError "Invalid path: must contain at least two points") w
      | Some points =>
          if (length (array w points) <? 2)%nat then
            Throw (TypeError "Invalid path: must contain at least two points") w
          else if negb updateCallback then Throw (TypeError "require updateCallback") w
          else
            let direction := default "forward" direction in
            let '(pathPoints, w) := alloc (array w points) w in
            let w := if String.eqb direction "forward" then w else reverse pathPoints w in
            executeAnimation depth
              {| fp_duration := default 1000 duration;
                 fp_completeCallback := completeCallback;
                 loop := default false loop; yoyo := default false yoyo;
                 loopCount := 0; pathPoints := pathPoints;
                 currentDirection := direction |} w
      end
  end.

(** ** The host *)

(** The frame callbacks registered so far are run with the frame's
    timestamp; those they register wait for the next frame.  An exception
    ends the run. *)
Fixpoint runCallbacks (depth : nat) (queue : list Animate) (t : float) (w : World) : Outcome :=
  match queue with
  | [] => Ok w
  | a :: queue =>
      match animate (executeAnimation depth) a t w with
      | Ok w => runCallbacks depth queue t w
      | Throw e w => Throw e w
      end
  end.

(** The world when a frame begins: the clock has moved and the list of
    frame requests is taken. *)
Definition beginFrame (f : Frame) (w : World) : World :=
  {| clock := now f; heap := heap w; frameRequests := []; trace := trace w |}.

Definition frame (depth : nat) (f : Frame) (w : World) : Outcome :=
  runCallbacks depth (frameRequests w) (timestamp f) (beginFrame f w).

Fixpoint run (depth : nat) (fs : list Frame) (w : World) : Outcome :=
  match fs with
  | [] => Ok w
  | f :: fs =>
      match frame depth f w with
      | Ok w => run depth fs w
      | Throw e w => Throw e w
      end
  end.

(** A call followed by what the host does next, unless it threw. *)
Definition andThen (o : Outcome) (k : World -> Outcome) : Outcome :=
  match o with
  | Ok w => k w
  | Throw e w => Throw e w
  end.

(** ** Links *)

(** [new Path(points)] on an array of points with numeric coordinates. *)
Definition newPath (points : loc) : Path := {| path_points := Some points |}.

(** [new Link(path, lineStyle, startArrow, endArrow)] on a [Path] instance;
    an argument that is [undefined] takes its default. *)
Definition newLink (path : Path) (lineStyle startArrow endArrow : Value) (w : World)
    : Error + Link :=
  let lineStyle := match lineStyle with undefined => str "solid" | v => v end in
  let startArrow := match startArrow with undefined => boolean false | v => v end in
  let endArrow := match endArrow with undefined => boolean false | v => v end in
  match lineStyle with
  | str style =>
      match startArrow, endArrow with
      | boolean sa, boolean ea =>
          match path_points path with
          | Some points =>
              match array w points !! 0%nat with
              | Some p =>
                  inr {| link_x := point_x p; link_y := point_y p; link_visible := true;
                         link_path := path; link_borderStyle := style;
                         startArrow := sa; endArrow := ea |}
              | None => inl (TypeError "Cannot read properties of undefined")
              end
          | None => inl (TypeError "Cannot read properties of null")
          end
      | _, _ => inl (TypeError "Link箭头参数必须为布尔类型")
      end
  | _ => inl (TypeError "Link线样式必须为字符串类型")
  end.

(** [createLink] (lines 235-242). *)
Definition createLink (element1 element2 : Box) (lineStyle startArrow endArrow : Value)
    (w : World) : (Error + Link) * World :=
  let '(l, w) :=
    alloc [ {| point_x := box_x element1 + box_width element1 / 2;
               point_y := box_y element1 + box_height element1 / 2 |};
            {| point_x := box_x element2 + box_width element2 / 2;
               point_y := box_y element2 + box_height element2 / 2 |} ] w in
  (newLink (newPath l) lineStyle startArrow endArrow w, w).

(** ** Elements *)

(** A reference to an element: the identity of the object. *)
Definition ref := nat.

(** A value given where the source checks types or compares. *)
Inductive JSValue :=
  | js_undefined
  | js_null
  | js_number (n : float)
  | js_string (s : string)
  | js_boolean (b : bool)
  | js_object (r : ref).

(** [typeof v]. *)
Definition typeof (v : JSValue) : string :=
  match v with
  | js_undefined => "undefined"
  | js_null | js_object _ => "object"
  | js_number _ => "number"
  | js_string _ => "string"
  | js_boolean _ => "boolean"
  end.

(** Whether [v || other] is [v]. *)
Definition truthy (v : JSValue) : bool :=
  match v with
  | js_undefined | js_null => false
  | js_number n => negb (is_zero n || is_nan n)
  | js_string s => negb (String.eqb s "")
  | js_boolean b => b
  | js_object _ => true
  end.

(** [a === b]. *)
Definition strictEquals (a b : JSValue) : bool :=
  match a, b with
  | js_undefined, js_undefined | js_null, js_null => true
  | js_number x, js_number y => x =? y
  | js_string x, js_string y => String.eqb x y
  | js_boolean x, js_boolean y => Bool.eqb x y
  | js_object x, js_object y => Nat.eqb x y
  | _, _ => false
  end.

(** What the constructor of a subclass adds to an element. *)
Inductive Shape :=
  | plainElement
  | boxElement (width height : float)
  | linkElement (path : Path) (startArrow endArrow : bool).

Record Element := {
  element_id : JSValue;
  element_x : float;
  element_y : float;
  element_visible : bool;
  element_style : gmap string JSValue;
  element_shape : Shape }.

(** The style every element starts with (lines 25-34). *)
Definition defaultStyle : gmap string JSValue :=
  {[ "borderColor" := js_string "black"; "borderWidth" := js_number 1;
     "borderStyle" := js_string "solid"; "backgroundColor" := js_string "transparent";
     "textColor" := js_string "black"; "textSize" := js_number 16;
     "fontName" := js_string "Arial"; "textDecoration" := js_string "none" ]}.

(** [new Element(x, y, visible, id)] (lines 11-35).  [unique] is what the
    clock and the random generator contribute to a generated id. *)
Definition newElement (unique : string) (x y visible id : JSValue) : Error + Element :=
  let visible := match visible with js_undefined => js_boolean true | v => v end in
  let id := match id with js_undefined => js_null | v => v end in
  match x, y with
  | js_number x, js_number y =>
      match visible with
      | js_boolean visible =>
          inr {| element_id :=
                   if truthy id then id else js_string ("element_" ++ unique);
                 element_x := x; element_y := y; element_visible := visible;
                 element_style := defaultStyle; element_shape := plainElement |}
      | _ => inl (TypeError "Element可见性必须为布尔类型")
      end
  | _, _ => inl (TypeError "Element坐标必须为数字类型")
  end.

(** [new Box(x, y, width, height)] (lines 85-99). *)
Definition newBox (unique : string) (x y width height : JSValue) : Error + Element :=
  match newElement unique x y js_undefined js_undefined with
  | inl e => inl e
  | inr this =>
      match width, height with
      | js_number width, js_number height =>
          if (width <=? 0) || (height <=? 0) then inl (RangeError "Box宽高必须大于0")
          else
            inr {| element_id := element_id this; element_x := element_x this;
                   element_y := element_y this; element_visible := element_visible this;
                   element_style := element_style this;
                   element_shape := boxElement width height |}
      | _, _ => inl (TypeError "Box宽高必须为数字类型")
      end
  end.

(** The element [new Link(...)] is (lines 166-174): [super(x, y, true)]
    gives it a generated id, and its style is replaced. *)
Definition elementOfLink (unique : string) (link : Link) : Element :=
  {| element_id := js_string ("element_" ++ unique);
     element_x := link_x link; element_y := link_y link;
     element_visible := link_visible link;
     element_style :=
       {[ "borderColor" := js_string "black"; "borderWidth" := js_number 1;
          "borderStyle" := js_string (link_borderStyle link) ]};
     element_shape := linkElement (link_path link) (startArrow link) (endArrow link) |}.

(** [moveTo] (lines 52-55). *)
Definition moveTo (x y : float) (this : Element) : Element :=
  {| element_id := element_id this; element_x := x; element_y := y;
     element_visible := element_visible this; element_style := element_style this;
     element_shape := element_shape this |}.

(** ** The scene *)

(** The lists of an [AnimationFramework] (lines 188-192); they hold
    references, the elements themselves are in a store. *)
Record AnimationFramework := {
  elements : list ref;
  temporaryObjects : list ref;
  flashingElements : list ref }.

Definition newAnimationFramework : AnimationFramework :=
  {| elements := []; temporaryObjects := []; flashingElements := [] |}.

(** [e.id]; an object that is no element has none. *)
Definition idOf (objects : gmap ref Element) (e : ref) : JSValue :=
  match objects !! e with
  | Some element => element_id element
  | None => js_undefined
  end.

(** [addElement] (lines 198-200). *)
Definition addElement (element : ref) (this : AnimationFramework) : AnimationFramework :=
  {| elements := elements this ++ [element];
     temporaryObjects := temporaryObjects this;
     flashingElements := flashingElements this |}.

(** [removeElement] (lines 206-208). *)
Definition removeElement (objects : gmap ref Element) (id : JSValue)
    (this : AnimationFramework) : AnimationFramework :=
  {| elements :=
       List.filter (fun e => negb (strictEquals (idOf objects e) id)) (elements this);
     temporaryObjects := temporaryObjects this;
     flashingElements := flashingElements this |}.

(** [createTemporaryElement] (lines 214-216). *)
Definition createTemporaryElement (element : ref) (this : AnimationFramework)
    : AnimationFramework :=
  {| elements := elements this;
     temporaryObjects := temporaryObjects this ++ [element];
     flashingElements := flashingElements this |}.

(** [removeTemporaryElement] (lines 222-224). *)
Definition removeTemporaryElement (element : ref) (this : AnimationFramework)
    : AnimationFramework :=
  {| elements := elements this;
     temporaryObjects :=
       List.filter (fun e => negb (Nat.eqb e element)) (temporaryObjects this);
     flashingElements := flashingElements this |}.

(** [addFlash] (lines 248-250). *)
Definition addFlash (element : ref) (this : AnimationFramework) : AnimationFramework :=
  {| elements := elements this;
     temporaryObjects := temporaryObjects this;
     flashingElements := flashingElements this ++ [element] |}.

(** [removeFlash] (lines 256-258). *)
Definition removeFlash (element : ref) (this : AnimationFramework) : AnimationFramework :=
  {| elements := elements this;
     temporaryObjects := temporaryObjects this;
     flashingElements :=
       List.filter (fun e => negb (Nat.eqb e element)) (flashingElements this) |}.

(** [Element.flash] (lines 71-74). *)
Definition flash (this : ref) (framework : AnimationFramework) : AnimationFramework :=
  addFlash this framework.

(** ** Paths *)

(** [getStartPoint] (lines 131-133); an index past the end reads
    [undefined], here [None]. *)
Definition getStartPoint (this : Path) (w : World) : Error + option Point :=
  match path_points this with
  | Some points => inr (array w points !! 0%nat)
  | None => inl (TypeError "Cannot read properties of null")
  end.

(** [getEndPoint] (lines 139-141). *)
Definition getEndPoint (this : Path) (w : World) : Error + option Point :=
  match path_points this with
  | Some points => inr (array w points !! (length (array w points) - 1)%nat)
  | None => inl (TypeError "Cannot read properties of null")
  end.

(** ** Observations *)

(** The world a call leaves, returning or throwing. *)
Definition worldOf (o : Outcome) : World :=
  match o with
  | Ok w => w
  | Throw _ w => w
  end.

(** How many calls of a trace satisfy [p]. *)
Definition calls (p : Event -> bool) (tr : list Event) : nat :=
  length (List.filter p tr).

(** The callback a call was made to. *)
Definition isMoveStep (e : Event) : bool :=
  match e with MoveStep _ _ _ => true | _ => false end.


Definition isPathComplete (e : Event) : bool :=
  match e with PathComplete => true | _ => false end.

Definition isFollowComplete (e : Event) : bool :=
  match e with FollowComplete _ => true | _ => false end.

(** The arguments of the calls to the segment-completion callback, in order. *)
Fixpoint segmentCompletions (tr : list Event) : list nat :=
  match tr with
  | [] => []
  | SegmentComplete i :: tr => i :: segmentCompletions tr
  | _ :: tr => segmentCompletions tr
  end.

(** The steps delivered since the current segment began. *)
Definition stepsSince (tr : list Event) : nat :=
  fold_left (fun n e => match e with PathStep _ _ _ _ => S n | _ => O end) tr O.

(** [P before e] holds of every call [e] of the trace, [before] being the
    calls made before it. *)
Definition history (P : list Event -> Event -> Prop) (tr : list Event) : Prop :=
  forall before e after, tr = before ++ e :: after -> P before e.

(** The frame at which [animate] stops asking for another frame. *)
Definition late (a : Animate) (f : Frame) : bool :=
  negb (progress a (timestamp f) <? 1).

(** A frame whose callbacks run at the time of its timestamp. *)
Definition frameAt (t : float) : Frame := {| timestamp := t; now := t |}.

(** ** The course of an animation *)

(** The start time of the segment in progress and the number of segments
    completed so far, [st], after one more frame: a segment of duration
    [d] is over at the first frame whose progress is not below 1, and the
    next one starts at the time of that frame. *)
Definition segmentClock (d : float) (st : float * nat) (f : Frame) : float * nat :=
  if Math_min ((timestamp f - fst st) / d) 1 <? 1 then st else (now f, S (snd st)).

(** The same after the frames [fs], for a walk started at [t0]. *)
Definition schedule (d t0 : float) (fs : list Frame) : float * nat :=
  fold_left (segmentClock d) fs (t0, 0%nat).

(** What holds of a call made during a walk of [n] segments, given the
    calls made before it. *)
Definition pathOrder (n : nat) (before : list Event) (e : Event) : Prop :=
  match e with
  | PathStep _ _ stepIndex segmentIndex =>
      segmentCompletions before = seq 0 segmentIndex /\ (segmentIndex < n)%nat /\
      stepIndex = stepsSince before
  | SegmentComplete segmentIndex =>
      segmentCompletions before = seq 0 segmentIndex /\ (segmentIndex < n)%nat /\
      (0 < stepsSince before)%nat
  | PathComplete =>
      segmentCompletions before = seq 0 n /\ calls isPathComplete before = 0%nat /\
      stepsSince before = 0%nat
  | _ => False
  end.

(** The working point sequence of the first traversal. *)
Definition firstPoints (direction : string) (ps : list Point) : list Point :=
  if String.eqb direction "forward" then ps else rev ps.

(** The working point sequence of traversal [n], [ps] being the one of
    the first traversal. *)
Definition workingPoints (yoyo : bool) (ps : list Point) (n : nat) : list Point :=
  if yoyo then Nat.iter n (@rev Point) ps else ps.

(** The direction reported during traversal [n]. *)
Definition directionAt (yoyo : bool) (direction : string) (n : nat) : string :=
  if yoyo then Nat.iter n flipDirection direction else direction.

(** The update of step [j] of segment [i] of traversal [n] follows the
    call [prev]: the next step of the same segment, the first step of the
    next segment, or the first step of the next traversal after the last
    segment of this one. *)
Definition follows (segments : nat) (prev : option Event) (n i j : nat) : Prop :=
  match prev with
  | None => n = 0%nat /\ i = 0%nat /\ j = 0%nat
  | Some (Update _ _ j' i' n' _) =>
      (n = n' /\ i = i' /\ j = S j') \/
      (n = n' /\ i = S i' /\ j = 0%nat) \/
      (n = S n' /\ i = 0%nat /\ j = 0%nat /\ S i' = segments)
  | Some _ => False
  end.

(** What holds of a call made by [followPath], given the calls before. *)
Definition followOrder (segments : nat) (loop yoyo : bool) (direction : string)
    (before : list Event) (e : Event) : Prop :=
  match e with
  | Update _ _ j i n dir =>
      dir = directionAt yoyo direction n /\ (i < segments)%nat /\
      (loop = false -> n = 0%nat) /\
      follows segments (last before) n i j
  | FollowComplete n =>
      n = 1%nat /\ loop = false /\ calls isFollowComplete before = 0%nat /\
      match last before with
      | Some (Update _ _ _ i n' _) => n' = 0%nat /\ S i = segments
      | _ => False
      end
  | _ => False
  end.

(** ** States *)

(** The closure [animate] of a move started by the caller with both
    callbacks, after [j] steps. *)
Definition moveAnimate (s e : Point) (d t : float) (j : nat) : Animate :=
  {| startPoint := Some s; endPoint := Some e; duration := d; startTime := t;
     stepIndex := j; moveCallbacks := callerMoveCallbacks true true |}.

(** The closure [animate] of segment [k] of a walk over the points [ps],
    the array [l], after [j] steps. *)
Definition segmentAnimate (ps : list Point) (l : loc) (d : float)
    (callbacks : PathCallbacks) (k j : nat) (t : float) : Animate :=
  {| startPoint := ps !! k; endPoint := ps !! S k; duration := d; startTime := t;
     stepIndex := j;
     moveCallbacks :=
       segmentCallbacks
         {| points := l; totalSegments := length ps - 1; segmentDuration := d;
            currentSegment := k; pathCallbacks := callbacks |} |}.

(** The variables of [followPath] during traversal [n]. *)
Definition followEnv (d : float) (completeCallback loop yoyo : bool) (l : loc)
    (direction : string) (n : nat) : FollowEnv :=
  {| fp_duration := d; fp_completeCallback := completeCallback; loop := loop;
     yoyo := yoyo; loopCount := n; pathPoints := l;
     currentDirection := directionAt yoyo direction n |}.

(** The closure [animate] of segment [k] of traversal [n] of [followPath]
    on the points [ps], after [j] steps, [c] being the working copy. *)
Definition followAnimate (ps : list Point) (c : loc) (d : float)
    (completeCallback loop yoyo : bool) (direction : string) (n k j : nat) (t : float)
    : Animate :=
  segmentAnimate (workingPoints yoyo (firstPoints direction ps) n) c
    (d / number_of_nat (length ps - 1))
    (followPathCallbacks (followEnv d completeCallback loop yoyo c direction n)) k j t.

(** The variables of the walk, and of the [followPath], an [animate]
    closure belongs to. *)
Definition pathEnvOf (a : Animate) : option PathEnv :=
  match moveCallbacks a with
  | segmentCallbacks env => Some env
  | _ => None
  end.

Definition followEnvOf (a : Animate) : option FollowEnv :=
  match moveCallbacks a with
  | segmentCallbacks env =>
      match pathCallbacks env with
      | followPathCallbacks env => Some env
      | _ => None
      end
  | _ => None
  end.

(** The state of a move from [s] to [e] started at [t0], after the frames
    [fs]: no frame was late and the move goes on, or one was and it is over. *)
Inductive moving (s e : Point) (d t0 : float) (fs : list Frame) (w : World) : Prop :=
  | moving_on steps :
      Forall (fun f => late (moveAnimate s e d t0 0) f = false) fs ->
      frameRequests w = [moveAnimate s e d t0 (length steps)] ->
      trace w = steps ->
      Forall (fun ev => isMoveStep ev = true) steps ->
      moving s e d t0 fs w
  | moving_over steps f i :
      In f fs -> late (moveAnimate s e d t0 0) f = true ->
      frameRequests w = [] ->
      trace w =
        steps ++
        [MoveStep
           (calculateLinearInterpolation (point_x s) (point_x e)
              (progress (moveAnimate s e d t0 0) (timestamp f)))
           (calculateLinearInterpolation (point_y s) (point_y e)
              (progress (moveAnimate s e d t0 0) (timestamp f))) i;
         MoveComplete] ->
      Forall (fun ev => isMoveStep ev = true) steps ->
      moving s e d t0 fs w.

(** The state of a walk over the points [ps] of the array [l], started at
    [t0] by the caller with its three callbacks, after the frames [fs]. *)
Inductive walking (ps : list Point) (l : loc) (d t0 : float) (fs : list Frame)
    (w : World) : Prop :=
  | walking_on k j t :
      schedule d t0 fs = (t, k) ->
      (S k < length ps)%nat ->
      heap w !! l = Some ps ->
      frameRequests w = [segmentAnimate ps l d (callerPathCallbacks true true true) k j t] ->
      segmentCompletions (trace w) = seq 0 k ->
      stepsSince (trace w) = j ->
      calls isPathComplete (trace w) = 0%nat ->
      history (pathOrder (length ps - 1)) (trace w) ->
      walking ps l d t0 fs w
  | walking_over tr :
      (length ps - 1 <= snd (schedule d t0 fs))%nat ->
      (2 <= length ps)%nat ->
      frameRequests w = [] ->
      trace w = tr ++ [SegmentComplete (length ps - 2); PathComplete] ->
      segmentCompletions tr = seq 0 (length ps - 2) ->
      calls isPathComplete tr = 0%nat ->
      history (pathOrder (length ps - 1)) (trace w) ->
      walking ps l d t0 fs w.

(** The state of [followPath] on the points [ps] of the array [l], of
    which [c] is the working copy, started at [t0], after the frames [fs]. *)
Inductive following (ps : list Point) (l c : loc) (d : float)
    (completeCallback loop yoyo : bool) (direction : string) (t0 : float)
    (fs : list Frame) (w : World) : Prop :=
  | following_on n k j t :
      schedule (d / number_of_nat (length ps - 1)) t0 fs = (t, (n * (length ps - 1) + k)%nat) ->
      (S k < length ps)%nat ->
      heap w !! l = Some ps -> c <> l ->
      heap w !! c = Some (workingPoints yoyo (firstPoints direction ps) n) ->
      frameRequests w =
        [followAnimate ps c d completeCallback loop yoyo direction n k j t] ->
      (loop = false -> n = 0%nat) ->
      follows (length ps - 1) (last (trace w)) n k j ->
      calls isFollowComplete (trace w) = 0%nat ->
      history (followOrder (length ps - 1) loop yoyo direction) (trace w) ->
      following ps l c d completeCallback loop yoyo direction t0 fs w
  | following_over tr x y j :
      (length ps - 1 <= snd (schedule (d / number_of_nat (length ps - 1)) t0 fs))%nat ->
      loop = false ->
      heap w !! l = Some ps ->
      frameRequests w = [] ->
      trace w =
        tr ++ Update x y j (length ps - 2) 0 direction ::
        (if completeCallback then [FollowComplete 1] else []) ->
      calls isFollowComplete tr = 0%nat ->
      history (followOrder (length ps - 1) loop yoyo direction) (trace w) ->
      following ps l c d completeCallback loop yoyo direction t0 fs w.

(** ** Classes of numbers *)

(** A [spec_float] that is not NaN and has the sign [s]. *)
Definition signed (s : bool) (x : spec_float) : Prop :=
  match x with
  | S754_zero s' | S754_infinity s' | S754_finite s' _ _ => s' = s
  | S754_nan => False
  end.

(** A [spec_float] that is zero or negative, hence below 1. *)
Definition below_one (x : spec_float) : Prop :=
  match x with
  | S754_zero _ | S754_finite true _ _ | S754_infinity true => True
  | _ => False
  end.

(** A [spec_float] that is zero or positive. *)
Definition nonneg (x : spec_float) : Prop :=
  match x with
  | S754_zero _ | S754_finite false _ _ | S754_infinity false => True
  | _ => False
  end.

(** ** Data of the examples *)

(** The corner path of the tests: (0,0), (100,0), (100,100). *)
Definition corner : list Point :=
  [ {| point_x := 0; point_y := 0 |}; {| point_x := 100; point_y := 0 |};
    {| point_x := 100; point_y := 100 |} ].


(** ** The course of a move *)

(** The frames at which a move is animated: those up to the first one at
    which it is over. *)
Fixpoint framesOf (a : Animate) (fs : list Frame) : list Frame :=
  match fs with
  | [] => []
  | f :: fs => if late a f then [f] else f :: framesOf a fs
  end.

(** The step a move from [s] to [e] started at [t0] reports at the frame
    [f], its step number [i]. *)
Definition stepAt (s e : Point) (d t0 : float) (i : nat) (f : Frame) : Event :=
  let p := progress (moveAnimate s e d t0 0) (timestamp f) in
  MoveStep (calculateLinearInterpolation (point_x s) (point_x e) p)
    (calculateLinearInterpolation (point_y s) (point_y e) p) i.

(** No frame of [fs] ends the move. *)
Definition goesOn (a : Animate) (fs : list Frame) : bool :=
  forallb (fun f => negb (late a f)) fs.

(** ** Callbacks left out *)

(** Whether a call reaches the caller, who gave the callbacks that are
    [true]. *)
Definition given (stepCallback segmentCompleteCallback completeCallback : bool)
    (e : Event) : bool :=
  match e with
  | MoveStep _ _ _ | PathStep _ _ _ _ => stepCallback
  | SegmentComplete _ => segmentCompleteCallback
  | MoveComplete | PathComplete => completeCallback
  | Update _ _ _ _ _ _ | FollowComplete _ => true
  end.

(** A closure of a caller who gave every callback. *)
Definition allGiven (a : Animate) : Prop :=
  match moveCallbacks a with
  | callerMoveCallbacks stepCallback completeCallback =>
      stepCallback = true /\ completeCallback = true
  | segmentCallbacks env =>
      pathCallbacks env = callerPathCallbacks true true true
  end.

Section Optional.
Variables (stepCallback segmentCompleteCallback completeCallback : bool).

(** The same closure for a caller who gave only some of the callbacks: a
    step counter that is never passed on is never incremented. *)
Definition someGiven (a : Animate) : Animate :=
  match moveCallbacks a with
  | callerMoveCallbacks _ _ =>
      {| startPoint := startPoint a; endPoint := endPoint a; duration := duration a;
         startTime := startTime a;
         stepIndex := if stepCallback then stepIndex a else 0;
         moveCallbacks := callerMoveCallbacks stepCallback completeCallback |}
  | segmentCallbacks env =>
      {| startPoint := startPoint a; endPoint := endPoint a; duration := duration a;
         startTime := startTime a; stepIndex := stepIndex a;
         moveCallbacks :=
           segmentCallbacks
             {| points := points env; totalSegments := totalSegments env;
                segmentDuration := segmentDuration env;
                currentSegment := currentSegment env;
                pathCallbacks :=
                  callerPathCallbacks stepCallback segmentCompleteCallback
                    completeCallback |} |}
  end.

(** The world of that caller. *)
Definition heardBy (w : World) : World :=
  {| clock := clock w; heap := heap w;
     frameRequests := map someGiven (frameRequests w);
     trace := List.filter (given stepCallback segmentCompleteCallback completeCallback)
                (trace w) |}.

Definition outcomeHeardBy (o : Outcome) : Outcome :=
  match o with
  | Ok w => Ok (heardBy w)
  | Throw e w => Throw e (heardBy w)
  end.

End Optional.

(** Every closure waiting for a frame is one of such a caller. *)
Definition allPending (w : World) : Prop := Forall allGiven (frameRequests w).

(** ** Positions *)

(** A call to the update callback. *)
Definition isUpdate (e : Event) : bool :=
  match e with Update _ _ _ _ _ _ => true | _ => false end.

(** The position a step of segment [i] of a walk over [ps] reports at
    progress [p]. *)
Definition onSegment (ps : list Point) (i : nat) (p x y : float) : Prop :=
  exists s e,
    ps !! i = Some s /\ ps !! S i = Some e /\
    x = calculateLinearInterpolation (point_x s) (point_x e) p /\
    y = calculateLinearInterpolation (point_y s) (point_y e) p.

(** What holds of the position reported by a step of a walk whose
    segments last [d], at one of the frames [fs]. *)
Definition stepOnPath (ps : list Point) (d : float) (fs : list Frame) (e : Event) : Prop :=
  match e with
  | PathStep x y _ i =>
      exists f t, In f fs /\ onSegment ps i (Math_min ((timestamp f - t) / d) 1) x y
  | _ => True
  end.

(** What holds of the position reported by an update of [followPath],
    [working n] being the point sequence of traversal [n]. *)
Definition updateOnPath (working : nat -> list Point) (d : float) (fs : list Frame)
    (e : Event) : Prop :=
  match e with
  | Update x y _ i n _ =>
      exists f t, In f fs /\ onSegment (working n) i (Math_min ((timestamp f - t) / d) 1) x y
  | _ => True
  end.

(** An update of the first segment of the first traversal. *)
Definition isFirstSegment (e : Event) : bool :=
  match e with Update _ _ _ 0 0 _ => true | _ => false end.

(** ** The course of a walk *)

(** A call to the step callback of a walk. *)
Definition isPathStep (e : Event) : bool :=
  match e with PathStep _ _ _ _ => true | _ => false end.

(** The step index and the segment index of the steps of a walk, in order. *)
Fixpoint stepNumbers (tr : list Event) : list (nat * nat) :=
  match tr with
  | [] => []
  | PathStep _ _ stepIndex segmentIndex :: tr => (stepIndex, segmentIndex) :: stepNumbers tr
  | _ :: tr => stepNumbers tr
  end.

(** The steps of a walk ([moveAlongPath] driving [moveBetweenPoints])
    over the points [ps] whose segments last [d], at the frames [fs], from
    step [j] of segment [i], which started at [t]:
    each frame brings one step of the segment in progress, at the progress
    of the frame since the start of the segment; a step whose progress is
    not below 1 is the last of its segment, and the next segment starts at
    the time of that frame; after the last segment there is no step. *)
Fixpoint walkSteps (ps : list Point) (d t : float) (i j : nat) (fs : list Frame)
    : list Event :=
  match fs with
  | [] => []
  | f :: fs =>
      match ps !! i, ps !! S i with
      | Some s, Some e =>
          let p := Math_min ((timestamp f - t) / d) 1 in
          PathStep (calculateLinearInterpolation (point_x s) (point_x e) p)
            (calculateLinearInterpolation (point_y s) (point_y e) p) j i ::
          (if p <? 1 then walkSteps ps d t i (S j) fs
           else walkSteps ps d (now f) (S i) 0 fs)
      | _, _ => []
      end
  end.

(** ** The array of a path *)

(** Two worlds that differ at most in the array at [l]. *)
Definition sameBut (l : loc) (w w' : World) : Prop :=
  clock w = clock w' /\ frameRequests w = frameRequests w' /\ trace w = trace w' /\
  forall k, k <> l -> heap w !! k = heap w' !! k.

(** Two outcomes of the same kind, whose worlds differ at most at [l]. *)
Definition sameOutcomeBut (l : loc) (o o' : Outcome) : Prop :=
  match o, o' with
  | Ok w, Ok w' => sameBut l w w'
  | Throw e w, Throw e' w' => e = e' /\ sameBut l w w'
  | _, _ => False
  end.

(** Callbacks, and a closure, that hold no reference to the array at [l]. *)
Definition pathIgnores (l : loc) (callbacks : PathCallbacks) : Prop :=
  match callbacks with
  | callerPathCallbacks _ _ _ => True
  | followPathCallbacks env => pathPoints env <> l
  end.

Definition ignores (l : loc) (a : Animate) : Prop :=
  match moveCallbacks a with
  | callerMoveCallbacks _ _ => True
  | segmentCallbacks env => points env <> l /\ pathIgnores l (pathCallbacks env)
  end.

(** No closure waiting for a frame holds a reference to the array at [l]. *)
Definition quiet (l : loc) (w : World) : Prop := Forall (ignores l) (frameRequests w).

(** An [executeAnimation] that does not read the array at [l]. *)
Definition execIgnores (l : loc) (exec : FollowEnv -> World -> Outcome) : Prop :=
  forall env w w',
    pathPoints env <> l -> quiet l w -> sameBut l w w' ->
    sameOutcomeBut l (exec env w) (exec env w') /\ quiet l (worldOf (exec env w)) /\
    heap (worldOf (exec env w)) !! l = heap w !! l.

(** ** Classes of arguments *)

(** A number above zero, or no number at all. *)
Definition aboveZeroOrNaN (n : float) : bool := (0 <? n) || is_nan n.

(** Whether the [Link] constructor takes a value for its line style, and
    for an arrow: [undefined] stands for an argument left out. *)
Definition isLineStyle (v : Value) : bool :=
  match v with undefined | str _ => true | _ => false end.

Definition isArrow (v : Value) : bool :=
  match v with undefined | boolean _ => true | _ => false end.

(** * Properties *)

(** ** JavaScript numbers *)

(** Case analysis on the class and sign of a number. *)
Ltac number_cases x := destruct (Prim2SF x) as [[]|[]| |[] ? ?].

Lemma shr_1_nonneg mrs : (0 <= shr_m mrs)%Z -> (0 <= shr_m (shr_1 mrs))%Z.
Proof. destruct mrs as [m r s]; simpl. destruct m as [|[p|p|]|[p|p|]]; simpl; lia. Qed.

Lemma iter_pos_nonneg p : forall mrs,
  (0 <= shr_m mrs)%Z -> (0 <= shr_m (SpecFloat.iter_pos shr_1 p mrs))%Z.
Proof.
  induction p as [p IH|p IH|]; intros mrs H; simpl.
  - apply IH, IH, shr_1_nonneg, H.
  - apply IH, IH, H.
  - apply shr_1_nonneg, H.
Qed.

Lemma shr_fexp_nonneg m e l :
  (0 <= m)%Z -> (0 <= shr_m (fst (shr_fexp prec emax m e l)))%Z.
Proof.
  intros H. unfold shr_fexp, shr.
  assert (H0 : (0 <= shr_m (shr_record_of_loc m l))%Z) by (destruct l as [|[]]; exact H).
  destruct (_ - e)%Z; simpl; auto using iter_pos_nonneg.
Qed.

Lemma round_nearest_even_nonneg m l : (0 <= m)%Z -> (0 <= round_nearest_even m l)%Z.
Proof. intros H. destruct l as [|[]]; simpl; try destruct (Z.even m); lia. Qed.

Lemma binary_round_aux_signed s m e l :
  (0 <= m)%Z -> signed s (binary_round_aux prec emax s m e l).
Proof.
  intros H. unfold binary_round_aux.
  pose proof (shr_fexp_nonneg m e l H) as H1.
  destruct (shr_fexp prec emax m e l) as [mrs' e']. simpl in H1.
  pose proof (shr_fexp_nonneg _ e' loc_Exact
                (round_nearest_even_nonneg _ (loc_of_shr_record mrs') H1)) as H2.
  destruct (shr_fexp prec emax _ e' loc_Exact) as [mrs'' e'']. simpl in H2.
  destruct (shr_m mrs''); [reflexivity | | lia].
  destruct (e'' <=? emax - prec)%Z; reflexivity.
Qed.



(** What [Prim2SF] says of the tests on primitive floats *)
Lemma Prim2SF_nan x : Prim2SF x = S754_nan <-> is_nan x = true.
Proof.
  unfold Prim2SF. destruct (is_nan x); [tauto|].
  split; [|discriminate].
  destruct (is_zero x); [discriminate|].
  destruct (is_infinity x); [discriminate|].
  destruct (Z.frexp x) as [r ex].
  destruct (shr_fexp _ _ _ _ _) as [mrs e'].
  destruct (shr_m mrs); discriminate.
Qed.

Lemma is_nan_false x : Prim2SF x <> S754_nan -> is_nan x = false.
Proof.
  intros H. destruct (is_nan x) eqn:E; [|reflexivity].
  apply Prim2SF_nan in E. contradiction.
Qed.

Lemma Prim2SF_finite x :
  is_finite x = true ->
  match Prim2SF x with S754_zero _ | S754_finite _ _ _ => True | _ => False end.
Proof.
  unfold is_finite, Prim2SF. destruct (is_nan x); [discriminate|].
  destruct (is_zero x); [trivial|].
  destruct (is_infinity x); [discriminate|]. intros _.
  destruct (Z.frexp x) as [r ex].
  destruct (shr_fexp _ _ _ _ _) as [mrs e'].
  destruct (shr_m mrs); trivial.
Qed.


Lemma SFdiv_core_nonneg m1 e1 m2 e2 :
  (0 <= fst (fst (SFdiv_core_binary prec emax (Zpos m1) e1 (Zpos m2) e2)))%Z.
Proof.
  unfold SFdiv_core_binary.
  set (s := (_ - _ - _)%Z).
  set (m' := match s with Z0 => _ | Zpos _ => _ | Zneg _ => _ end).
  assert (Hm : (0 <= m')%Z).
  { subst m'. destruct s; [lia | | lia]. apply Z.shiftl_nonneg. lia. }
  pose proof (Z.div_pos m' (Zpos m2) Hm ltac:(lia)) as Hq.
  unfold Z.div in Hq. destruct (Z.div_eucl m' (Zpos m2)) as [q r]. exact Hq.
Qed.

Lemma SFdiv_finite_signed sx mx ex sy my ey :
  signed (xorb sx sy) (SF64div (S754_finite sx mx ex) (S754_finite sy my ey)).
Proof.
  unfold SF64div, SFdiv.
  pose proof (SFdiv_core_nonneg mx ex my ey) as H.
  destruct (SFdiv_core_binary _ _ _ _ _ _) as [[mz ez] lz]. simpl in H.
  apply binary_round_aux_signed, H.
Qed.




Lemma below_one_ltb q : below_one (Prim2SF q) -> (q <? 1) = true.
Proof.
  rewrite FloatAxioms.ltb_spec. change (Prim2SF 1) with (S754_finite false 4503599627370496 (-52)).
  number_cases q; simpl; intros H; try contradiction; reflexivity.
Qed.

Lemma is_zero_below_one q : is_zero q = true -> (q <? 1) = true.
Proof.
  unfold is_zero. rewrite FloatAxioms.eqb_spec. change (Prim2SF 0) with (S754_zero false).
  intros H. apply below_one_ltb.
  number_cases q; try discriminate; exact I.
Qed.

Lemma Math_min_early q : (q <? 1) = true -> is_nan q = false -> Math_min q 1 = q.
Proof. unfold Math_min. intros -> ->. reflexivity. Qed.


Lemma Math_min_nan q : is_nan q = true -> Math_min q 1 = nan.
Proof. unfold Math_min. intros ->. reflexivity. Qed.

Lemma leb_nonneg e : (0 <=? e) = true -> nonneg (Prim2SF e).
Proof.
  rewrite FloatAxioms.leb_spec. change (Prim2SF 0) with (S754_zero false).
  number_cases e; try discriminate; intros _; exact I.
Qed.


Lemma Prim2SF_negative d :
  (d <? 0) = true -> (neg_infinity <? d) = true ->
  exists m e, Prim2SF d = S754_finite true m e.
Proof.
  rewrite !FloatAxioms.ltb_spec. change (Prim2SF 0) with (S754_zero false).
  change (Prim2SF neg_infinity) with (S754_infinity true).
  number_cases d; try discriminate. eauto.
Qed.

(** A move with a negative duration is early at every frame that is not
    before its start. *)
Lemma negative_duration_early e d :
  (0 <=? e) = true -> (d <? 0) = true -> (neg_infinity <? d) = true ->
  (Math_min (e / d) 1 <? 1) = true.
Proof.
  intros He Hd Hi.
  destruct (Prim2SF_negative d Hd Hi) as (m & x & Ed).
  assert (H : below_one (Prim2SF (e / d))).
  { rewrite div_spec, Ed. apply leb_nonneg in He.
    destruct (Prim2SF e) as [[]|[]| |[] me ee]; try contradiction; try exact I.
    pose proof (SFdiv_finite_signed false me ee true m x) as S.
    destruct (SF64div _ _) as [s|s| |s ? ?]; simpl in S;
      try contradiction; subst; exact I. }
  assert (N : is_nan (e / d) = false).
  { apply is_nan_false. intros E. rewrite E in H. exact H. }
  apply below_one_ltb in H. rewrite Math_min_early; assumption.
Qed.




(** ** Traces *)

Lemma history_nil P : history P [].
Proof. intros before e after H. destruct before; discriminate. Qed.

Lemma history_snoc P tr e : history P tr -> P tr e -> history P (tr ++ [e]).
Proof.
  intros H He before e' after E.
  destruct after as [|x after _] using rev_ind.
  - apply app_inj_tail in E as [-> ->]. exact He.
  - rewrite app_comm_cons, app_assoc in E. apply app_inj_tail in E as [E _].
    exact (H _ _ _ E).
Qed.

Lemma calls_app p tr1 tr2 : calls p (tr1 ++ tr2) = (calls p tr1 + calls p tr2)%nat.
Proof. unfold calls. rewrite List.filter_app, length_app. reflexivity. Qed.


Lemma segmentCompletions_app tr1 tr2 :
  segmentCompletions (tr1 ++ tr2) = segmentCompletions tr1 ++ segmentCompletions tr2.
Proof.
  induction tr1 as [|e tr1 IH]; simpl; [reflexivity|].
  destruct e; simpl; rewrite IH; reflexivity.
Qed.

(** ** The host *)

Lemma frame_idle depth f w :
  frameRequests w = [] -> frame depth f w = Ok (beginFrame f w).
Proof. unfold frame. intros ->. reflexivity. Qed.

Lemma frame_single depth f w a :
  frameRequests w = [a] ->
  frame depth f w = animate (executeAnimation depth) a (timestamp f) (beginFrame f w).
Proof. unfold frame. intros ->. simpl. destruct (animate _ _ _ _); reflexivity. Qed.

Lemma run_idle depth fs : forall w,
  frameRequests w = [] ->
  exists w', run depth fs w = Ok w' /\ frameRequests w' = [] /\
             trace w' = trace w /\ heap w' = heap w.
Proof.
  induction fs as [|f fs IH]; intros w H; simpl.
  - eauto.
  - rewrite frame_idle by assumption.
    destruct (IH (beginFrame f w) eq_refl) as (w' & -> & ? & ? & ?). eauto.
Qed.

Lemma run_app depth fs1 fs2 w :
  run depth (fs1 ++ fs2) w = andThen (run depth fs1 w) (run depth fs2).
Proof.
  revert w. induction fs1 as [|f fs1 IH]; intros w; simpl; [reflexivity|].
  destruct (frame depth f w); simpl; auto.
Qed.

(** ** Point-to-point moves *)

Section Move.
Variables (depth : nat) (s e : Point) (d t0 : float).

Lemma frame_move f w j :
  frameRequests w = [moveAnimate s e d t0 j] ->
  let p := progress (moveAnimate s e d t0 0) (timestamp f) in
  let step :=
    MoveStep (calculateLinearInterpolation (point_x s) (point_x e) p)
      (calculateLinearInterpolation (point_y s) (point_y e) p) j in
  frame depth f w =
    Ok (if late (moveAnimate s e d t0 0) f
        then call MoveComplete (call step (beginFrame f w))
        else requestAnimationFrame (moveAnimate s e d t0 (S j))
               (call step (beginFrame f w))).
Proof.
  intros H p step. rewrite (frame_single _ _ _ _ H). unfold animate, late. simpl.
  change (progress (moveAnimate s e d t0 j) (timestamp f)) with p.
  subst step. fold p. destruct (p <? 1); reflexivity.
Qed.

Lemma run_snoc fs f w :
  run depth (fs ++ [f]) w = andThen (run depth fs w) (frame depth f).
Proof.
  rewrite run_app. destruct (run depth fs w) as [w'|]; simpl; [|reflexivity].
  destruct (frame depth f w'); reflexivity.
Qed.

Lemma run_move h fs :
  exists w,
    run depth fs
      (moveBetweenPoints (Some s) (Some e) d (callerMoveCallbacks true true)
         (newWorld t0 h)) = Ok w /\
    moving s e d t0 fs w.
Proof.
  induction fs as [|f fs (w & Hrun & Hw)] using rev_ind.
  - eexists. split; [reflexivity|]. apply (moving_on _ _ _ _ _ _ []); auto.
  - rewrite run_snoc, Hrun. simpl.
    destruct Hw as [steps Hfs Hq Htr Hst|steps f' i Hin Hl Hq Htr Hst].
    + rewrite (frame_move _ _ _ Hq).
      destruct (late (moveAnimate s e d t0 0) f) eqn:Hf; eexists; (split; [reflexivity|]).
      * eapply (moving_over _ _ _ _ _ _ steps f (length steps)); simpl; auto.
        -- apply in_or_app. right. left. reflexivity.
        -- rewrite Htr, <- app_assoc. reflexivity.
      * eapply (moving_on _ _ _ _ _ _ (steps ++ [_])); simpl.
        -- apply Forall_app. split; [assumption|]. repeat constructor. assumption.
        -- rewrite length_app. simpl. rewrite Nat.add_1_r. reflexivity.
        -- rewrite Htr. reflexivity.
        -- apply Forall_app. split; [assumption|]. repeat constructor.
    + rewrite (frame_idle _ _ _ Hq). eexists. split; [reflexivity|].
      eapply (moving_over _ _ _ _ _ _ steps f' i); simpl; auto.
      apply in_or_app. left. assumption.
Qed.
End Move.









(** The terminal step need not even be near the end point: a move from
    (-1e308, -1e17) to (1e308, 1) ends at (Infinity, 0). *)
Example moveBetweenPoints_end_point_far :
  exists w,
    run 0 [frameAt 400; frameAt 800; frameAt 1200]
      (moveBetweenPoints (Some {| point_x := -1e308; point_y := -1e17 |})
         (Some {| point_x := 1e308; point_y := 1 |}) 1000
         (callerMoveCallbacks true true) (newWorld 0 ∅)) = Ok w /\
    trace w =
      [MoveStep infinity (-60000000000000000) 0;
       MoveStep infinity (-20000000000000000) 1;
       MoveStep infinity 0 2; MoveComplete].
Proof. eexists. vm_compute. split; reflexivity. Qed.




(** ** Segments *)

Lemma heap_path_step cbs x y j k w : heap (path_step cbs x y j k w) = heap w.
Proof. destruct cbs as [[] ? ?|]; reflexivity. Qed.

Lemma heap_path_segmentComplete cbs k w : heap (path_segmentComplete cbs k w) = heap w.
Proof. destruct cbs as [? [] ?|]; reflexivity. Qed.

Lemma clock_path_step cbs x y j k w : clock (path_step cbs x y j k w) = clock w.
Proof. destruct cbs as [[] ? ?|]; reflexivity. Qed.

Lemma clock_path_segmentComplete cbs k w : clock (path_segmentComplete cbs k w) = clock w.
Proof. destruct cbs as [? [] ?|]; reflexivity. Qed.

Lemma array_heap w l ps : heap w !! l = Some ps -> array w l = ps.
Proof. unfold array. intros ->. reflexivity. Qed.

(** One frame of segment [k] of a walk. *)
Lemma frame_segment depth f w ps l d cbs k j t :
  frameRequests w = [segmentAnimate ps l d cbs k j t] ->
  (S k < length ps)%nat -> heap w !! l = Some ps ->
  exists x y,
    let w1 := path_step cbs x y j k (beginFrame f w) in
    let w2 := path_segmentComplete cbs k w1 in
    frame depth f w =
      if late (segmentAnimate ps l d cbs k 0 t) f then
        if (S (S k) <? length ps)%nat then
          Ok (requestAnimationFrame (segmentAnimate ps l d cbs (S k) 0 (now f)) w2)
        else path_complete (executeAnimation depth) cbs w2
      else Ok (requestAnimationFrame (segmentAnimate ps l d cbs k (S j) t) w1).
Proof.
  intros Hq Hk Hh. rewrite (frame_single _ _ _ _ Hq).
  destruct (lookup_lt_is_Some_2 ps k ltac:(lia)) as [s Hs].
  destruct (lookup_lt_is_Some_2 ps (S k) Hk) as [e He].
  unfold animate, late. simpl. rewrite Hs, He.
  change (progress (segmentAnimate ps l d cbs k j t) (timestamp f))
    with (progress (segmentAnimate ps l d cbs k 0 t) (timestamp f)).
  set (p := progress (segmentAnimate ps l d cbs k 0 t) (timestamp f)).
  exists (calculateLinearInterpolation (point_x s) (point_x e) p),
         (calculateLinearInterpolation (point_y s) (point_y e) p).
  simpl. destruct (p <? 1); simpl; [reflexivity|].
  unfold moveNextSegment. simpl.
  set (w2 := path_segmentComplete cbs k _).
  assert (Hw2 : array w2 l = ps).
  { apply array_heap. subst w2.
    rewrite heap_path_segmentComplete, heap_path_step. exact Hh. }
  assert (Hc : clock w2 = now f).
  { subst w2. rewrite clock_path_segmentComplete, clock_path_step. reflexivity. }
  destruct (Nat.leb_spec (length ps - 1) (S k)) as [H|H];
    destruct (Nat.ltb_spec (S (S k)) (length ps)) as [H'|H']; try lia; [reflexivity|].
  unfold moveBetweenPoints, segmentAnimate. rewrite Hw2, Hc. reflexivity.
Qed.

(** ** Walks *)

Lemma stepsSince_snoc tr e :
  stepsSince (tr ++ [e]) =
  match e with PathStep _ _ _ _ => S (stepsSince tr) | _ => O end.
Proof. unfold stepsSince. rewrite fold_left_app. reflexivity. Qed.

Lemma schedule_snoc d t0 fs f :
  schedule d t0 (fs ++ [f]) = segmentClock d (schedule d t0 fs) f.
Proof. unfold schedule. rewrite fold_left_app. reflexivity. Qed.

Lemma segmentClock_le d st f : (snd st <= snd (segmentClock d st f))%nat.
Proof. unfold segmentClock. destruct (_ <? 1); simpl; lia. Qed.

Lemma segmentClock_late ps l d cbs k j t f n :
  segmentClock d (t, n) f =
  if late (segmentAnimate ps l d cbs k j t) f then (now f, S n) else (t, n).
Proof.
  unfold segmentClock, late, progress. simpl. destruct (_ <? 1); reflexivity.
Qed.

Lemma moveAlongPath_starts exec ps l d cbs w :
  heap w !! l = Some ps -> (2 <= length ps)%nat ->
  moveAlongPath exec (Some l) d cbs w =
    Ok (requestAnimationFrame
          (segmentAnimate ps l (d / number_of_nat (length ps - 1)) cbs 0 0 (clock w)) w).
Proof.
  intros Hh Hn. unfold moveAlongPath. rewrite (array_heap _ _ _ Hh).
  destruct (Nat.ltb_spec (length ps) 2) as [H|_]; [lia|].
  unfold moveNextSegment. simpl.
  destruct (Nat.leb_spec (length ps - 1) 0) as [H|_]; [lia|].
  rewrite (array_heap _ _ _ Hh). reflexivity.
Qed.

Lemma frame_walk depth f ps l d t0 fs w :
  walking ps l d t0 fs w ->
  exists w', frame depth f w = Ok w' /\ walking ps l d t0 (fs ++ [f]) w'.
Proof.
  intros [k j t Hsch Hk Hh Hq Hs Hj Hc Ho|tr Hsch Hn Hq Htr Hs Hc Ho].
  - destruct (frame_segment depth f _ _ _ _ _ _ _ _ Hq Hk Hh) as (x & y & ->).
    pose proof (schedule_snoc d t0 fs f) as Hsch'.
    rewrite Hsch, (segmentClock_late ps l d (callerPathCallbacks true true true) k 0 t)
      in Hsch'.
    simpl.
    assert (Hstep : history (pathOrder (length ps - 1)) (trace w ++ [PathStep x y j k])).
    { apply history_snoc; [exact Ho|]. simpl. repeat split; auto; lia. }
    destruct (late _ f).
    + assert (Hseg : history (pathOrder (length ps - 1))
                       ((trace w ++ [PathStep x y j k]) ++ [SegmentComplete k])).
      { apply history_snoc; [exact Hstep|]. simpl.
        rewrite segmentCompletions_app, Hs, stepsSince_snoc. simpl.
        rewrite app_nil_r. repeat split; lia. }
      assert (Hs' : segmentCompletions
                      ((trace w ++ [PathStep x y j k]) ++ [SegmentComplete k]) = seq 0 (S k)).
      { rewrite !segmentCompletions_app, Hs, seq_S. simpl. rewrite app_nil_r. reflexivity. }
      assert (Hc' : calls isPathComplete
                      ((trace w ++ [PathStep x y j k]) ++ [SegmentComplete k]) = 0%nat).
      { rewrite !calls_app, Hc. reflexivity. }
      destruct (Nat.ltb_spec (S (S k)) (length ps)) as [H|H].
      * eexists. split; [reflexivity|].
        eapply (walking_on _ _ _ _ _ _ (S k) 0 (now f)); simpl; auto.
        rewrite stepsSince_snoc. reflexivity.
      * eexists. split; [reflexivity|].
        assert (Ek : k = (length ps - 2)%nat) by lia.
        eapply (walking_over _ _ _ _ _ _ (trace w ++ [PathStep x y j k])); simpl.
        -- rewrite Hsch'. simpl. lia.
        -- lia.
        -- reflexivity.
        -- rewrite <- !app_assoc, Ek. reflexivity.
        -- rewrite segmentCompletions_app, Hs, Ek. simpl. apply app_nil_r.
        -- rewrite calls_app, Hc. reflexivity.
        -- apply history_snoc; [exact Hseg|]. simpl.
           rewrite Hs', Hc', stepsSince_snoc. repeat split. f_equal. lia.
    + eexists. split; [reflexivity|].
      eapply (walking_on _ _ _ _ _ _ k (S j) t); simpl; auto.
      * rewrite segmentCompletions_app, Hs. simpl. apply app_nil_r.
      * rewrite stepsSince_snoc, Hj. reflexivity.
      * rewrite calls_app, Hc. reflexivity.
  - rewrite (frame_idle _ _ _ Hq). eexists. split; [reflexivity|].
    eapply walking_over; simpl; eauto.
    rewrite schedule_snoc. pose proof (segmentClock_le d (schedule d t0 fs) f). lia.
Qed.

Lemma run_walk depth ps l d t0 h fs :
  h !! l = Some ps -> (2 <= length ps)%nat ->
  exists w,
    andThen
      (moveAlongPath (executeAnimation depth) (Some l) d
         (callerPathCallbacks true true true) (newWorld t0 h))
      (run depth fs) = Ok w /\
    walking ps l (d / number_of_nat (length ps - 1)) t0 fs w.
Proof.
  intros Hh Hn. rewrite (moveAlongPath_starts _ ps) by assumption. simpl.
  induction fs as [|f fs (w & Hrun & Hw)] using rev_ind.
  - eexists. split; [reflexivity|].
    eapply (walking_on _ _ _ _ _ _ 0 0 t0); simpl; auto using history_nil.
  - rewrite run_snoc, Hrun. simpl. apply frame_walk, Hw.
Qed.

Lemma walking_segments ps l d t0 fs w :
  walking ps l d t0 fs w ->
  let k := Nat.min (length ps - 1) (snd (schedule d t0 fs)) in
  segmentCompletions (trace w) = seq 0 k /\
  (frameRequests w = [] <-> (length ps - 1 <= snd (schedule d t0 fs))%nat) /\
  calls isPathComplete (trace w) = (if frameRequests w is [] then 1 else 0)%nat.
Proof.
  intros [k j t Hsch Hk Hh Hq Hs Hj Hc Ho|tr Hsch Hn Hq Htr Hs Hc Ho]; cbv zeta.
  - rewrite Hsch, Hq. simpl. replace (Nat.min (length ps - 1) k) with k by lia.
    repeat split; try assumption; try discriminate. lia.
  - rewrite Hq, Htr. replace (Nat.min _ _) with (S (length ps - 2)) by lia.
    repeat split; auto.
    + rewrite segmentCompletions_app, Hs, seq_S. reflexivity.
    + rewrite calls_app, Hc. reflexivity.
Qed.

(** C2: the segments of a walk complete in order, each once, one at each
    frame at which the progress of the segment in progress is not below 1;
    a segment is stepped only between the completion of the one before and
    its own, and the walk completes once, right after its last segment. *)
Theorem moveAlongPath_segment_order depth ps l d t0 h fs :
  h !! l = Some ps -> (2 <= length ps)%nat ->
  exists w,
    andThen
      (moveAlongPath (executeAnimation depth) (Some l) d
         (callerPathCallbacks true true true) (newWorld t0 h))
      (run depth fs) = Ok w /\
    let n := (length ps - 1)%nat in
    let over := snd (schedule (d / number_of_nat n) t0 fs) in
    segmentCompletions (trace w) = seq 0 (Nat.min n over) /\
    history
      (fun before e =>
         match e with
         | PathStep _ _ _ i => segmentCompletions before = seq 0 i
         | SegmentComplete i => segmentCompletions before = seq 0 i /\ (i < n)%nat
         | PathComplete =>
             segmentCompletions before = seq 0 n /\ calls isPathComplete before = 0%nat
         | _ => False
         end) (trace w) /\
    calls isPathComplete (trace w) = (if frameRequests w is [] then 1 else 0)%nat /\
    (frameRequests w = [] <-> (n <= over)%nat) /\
    (frameRequests w = [] ->
     exists tr, trace w = tr ++ [SegmentComplete (n - 1); PathComplete]).
Proof.
  intros Hh Hn.
  destruct (run_walk depth ps l d t0 h fs Hh Hn) as (w & Hrun & Hw).
  destruct (walking_segments _ _ _ _ _ _ Hw) as (Hs & Hq & Hc).
  exists w. split; [exact Hrun|]. cbv zeta.
  split; [exact Hs|]. split; [|split; [exact Hc|split; [exact Hq|]]].
  - assert (Ho : history (pathOrder (length ps - 1)) (trace w)) by (destruct Hw; assumption).
    intros before e after E. specialize (Ho before e after E).
    destruct e; simpl in *; tauto.
  - intros Hidle.
    destruct Hw as [? ? ? ? ? ? Hq' ? ? ? ?|tr ? ? ? Htr ? ? ?]; [congruence|].
    exists tr. rewrite Htr.
    replace (length ps - 1 - 1)%nat with (length ps - 2)%nat by lia. reflexivity.
Qed.

Lemma moveAlongPath_segment_order_witness :
  exists w,
    andThen
      (moveAlongPath (executeAnimation 0) (Some 0%nat) 1000
         (callerPathCallbacks true true true) (newWorld 0 {[ 0%nat := corner ]}))
      (run 0 [frameAt 300; frameAt 600; frameAt 900; frameAt 1200]) = Ok w /\
    let n := (length corner - 1)%nat in
    let over :=
      snd (schedule (1000 / number_of_nat n) 0
             [frameAt 300; frameAt 600; frameAt 900; frameAt 1200]) in
    segmentCompletions (trace w) = seq 0 (Nat.min n over) /\
    history
      (fun before e =>
         match e with
         | PathStep _ _ _ i => segmentCompletions before = seq 0 i
         | SegmentComplete i => segmentCompletions before = seq 0 i /\ (i < n)%nat
         | PathComplete =>
             segmentCompletions before = seq 0 n /\ calls isPathComplete before = 0%nat
         | _ => False
         end) (trace w) /\
    calls isPathComplete (trace w) = (if frameRequests w is [] then 1 else 0)%nat /\
    (frameRequests w = [] <-> (n <= over)%nat) /\
    (frameRequests w = [] ->
     exists tr, trace w = tr ++ [SegmentComplete (n - 1); PathComplete]).
Proof.
  apply (moveAlongPath_segment_order 0 corner 0%nat 1000 0 {[ 0%nat := corner ]}
           [frameAt 300; frameAt 600; frameAt 900; frameAt 1200]).
  - reflexivity.
  - simpl. lia.
Defined.

(** ** The steps of a walk *)

(** One frame of segment [k] of a walk, with the position it reports. *)
Lemma frame_segment_step depth f w ps l d cbs k j t :
  frameRequests w = [segmentAnimate ps l d cbs k j t] ->
  (S k < length ps)%nat -> heap w !! l = Some ps ->
  exists x y,
    onSegment ps k (Math_min ((timestamp f - t) / d) 1) x y /\
    let w1 := path_step cbs x y j k (beginFrame f w) in
    let w2 := path_segmentComplete cbs k w1 in
    frame depth f w =
      if late (segmentAnimate ps l d cbs k 0 t) f then
        if (S (S k) <? length ps)%nat then
          Ok (requestAnimationFrame (segmentAnimate ps l d cbs (S k) 0 (now f)) w2)
        else path_complete (executeAnimation depth) cbs w2
      else Ok (requestAnimationFrame (segmentAnimate ps l d cbs k (S j) t) w1).
Proof.
  intros Hq Hk Hh. rewrite (frame_single _ _ _ _ Hq).
  destruct (lookup_lt_is_Some_2 ps k ltac:(lia)) as [s Hs].
  destruct (lookup_lt_is_Some_2 ps (S k) Hk) as [e He].
  unfold animate, late. simpl. rewrite Hs, He.
  change (progress (segmentAnimate ps l d cbs k j t) (timestamp f))
    with (progress (segmentAnimate ps l d cbs k 0 t) (timestamp f)).
  set (p := progress (segmentAnimate ps l d cbs k 0 t) (timestamp f)).
  exists (calculateLinearInterpolation (point_x s) (point_x e) p),
         (calculateLinearInterpolation (point_y s) (point_y e) p).
  split; [exists s, e; auto|].
  simpl. destruct (p <? 1); simpl; [reflexivity|].
  unfold moveNextSegment. simpl.
  set (w2 := path_segmentComplete cbs k _).
  assert (Hw2 : array w2 l = ps).
  { apply array_heap. subst w2.
    rewrite heap_path_segmentComplete, heap_path_step. exact Hh. }
  assert (Hc : clock w2 = now f).
  { subst w2. rewrite clock_path_segmentComplete, clock_path_step. reflexivity. }
  destruct (Nat.leb_spec (length ps - 1) (S k)) as [H|H];
    destruct (Nat.ltb_spec (S (S k)) (length ps)) as [H'|H']; try lia; [reflexivity|].
  unfold moveBetweenPoints, segmentAnimate. rewrite Hw2, Hc. reflexivity.
Qed.

Lemma filter_isPathStep_path_step gc cc x y j k w :
  List.filter isPathStep (trace (path_step (callerPathCallbacks true gc cc) x y j k w))
  = List.filter isPathStep (trace w) ++ [PathStep x y j k].
Proof. simpl. rewrite List.filter_app. reflexivity. Qed.

Lemma filter_isPathStep_segmentComplete cbs k w :
  List.filter isPathStep (trace (path_segmentComplete cbs k w))
  = List.filter isPathStep (trace w).
Proof.
  destruct cbs as [? [] ?|]; simpl; try reflexivity.
  rewrite List.filter_app. simpl. apply app_nil_r.
Qed.

Lemma frameRequests_path_step cbs x y j k w :
  frameRequests (path_step cbs x y j k w) = frameRequests w.
Proof. destruct cbs as [[] ? ?|]; reflexivity. Qed.

Lemma frameRequests_path_segmentComplete cbs k w :
  frameRequests (path_segmentComplete cbs k w) = frameRequests w.
Proof. destruct cbs as [? [] ?|]; reflexivity. Qed.

(** The steps of a walk from segment [k] on. *)
Lemma run_walk_steps depth ps l d gc cc fs : forall k j t w,
  frameRequests w = [segmentAnimate ps l d (callerPathCallbacks true gc cc) k j t] ->
  (S k < length ps)%nat -> heap w !! l = Some ps ->
  exists w',
    run depth fs w = Ok w' /\
    List.filter isPathStep (trace w')
    = List.filter isPathStep (trace w) ++ walkSteps ps d t k j fs /\
    (frameRequests w' <> [] -> length (walkSteps ps d t k j fs) = length fs).
Proof.
  induction fs as [|f fs IH]; intros k j t w Hq Hk Hh.
  - exists w. simpl. rewrite app_nil_r. auto.
  - cbn [run].
    destruct (frame_segment_step depth f _ _ _ _ _ _ _ _ Hq Hk Hh)
      as (x & y & (s & e & Hs & He & -> & ->) & Hf).
    cbv zeta in Hf. rewrite Hf. clear Hf.
    cbn [walkSteps]. rewrite Hs, He. cbv zeta.
    unfold late, progress. cbn [segmentAnimate startTime duration].
    set (p := Math_min ((timestamp f - t) / d) 1).
    set (x := calculateLinearInterpolation (point_x s) (point_x e) p).
    set (y := calculateLinearInterpolation (point_y s) (point_y e) p).
    set (w1 := path_step (callerPathCallbacks true gc cc) x y j k (beginFrame f w)).
    set (w2 := path_segmentComplete (callerPathCallbacks true gc cc) k w1).
    assert (Hq1 : frameRequests w1 = []) by (unfold w1; apply frameRequests_path_step).
    assert (Hq2 : frameRequests w2 = []).
    { unfold w2. rewrite frameRequests_path_segmentComplete. exact Hq1. }
    assert (Hh1 : heap w1 !! l = Some ps) by (unfold w1; rewrite heap_path_step; exact Hh).
    assert (Hh2 : heap w2 !! l = Some ps).
    { unfold w2. rewrite heap_path_segmentComplete. exact Hh1. }
    assert (Ht1 : List.filter isPathStep (trace w1)
                  = List.filter isPathStep (trace w) ++ [PathStep x y j k]).
    { exact (filter_isPathStep_path_step gc cc x y j k (beginFrame f w)). }
    assert (Ht2 : List.filter isPathStep (trace w2)
                  = List.filter isPathStep (trace w) ++ [PathStep x y j k]).
    { unfold w2. rewrite filter_isPathStep_segmentComplete. exact Ht1. }
    destruct (p <? 1); cbn [negb].
    + destruct (IH k (S j) t
                  (requestAnimationFrame
                     (segmentAnimate ps l d (callerPathCallbacks true gc cc) k (S j) t) w1))
        as (w' & Hrun & Htr & Hlen); [cbn [frameRequests requestAnimationFrame]; rewrite Hq1; reflexivity|exact Hk|exact Hh1|].
      exists w'. split; [exact Hrun|]. split.
      * rewrite Htr. cbn [trace requestAnimationFrame]. rewrite Ht1, <- app_assoc.
        reflexivity.
      * intros H. cbn [length]. rewrite (Hlen H). reflexivity.
    + destruct (Nat.ltb_spec (S (S k)) (length ps)) as [Hlt|Hge].
      * destruct (IH (S k) 0%nat (now f)
                    (requestAnimationFrame
                       (segmentAnimate ps l d (callerPathCallbacks true gc cc) (S k) 0
                          (now f)) w2))
          as (w' & Hrun & Htr & Hlen); [cbn [frameRequests requestAnimationFrame]; rewrite Hq2; reflexivity|exact Hlt|exact Hh2|].
        exists w'. split; [exact Hrun|]. split.
        -- rewrite Htr. cbn [trace requestAnimationFrame]. rewrite Ht2, <- app_assoc.
           reflexivity.
        -- intros H. cbn [length]. rewrite (Hlen H). reflexivity.
      * assert (Hend : walkSteps ps d (now f) (S k) 0 fs = []).
        { destruct fs as [|f' fs']; [reflexivity|]. cbn [walkSteps].
          rewrite (lookup_ge_None_2 ps (S (S k))) by lia.
          destruct (ps !! S k); reflexivity. }
        rewrite Hend. cbn [path_complete].
        set (w3 := if cc then call PathComplete w2 else w2).
        assert (Hq3 : frameRequests w3 = []) by (unfold w3; destruct cc; exact Hq2).
        assert (Ht3 : List.filter isPathStep (trace w3)
                      = List.filter isPathStep (trace w) ++ [PathStep x y j k]).
        { unfold w3. destruct cc; [|exact Ht2]. cbn [trace call].
          rewrite List.filter_app, Ht2. simpl. apply app_nil_r. }
        destruct (run_idle depth fs w3 Hq3) as (w' & Hrun & Hq' & Htr & _).
        exists w'. split; [exact Hrun|]. split.
        -- rewrite Htr, Ht3. reflexivity.
        -- intros H. contradiction.
Qed.

Lemma stepNumbers_filter tr : stepNumbers (List.filter isPathStep tr) = stepNumbers tr.
Proof.
  induction tr as [|e tr IH]; [reflexivity|]. destruct e; simpl; rewrite ?IH; reflexivity.
Qed.

Lemma stepNumbers_length tr :
  Forall (fun e => isPathStep e = true) tr -> length (stepNumbers tr) = length tr.
Proof.
  induction 1 as [|e tr He _ IH]; [reflexivity|].
  destruct e; try discriminate. simpl. rewrite IH. reflexivity.
Qed.

Lemma walkSteps_isPathStep ps d fs : forall t i j,
  Forall (fun e => isPathStep e = true) (walkSteps ps d t i j fs).
Proof.
  induction fs as [|f fs IH]; intros t i j; [constructor|]. cbn [walkSteps].
  destruct (ps !! i); [|constructor]. destruct (ps !! S i); [|constructor].
  cbv zeta. constructor; [reflexivity|]. destruct (_ <? 1); apply IH.
Qed.

(** The first step of what is left of a walk is step [j] of segment [i]. *)
Lemma walkSteps_first ps d t i j fs :
  match stepNumbers (walkSteps ps d t i j fs) with
  | [] => True
  | first :: _ => first = (j, i)
  end.
Proof.
  destruct fs as [|f fs]; [exact I|]. cbn [walkSteps].
  destruct (ps !! i); [|exact I]. destruct (ps !! S i); [|exact I]. reflexivity.
Qed.

(** A step is followed by the next step of its segment or by step 0 of
    the next segment. *)
Lemma walkSteps_next ps d fs : forall t i j before a b a' b' after,
  stepNumbers (walkSteps ps d t i j fs) = before ++ (a, b) :: (a', b') :: after ->
  (a' = S a /\ b' = b) \/ (a' = 0%nat /\ b' = S b).
Proof.
  induction fs as [|f fs IH]; intros t i j before a b a' b' after E.
  - destruct before; discriminate.
  - cbn [walkSteps] in E.
    destruct (ps !! i); [|destruct before; discriminate].
    destruct (ps !! S i); [|destruct before; discriminate].
    cbv zeta in E. cbn [stepNumbers] in E.
    destruct before as [|b0 before].
    + injection E as <- <- E. destruct (_ <? 1).
      * pose proof (walkSteps_first ps d t i (S j) fs) as H. rewrite E in H.
        injection H as -> ->. auto.
      * pose proof (walkSteps_first ps d (now f) (S i) 0 fs) as H. rewrite E in H.
        injection H as -> ->. auto.
    + injection E as _ E. destruct (_ <? 1); exact (IH _ _ _ _ _ _ _ _ _ E).
Qed.

(** Every step of a walk is on its segment, at the progress of one of
    the frames. *)
Lemma walkSteps_onPath ps d all fs : forall t i j,
  incl fs all -> Forall (stepOnPath ps d all) (walkSteps ps d t i j fs).
Proof.
  induction fs as [|f fs IH]; intros t i j Hin; [constructor|]. cbn [walkSteps].
  destruct (ps !! i) as [s|] eqn:Hs; [|constructor].
  destruct (ps !! S i) as [e|] eqn:He; [|constructor].
  cbv zeta. constructor.
  - exists f, t. split; [apply Hin; left; reflexivity|]. exists s, e. auto.
  - destruct (_ <? 1); apply IH; intros f' Hf'; apply Hin; right; exact Hf'.
Qed.

(** The steps of a walk from its start. *)
Lemma moveAlongPath_steps depth ps l d gc cc t0 h fs :
  h !! l = Some ps -> (2 <= length ps)%nat ->
  exists w,
    andThen
      (moveAlongPath (executeAnimation depth) (Some l) d
         (callerPathCallbacks true gc cc) (newWorld t0 h))
      (run depth fs) = Ok w /\
    List.filter isPathStep (trace w)
    = walkSteps ps (d / number_of_nat (length ps - 1)) t0 0 0 fs /\
    (frameRequests w <> [] ->
     length (walkSteps ps (d / number_of_nat (length ps - 1)) t0 0 0 fs) = length fs).
Proof.
  intros Hh Hn. rewrite (moveAlongPath_starts _ ps) by assumption. cbn [andThen].
  destruct (run_walk_steps depth ps l (d / number_of_nat (length ps - 1)) gc cc fs 0 0 t0
              (requestAnimationFrame
                 (segmentAnimate ps l (d / number_of_nat (length ps - 1))
                    (callerPathCallbacks true gc cc) 0 0 (clock (newWorld t0 h)))
                 (newWorld t0 h)))
    as (w & Hrun & Htr & Hlen); [reflexivity|lia|exact Hh|].
  exists w. split; [exact Hrun|]. split; [exact Htr|exact Hlen].
Qed.

(** C8: the steps of a walk are those of its segments in turn, one a
    frame while the walk goes on: the first is step 0 of segment 0, a
    step is followed by the step with the next index of the same segment
    or by step 0 of the next segment, whatever other callbacks are
    given. *)
Theorem moveAlongPath_step_index depth ps l d segmentCompleteCallback completeCallback
    t0 h fs :
  h !! l = Some ps -> (2 <= length ps)%nat ->
  exists w,
    andThen
      (moveAlongPath (executeAnimation depth) (Some l) d
         (callerPathCallbacks true segmentCompleteCallback completeCallback)
         (newWorld t0 h))
      (run depth fs) = Ok w /\
    stepNumbers (trace w)
    = stepNumbers (walkSteps ps (d / number_of_nat (length ps - 1)) t0 0 0 fs) /\
    (fs <> [] -> exists rest, stepNumbers (trace w) = (0, 0)%nat :: rest) /\
    (forall before j i j' i' after,
       stepNumbers (trace w) = before ++ (j, i) :: (j', i') :: after ->
       (j' = S j /\ i' = i) \/ (j' = 0%nat /\ i' = S i)) /\
    (frameRequests w <> [] -> length (stepNumbers (trace w)) = length fs).
Proof.
  intros Hh Hn.
  destruct (moveAlongPath_steps depth ps l d segmentCompleteCallback completeCallback
              t0 h fs Hh Hn) as (w & Hrun & Htr & Hlen).
  exists w. split; [exact Hrun|].
  assert (E : stepNumbers (trace w)
              = stepNumbers (walkSteps ps (d / number_of_nat (length ps - 1)) t0 0 0 fs)).
  { rewrite <- Htr. symmetry. apply stepNumbers_filter. }
  split; [exact E|]. rewrite E. split; [|split].
  - intros Hfs. destruct fs as [|f fs]; [contradiction|]. cbn [walkSteps].
    destruct (lookup_lt_is_Some_2 ps 0 ltac:(lia)) as [s ->].
    destruct (lookup_lt_is_Some_2 ps 1 ltac:(lia)) as [e ->].
    cbv zeta. cbn [stepNumbers]. eauto.
  - intros before j i j' i' after. apply walkSteps_next.
  - intros H. rewrite stepNumbers_length by apply walkSteps_isPathStep. apply Hlen, H.
Qed.

Lemma moveAlongPath_step_index_witness :
  exists w,
    andThen
      (moveAlongPath (executeAnimation 0) (Some 0%nat) 1000
         (callerPathCallbacks true false false) (newWorld 0 {[ 0%nat := corner ]}))
      (run 0 [frameAt 300; frameAt 600; frameAt 900; frameAt 1200]) = Ok w /\
    stepNumbers (trace w)
    = stepNumbers
        (walkSteps corner (1000 / number_of_nat (length corner - 1)) 0 0 0
           [frameAt 300; frameAt 600; frameAt 900; frameAt 1200]) /\
    ([frameAt 300; frameAt 600; frameAt 900; frameAt 1200] <> [] ->
     exists rest, stepNumbers (trace w) = (0, 0)%nat :: rest) /\
    (forall before j i j' i' after,
       stepNumbers (trace w) = before ++ (j, i) :: (j', i') :: after ->
       (j' = S j /\ i' = i) \/ (j' = 0%nat /\ i' = S i)) /\
    (frameRequests w <> [] ->
     length (stepNumbers (trace w))
     = length [frameAt 300; frameAt 600; frameAt 900; frameAt 1200]).
Proof.
  apply (moveAlongPath_step_index 0 corner 0%nat 1000 false false 0 {[ 0%nat := corner ]}
           [frameAt 300; frameAt 600; frameAt 900; frameAt 1200]).
  - reflexivity.
  - simpl. lia.
Defined.

(** The steps of a walk over the corner (0,0), (100,0), (100,100) in
    1000 ms, at frames 300 ms apart: two steps a segment. *)
Example moveAlongPath_corner_steps :
  exists w,
    andThen
      (moveAlongPath (executeAnimation 0) (Some 0%nat) 1000
         (callerPathCallbacks true true true) (newWorld 0 {[ 0%nat := corner ]}))
      (run 0 [frameAt 300; frameAt 600; frameAt 900; frameAt 1200]) = Ok w /\
    List.filter isPathStep (trace w) =
      [PathStep 60 0 0 0; PathStep 100 0 1 0; PathStep 100 60 0 1; PathStep 100 100 1 1] /\
    stepNumbers (trace w) = [(0, 0); (1, 0); (0, 1); (1, 1)]%nat.
Proof. eexists. vm_compute. repeat split. Qed.

(** C6: a walk over no array or over fewer than two points calls the
    completion callback before [moveAlongPath] returns, and nothing else,
    then or later. *)
Theorem moveAlongPath_degenerate depth points d stepCallback segmentCompleteCallback t0 h fs :
  match points with
  | None => True
  | Some l => (length (default [] (h !! l)) < 2)%nat
  end ->
  exists w,
    moveAlongPath (executeAnimation depth) points d
      (callerPathCallbacks stepCallback segmentCompleteCallback true) (newWorld t0 h) = Ok w /\
    trace w = [PathComplete] /\ frameRequests w = [] /\
    exists w', run depth fs w = Ok w' /\ trace w' = [PathComplete] /\ frameRequests w' = [].
Proof.
  intros H.
  assert (E : moveAlongPath (executeAnimation depth) points d
                (callerPathCallbacks stepCallback segmentCompleteCallback true)
                (newWorld t0 h) = Ok (call PathComplete (newWorld t0 h))).
  { destruct points as [l|]; [|reflexivity]. unfold moveAlongPath, array. simpl.
    destruct (Nat.ltb_spec (length (default [] (h !! l))) 2); [reflexivity|lia]. }
  rewrite E. eexists. split; [reflexivity|]. split; [reflexivity|]. split; [reflexivity|].
  destruct (run_idle depth fs (call PathComplete (newWorld t0 h)) eq_refl)
    as (w' & Hrun & Hq & Htr & _).
  exists w'. auto.
Qed.

Lemma moveAlongPath_degenerate_witness :
  exists w,
    moveAlongPath (executeAnimation 0) (Some 0%nat) 1000
      (callerPathCallbacks true true true)
      (newWorld 0 {[ 0%nat := [ {| point_x := 5; point_y := 5 |} ] ]}) = Ok w /\
    trace w = [PathComplete] /\ frameRequests w = [] /\
    exists w', run 0 [frameAt 16; frameAt 32] w = Ok w' /\ trace w' = [PathComplete] /\
               frameRequests w' = [].
Proof.
  apply (moveAlongPath_degenerate 0 (Some 0%nat) 1000 true true 0
           {[ 0%nat := [ {| point_x := 5; point_y := 5 |} ] ]} [frameAt 16; frameAt 32]).
  vm_compute. lia.
Defined.

(** ** Following a path *)

Lemma length_workingPoints yoyo ps n : length (workingPoints yoyo ps n) = length ps.
Proof.
  unfold workingPoints. destruct yoyo; [|reflexivity].
  induction n as [|n IH]; simpl; [reflexivity|]. rewrite length_rev. exact IH.
Qed.

Lemma executeAnimation_starts depth env ps w :
  heap w !! pathPoints env = Some ps -> (2 <= length ps)%nat ->
  executeAnimation (S depth) env w =
    Ok (requestAnimationFrame
          (segmentAnimate ps (pathPoints env)
             (fp_duration env / number_of_nat (length ps - 1))
             (followPathCallbacks env) 0 0 (clock w)) w).
Proof.
  intros Hh Hn.
  change (executeAnimation (S depth) env w)
    with (moveAlongPath (executeAnimation depth) (Some (pathPoints env)) (fp_duration env)
            (followPathCallbacks env) w).
  apply moveAlongPath_starts; assumption.
Qed.

Lemma array_store l ps w : array (store l ps w) l = ps.
Proof. unfold array, store. simpl. rewrite lookup_insert_eq. reflexivity. Qed.

Section Follow.
Variables (depth : nat) (ps : list Point) (l c : loc) (d : float).
Variables (cc lp yy : bool) (direction : string).

Let working := workingPoints yy (firstPoints direction ps).
Let pending := followAnimate ps c d cc lp yy direction.

Lemma length_firstPoints : length (firstPoints direction ps) = length ps.
Proof. unfold firstPoints. destruct (String.eqb _ _); [reflexivity|apply length_rev]. Qed.

Lemma length_working n : length (working n) = length ps.
Proof. subst working. simpl. rewrite length_workingPoints. apply length_firstPoints. Qed.

(** One frame of segment [k] of traversal [n]. *)
Lemma frame_following f w n k j t :
  (S k < length ps)%nat -> c <> l ->
  heap w !! l = Some ps -> heap w !! c = Some (working n) ->
  frameRequests w = [pending n k j t] ->
  exists x y w',
    frame (S depth) f w = Ok w' /\ heap w' !! l = Some ps /\
    let ev := Update x y j k n (directionAt yy direction n) in
    if late (pending n k 0 t) f then
      if (S (S k) <? length ps)%nat then
        trace w' = trace w ++ [ev] /\ frameRequests w' = [pending n (S k) 0 (now f)] /\
        heap w' !! c = Some (working n)
      else if lp then
        trace w' = trace w ++ [ev] /\ frameRequests w' = [pending (S n) 0 0 (now f)] /\
        heap w' !! c = Some (working (S n))
      else
        trace w' = trace w ++ ev :: (if cc then [FollowComplete (S n)] else []) /\
        frameRequests w' = []
    else
      trace w' = trace w ++ [ev] /\ frameRequests w' = [pending n k (S j) t] /\
      heap w' !! c = Some (working n).
Proof.
  intros Hk Hne Hh Hc Hq.
  assert (Hk' : (S k < length (working n))%nat) by (rewrite length_working; exact Hk).
  destruct (frame_segment (S depth) f _ _ _ _ _ _ _ _ Hq Hk' Hc) as (x & y & ->).
  exists x, y.
  cbn [path_step path_segmentComplete followEnv loopCount currentDirection].
  set (ev := Update x y j k n (directionAt yy direction n)).
  change (late (segmentAnimate _ _ _ _ k 0 t) f) with (late (pending n k 0 t) f).
  destruct (late _ f);
    [|eexists; split; [reflexivity|]; split; [exact Hh|]; repeat split; exact Hc].
  rewrite length_working.
  destruct (Nat.ltb_spec (S (S k)) (length ps)) as [H|H];
    [eexists; split; [reflexivity|]; split; [exact Hh|]; repeat split; exact Hc|].
  unfold path_complete, followPath_complete.
  cbn [followEnv loop yoyo fp_completeCallback loopCount pathPoints
       currentDirection fp_duration].
  destruct lp;
    [|eexists; split; [reflexivity|]; destruct cc; (split; [exact Hh|]);
      (split; [|reflexivity]); cbn [trace call beginFrame];
      rewrite <- ?app_assoc; reflexivity].
  set (w2 := call ev (beginFrame f w)).
  assert (Hnext : exists w3,
            (if yy then reverse c w2 else w2) = w3 /\
            heap w3 !! c = Some (working (S n)) /\
            heap w3 !! l = Some ps /\ clock w3 = now f /\
            trace w3 = trace w ++ [ev] /\ frameRequests w3 = []).
  { subst working. destruct yy.
    - eexists. split; [reflexivity|]. unfold reverse, store. simpl.
      rewrite lookup_insert_eq, lookup_insert_ne by exact Hne.
      unfold array. simpl. rewrite Hc. simpl. auto.
    - eexists. split; [reflexivity|]. simpl. auto. }
  destruct Hnext as (w3 & E3 & Hc3 & Hh3 & Hclock & Htr3 & Hq3).
  assert (E : (if yy
               then executeAnimation (S depth)
                      {| fp_duration := d; fp_completeCallback := cc;
                         loop := true; yoyo := yy; loopCount := S n;
                         pathPoints := c;
                         currentDirection := flipDirection (directionAt yy direction n) |}
                      (reverse c w2)
               else executeAnimation (S depth)
                      {| fp_duration := d; fp_completeCallback := cc;
                         loop := true; yoyo := yy; loopCount := S n;
                         pathPoints := c;
                         currentDirection := directionAt yy direction n |}
                      w2)
              = executeAnimation (S depth)
                  (followEnv d cc true yy c direction (S n)) w3).
  { rewrite <- E3. destruct yy; reflexivity. }
  rewrite E.
  rewrite (executeAnimation_starts depth _ (working (S n)));
    [|exact Hc3|rewrite length_working; lia].
  eexists. split; [reflexivity|]. split; [exact Hh3|]. split; [exact Htr3|].
  split; [|exact Hc3]. cbn [frameRequests requestAnimationFrame].
  rewrite length_working, Hclock, Hq3. reflexivity.
Qed.

Lemma frame_follow t0 fs f w :
  following ps l c d cc lp yy direction t0 fs w ->
  exists w', frame (S depth) f w = Ok w' /\
             following ps l c d cc lp yy direction t0 (fs ++ [f]) w'.
Proof.
  intros [n k j t Hsch Hk Hh Hne Hc Hq Hl Hf Hfc Ho|tr x y j Hsch Hl Hh Hq Htr Hfc Ho].
  - destruct (frame_following f w n k j t Hk Hne Hh Hc Hq) as (x & y & w' & -> & Hh' & H).
    exists w'. split; [reflexivity|]. cbv zeta in H.
    pose proof (schedule_snoc (d / number_of_nat (length ps - 1)) t0 fs f) as Hsch'.
    rewrite Hsch in Hsch'. unfold pending, followAnimate in H.
    rewrite (segmentClock_late (working n) c _
               (followPathCallbacks (followEnv d cc lp yy c direction n)) k 0 t) in Hsch'.
    set (ev := Update x y j k n (directionAt yy direction n)) in *.
    assert (Hstep : history (followOrder (length ps - 1) lp yy direction) (trace w ++ [ev])).
    { apply history_snoc; [exact Ho|]. simpl. repeat split; auto. lia. }
    assert (Hfc' : calls isFollowComplete (trace w ++ [ev]) = 0%nat).
    { rewrite calls_app, Hfc. reflexivity. }
    destruct (late _ f).
    + destruct (Nat.ltb_spec (S (S k)) (length ps)) as [H'|H'].
      * destruct H as (Htr & Hq' & Hc').
        eapply (following_on _ _ _ _ _ _ _ _ _ _ _ n (S k) 0 (now f)); auto.
        all: try (rewrite Htr; auto).
        -- rewrite Hsch'. f_equal. lia.
        -- rewrite last_snoc. simpl. auto.
      * assert (Ek : S k = (length ps - 1)%nat) by lia.
        destruct lp eqn:Elp.
        -- destruct H as (Htr & Hq' & Hc').
           eapply (following_on _ _ _ _ _ _ _ _ _ _ _ (S n) 0 0 (now f)); auto.
           ++ rewrite Hsch'. f_equal. lia.
           ++ lia.
           ++ discriminate.
           ++ rewrite Htr, last_snoc. simpl. right. right. auto.
           ++ rewrite Htr. exact Hfc'.
           ++ rewrite Htr. exact Hstep.
        -- destruct H as (Htr & Hq').
           assert (n = 0%nat) as -> by auto.
           assert (Ed : directionAt yy direction 0 = direction) by (destruct yy; reflexivity).
           eapply (following_over _ _ _ _ _ _ _ _ _ _ _ (trace w) x y j); auto.
           ++ rewrite Hsch'. simpl. lia.
           ++ rewrite Htr. subst ev. rewrite Ed. replace (length ps - 2)%nat with k by lia.
              reflexivity.
           ++ rewrite Htr. destruct cc.
              ** change (trace w ++ [ev; FollowComplete 1])
                   with (trace w ++ [ev] ++ [FollowComplete 1]).
                 rewrite app_assoc. apply history_snoc; [exact Hstep|]. simpl.
                 rewrite last_snoc, Hfc'. simpl. auto.
              ** exact Hstep.
    + destruct H as (Htr & Hq' & Hc').
      eapply (following_on _ _ _ _ _ _ _ _ _ _ _ n k (S j) t); auto.
      all: rewrite Htr; auto.
      rewrite last_snoc. simpl. auto.
  - rewrite (frame_idle _ _ _ Hq). eexists. split; [reflexivity|].
    eapply following_over; simpl; eauto.
    rewrite schedule_snoc.
    pose proof (segmentClock_le (d / number_of_nat (length ps - 1))
                  (schedule (d / number_of_nat (length ps - 1)) t0 fs) f). lia.
Qed.
End Follow.

Lemma fresh_loc (h : gmap loc (list Point)) l ps : h !! l = Some ps -> fresh (dom h) <> l.
Proof.
  intros H E. apply (is_fresh (dom h)). rewrite E. apply elem_of_dom. eauto.
Qed.

Lemma followPath_starts depth ps l direction duration cc lp yy t0 h :
  h !! l = Some ps -> (2 <= length ps)%nat ->
  exists w,
    followPath (S depth) (Some (newPath l)) true direction duration cc lp yy
      (newWorld t0 h) = Ok w /\
    following ps l (fresh (dom h)) (default 1000 duration) cc (default false lp)
      (default false yy) (default "forward" direction) t0 [] w.
Proof.
  intros Hh Hn. pose proof (fresh_loc h l ps Hh) as Hne.
  unfold followPath. cbn [path_points newPath].
  assert (Ha : array (newWorld t0 h) l = ps) by (apply array_heap; exact Hh).
  rewrite Ha. destruct (Nat.ltb_spec (length ps) 2) as [H|_]; [lia|].
  cbn [negb alloc newWorld heap].
  set (c := fresh (dom h)) in *.
  set (dir := default "forward" direction).
  set (first := if String.eqb dir "forward" then ps else rev ps).
  set (w1 := if String.eqb dir "forward" then store c ps (newWorld t0 h)
             else reverse c (store c ps (newWorld t0 h))).
  assert (H1 : heap w1 !! c = Some first /\ heap w1 !! l = Some ps /\ clock w1 = t0 /\
               trace w1 = [] /\ frameRequests w1 = []).
  { subst w1 first. destruct (String.eqb dir "forward"); unfold reverse, store, array; simpl.
    - rewrite lookup_insert_eq, lookup_insert_ne by exact Hne. auto.
    - rewrite !lookup_insert_eq, !lookup_insert_ne by exact Hne. auto. }
  destruct H1 as (Hc & Hl & Hclock & Htr & Hq).
  rewrite (executeAnimation_starts depth _ first); [|exact Hc|].
  2:{ subst first. destruct (String.eqb _ _); [|rewrite length_rev]; exact Hn. }
  eexists. split; [reflexivity|].
  assert (Ew : workingPoints (default false yy) (firstPoints dir ps) 0 = first).
  { destruct (default false yy); reflexivity. }
  assert (El : length first = length ps).
  { subst first. destruct (String.eqb _ _); [|rewrite length_rev]; reflexivity. }
  eapply (following_on _ _ _ _ _ _ _ _ _ _ _ 0 0 0 t0); simpl; auto.
  - fold dir. rewrite Ew. exact Hc.
  - rewrite Hq, Hclock. unfold followAnimate. fold dir. rewrite Ew, El. simpl.
    unfold followEnv, directionAt. destruct (default false yy); reflexivity.
  - rewrite Htr. simpl. auto.
  - rewrite Htr. reflexivity.
  - rewrite Htr. apply history_nil.
Qed.

Lemma run_follow depth ps l direction duration cc lp yy t0 h fs :
  h !! l = Some ps -> (2 <= length ps)%nat ->
  exists w,
    andThen
      (followPath (S depth) (Some (newPath l)) true direction duration cc lp yy
         (newWorld t0 h))
      (run (S depth) fs) = Ok w /\
    following ps l (fresh (dom h)) (default 1000 duration) cc (default false lp)
      (default false yy) (default "forward" direction) t0 fs w.
Proof.
  intros Hh Hn.
  destruct (followPath_starts depth ps l direction duration cc lp yy t0 h Hh Hn)
    as (w0 & -> & H0).
  simpl. induction fs as [|f fs (w & Hrun & Hw)] using rev_ind.
  - eauto.
  - rewrite run_snoc, Hrun. simpl. apply frame_follow, Hw.
Qed.

Lemma rev_lookup_0 {A} (xs : list A) : rev xs !! 0%nat = xs !! (length xs - 1)%nat.
Proof.
  destruct xs as [|x xs]; [reflexivity|].
  rewrite rev_alt. apply (reverse_lookup (x :: xs) 0). simpl. lia.
Qed.

(** C3: without [loop] every update reports loop count 0; the run is over
    when the last segment is, and then the completion callback, if any, has
    been called once, with 1, right after the last update. *)
Theorem followPath_single_traversal depth ps l direction duration cc lp yy t0 h fs :
  h !! l = Some ps -> (2 <= length ps)%nat -> default false lp = false ->
  exists w,
    andThen
      (followPath (S depth) (Some (newPath l)) true direction duration cc lp yy
         (newWorld t0 h))
      (run (S depth) fs) = Ok w /\
    (forall x y j i n dir, In (Update x y j i n dir) (trace w) -> n = 0%nat) /\
    (forall n, In (FollowComplete n) (trace w) -> n = 1%nat) /\
    calls isFollowComplete (trace w) =
      (if frameRequests w is [] then if cc then 1 else 0 else 0)%nat /\
    (frameRequests w = [] <->
     (length ps - 1 <=
      snd (schedule (default 1000 duration / number_of_nat (length ps - 1))%float t0 fs))%nat) /\
    (frameRequests w = [] ->
     exists tr x y j,
       trace w =
         tr ++ Update x y j (length ps - 2) 0 (default "forward" direction) ::
         (if cc then [FollowComplete 1] else []) /\
       calls isFollowComplete tr = 0%nat).
Proof.
  intros Hh Hn Hlp.
  destruct (run_follow depth ps l direction duration cc lp yy t0 h fs Hh Hn)
    as (w & Hrun & Hw).
  exists w. split; [exact Hrun|]. rewrite Hlp in Hw.
  assert (Ho : history (followOrder (length ps - 1) false (default false yy)
                          (default "forward" direction)) (trace w))
    by (destruct Hw; assumption).
  split; [|split; [|split; [|split]]].
  - intros x y j i n dir Hin. apply in_split in Hin as (before & after & E).
    specialize (Ho _ _ _ E). simpl in Ho. tauto.
  - intros n Hin. apply in_split in Hin as (before & after & E).
    specialize (Ho _ _ _ E). simpl in Ho. tauto.
  - destruct Hw as [n k j t _ _ _ _ _ -> _ _ Hfc _|tr x y j _ _ _ -> -> Hfc _]; [exact Hfc|].
    rewrite calls_app, Hfc. destruct cc; reflexivity.
  - destruct Hw as [n k j t Hsch Hk _ _ _ Hq Hn0 _ _ _|tr x y j Hsch _ _ Hq _ _ _].
    + rewrite Hq, Hsch, Hn0 by reflexivity. simpl. split; [discriminate|lia].
    + tauto.
  - intros Hq. destruct Hw as [n k j t _ _ _ _ _ Hq' _ _ _ _|tr x y j _ _ _ _ Htr Hfc _];
      [congruence|eauto 6].
Qed.

Lemma followPath_single_traversal_witness :
  exists w,
    andThen
      (followPath 1 (Some (newPath 0%nat)) true (Some "forward") (Some 1000) true None None
         (newWorld 0 {[ 0%nat := corner ]}))
      (run 1 [frameAt 300; frameAt 600; frameAt 900; frameAt 1200]) = Ok w /\
    (forall x y j i n dir, In (Update x y j i n dir) (trace w) -> n = 0%nat) /\
    (forall n, In (FollowComplete n) (trace w) -> n = 1%nat) /\
    calls isFollowComplete (trace w) =
      (if frameRequests w is [] then if true then 1 else 0 else 0)%nat /\
    (frameRequests w = [] <->
     (length corner - 1 <=
      snd (schedule (default 1000 (Some 1000) / number_of_nat (length corner - 1))%float
             0%float [frameAt 300; frameAt 600; frameAt 900; frameAt 1200]))%nat) /\
    (frameRequests w = [] ->
     exists tr x y j,
       trace w =
         tr ++ Update x y j (length corner - 2) 0 (default "forward" (Some "forward")) ::
         (if true then [FollowComplete 1] else []) /\
       calls isFollowComplete tr = 0%nat).
Proof.
  apply (followPath_single_traversal 0 corner 0%nat (Some "forward") (Some 1000) true None
           None 0 {[ 0%nat := corner ]} [frameAt 300; frameAt 600; frameAt 900; frameAt 1200]).
  - reflexivity.
  - simpl. lia.
  - reflexivity.
Defined.

Lemma flipDirection_alternates n :
  Nat.iter n flipDirection "forward" = if Nat.even n then "forward" else "backward".
Proof.
  induction n as [n IH] using (well_founded_induction lt_wf).
  destruct n as [|[|n]]; [reflexivity|reflexivity|].
  change (Nat.iter (S (S n)) flipDirection "forward")
    with (flipDirection (flipDirection (Nat.iter n flipDirection "forward"))).
  rewrite IH by lia. simpl Nat.even. destruct (Nat.even n); reflexivity.
Qed.

(** The call of [followPath], with the copy it leaves on the heap. *)
Lemma followPath_first depth ps l direction duration cc lp yy t0 h :
  h !! l = Some ps -> (2 <= length ps)%nat ->
  let c := fresh (dom h) in
  let dir := default "forward" direction in
  exists w,
    followPath (S depth) (Some (newPath l)) true direction duration cc lp yy
      (newWorld t0 h) = Ok w /\
    frameRequests w =
      [followAnimate ps c (default 1000 duration) cc (default false lp) (default false yy)
         dir 0 0 0 t0] /\
    trace w = [] /\ heap w !! l = Some ps /\ c <> l /\
    heap w !! c = Some (workingPoints (default false yy) (firstPoints dir ps) 0).
Proof.
  intros Hh Hn c dir. pose proof (fresh_loc h l ps Hh) as Hne.
  unfold followPath. cbn [path_points newPath].
  assert (Ha : array (newWorld t0 h) l = ps) by (apply array_heap; exact Hh).
  rewrite Ha. destruct (Nat.ltb_spec (length ps) 2) as [H|_]; [lia|].
  cbn [negb alloc newWorld heap]. fold c. fold dir.
  set (first := if String.eqb dir "forward" then ps else rev ps).
  set (w1 := if String.eqb dir "forward" then store c ps (newWorld t0 h)
             else reverse c (store c ps (newWorld t0 h))).
  assert (H1 : heap w1 !! c = Some first /\ heap w1 !! l = Some ps /\ clock w1 = t0 /\
               trace w1 = [] /\ frameRequests w1 = []).
  { subst w1 first. destruct (String.eqb dir "forward"); unfold reverse, store, array; simpl.
    - rewrite lookup_insert_eq, lookup_insert_ne by exact Hne. auto.
    - rewrite !lookup_insert_eq, !lookup_insert_ne by exact Hne. auto. }
  destruct H1 as (Hc & Hl & Hclock & Htr & Hq).
  assert (El : length first = length ps).
  { subst first. destruct (String.eqb _ _); [|rewrite length_rev]; reflexivity. }
  rewrite (executeAnimation_starts depth _ first); [|exact Hc|rewrite El; exact Hn].
  assert (Ew : workingPoints (default false yy) (firstPoints dir ps) 0 = first).
  { destruct (default false yy); reflexivity. }
  eexists. split; [reflexivity|]. simpl.
  rewrite Hq, Hclock, Htr, Ew, El. repeat split; auto.
  unfold followAnimate, followEnv, directionAt. rewrite Ew.
  destruct (default false yy); reflexivity.
Qed.

(** With [loop], every frame brings one update, and nothing else. *)
Lemma frame_following_loop depth ps l c d cc yy direction f w n k j t :
  (S k < length ps)%nat -> c <> l ->
  heap w !! l = Some ps ->
  heap w !! c = Some (workingPoints yy (firstPoints direction ps) n) ->
  frameRequests w = [followAnimate ps c d cc true yy direction n k j t] ->
  exists x y w' n' k' j' t',
    frame (S depth) f w = Ok w' /\
    trace w' = trace w ++ [Update x y j k n (directionAt yy direction n)] /\
    frameRequests w' = [followAnimate ps c d cc true yy direction n' k' j' t'] /\
    heap w' !! c = Some (workingPoints yy (firstPoints direction ps) n') /\
    (late (followAnimate ps c d cc true yy direction n k j t) f = true ->
     S (S k) = length ps -> n' = S n /\ k' = 0%nat).
Proof.
  intros Hk Hne Hh Hc Hq.
  destruct (frame_following depth ps l c d cc true yy direction f w n k j t Hk Hne Hh Hc Hq)
    as (x & y & w' & Hf & _ & H).
  cbv zeta in H. exists x, y, w'.
  change (late (followAnimate ps c d cc true yy direction n k 0 t) f)
    with (late (followAnimate ps c d cc true yy direction n k j t) f) in H.
  destruct (late _ f).
  - destruct (Nat.ltb_spec (S (S k)) (length ps)) as [Hlt|Hge].
    + destruct H as (Htr & Hq' & Hc'). exists n, (S k), 0%nat, (now f).
      repeat split; auto; lia.
    + destruct H as (Htr & Hq' & Hc'). exists (S n), 0%nat, 0%nat, (now f).
      repeat split; auto.
  - destruct H as (Htr & Hq' & Hc'). exists n, k, (S j), t.
    repeat split; auto; discriminate.
Qed.

(** With [loop] a traversal is in progress after any frames, and every
    frame has brought one update. *)
Lemma run_follow_loop depth ps l direction duration cc yy t0 h fs :
  h !! l = Some ps -> (2 <= length ps)%nat ->
  exists w,
    andThen
      (followPath (S depth) (Some (newPath l)) true direction duration cc (Some true) yy
         (newWorld t0 h))
      (run (S depth) fs) = Ok w /\
    following ps l (fresh (dom h)) (default 1000 duration) cc true
      (default false yy) (default "forward" direction) t0 fs w /\
    length (trace w) = length fs.
Proof.
  intros Hh Hn.
  destruct (followPath_starts depth ps l direction duration cc (Some true) yy t0 h Hh Hn)
    as (w0 & Hstart & H0).
  destruct (followPath_first depth ps l direction duration cc (Some true) yy t0 h Hh Hn)
    as (w0' & Hstart' & _ & Htr0 & _).
  rewrite Hstart in Hstart'. injection Hstart' as <-.
  rewrite Hstart. simpl. change (default false (Some true)) with true in H0.
  induction fs as [|f fs (w & Hrun & Hw & Hlen)] using rev_ind.
  - exists w0. rewrite Htr0. auto.
  - rewrite run_snoc, Hrun. simpl.
    destruct (frame_follow depth _ _ _ _ _ _ _ _ _ _ f _ Hw) as (w' & Hf & Hw').
    exists w'. split; [exact Hf|]. split; [exact Hw'|].
    destruct Hw as [n k j t _ Hk Hh' Hne Hc Hq _ _ _ _|tr x y j _ Hl _ _ _ _ _];
      [|discriminate].
    destruct (frame_following_loop depth ps l _ _ cc _ _ f w n k j t Hk Hne Hh' Hc Hq)
      as (x & y & w'' & _ & _ & _ & _ & Hf' & Htr & _).
    rewrite Hf in Hf'. injection Hf' as <-.
    rewrite Htr, !length_app, Hlen. reflexivity.
Qed.

(** C4: with [loop] and [yoyo] every frame brings exactly one update,
    which reports the number and the direction of the traversal in
    progress.  That traversal is the one numbered by the whole traversals
    the frames have completed; its direction is the first one flipped that
    many times and it runs over the point sequence reversed that many
    times; when its last segment is over the direction flips, the working
    copy is reversed in place and the next traversal starts where this one
    ended.  From [forward] the directions alternate forward, backward,
    forward. *)
Theorem followPath_yoyo depth ps l direction duration cc t0 h fs :
  h !! l = Some ps -> (2 <= length ps)%nat ->
  exists w a penv env,
    andThen
      (followPath (S depth) (Some (newPath l)) true direction duration cc (Some true)
         (Some true) (newWorld t0 h))
      (run (S depth) fs) = Ok w /\
    frameRequests w = [a] /\ pathEnvOf a = Some penv /\ followEnvOf a = Some env /\
    let d0 := default "forward" direction in
    let working := Nat.iter (loopCount env) (@rev Point) (firstPoints d0 ps) in
    schedule (default 1000 duration / number_of_nat (length ps - 1)) t0 fs
    = (startTime a, (loopCount env * (length ps - 1) + currentSegment penv)%nat) /\
    (S (currentSegment penv) < length ps)%nat /\
    currentDirection env = Nat.iter (loopCount env) flipDirection d0 /\
    heap w !! pathPoints env = Some working /\
    startPoint a = working !! currentSegment penv /\
    endPoint a = working !! S (currentSegment penv) /\
    length (trace w) = length fs /\
    history
      (fun before e =>
         match e with
         | Update _ _ j i n dir =>
             dir = Nat.iter n flipDirection d0 /\
             follows (length ps - 1) (last before) n i j
         | _ => False
         end) (trace w) /\
    (forall f, exists x y w' a' env',
       frame (S depth) f w = Ok w' /\
       trace w' =
         trace w ++
         [Update x y (stepIndex a) (currentSegment penv) (loopCount env)
            (currentDirection env)] /\
       frameRequests w' = [a'] /\ followEnvOf a' = Some env' /\
       (late a f = true -> S (S (currentSegment penv)) = length ps ->
        loopCount env' = S (loopCount env) /\
        currentDirection env' = flipDirection (currentDirection env) /\
        pathPoints env' = pathPoints env /\
        heap w' !! pathPoints env' = Some (rev working) /\
        startPoint a' = endPoint a)) /\
    (forall n, Nat.iter n flipDirection "forward"
               = if Nat.even n then "forward" else "backward").
Proof.
  intros Hh Hn.
  destruct (run_follow_loop depth ps l direction duration cc (Some true) t0 h fs Hh Hn)
    as (w & Hrun & Hw & Hlen).
  change (default false (Some true)) with true in Hw.
  destruct Hw as [n k j t Hsch Hk Hh' Hne Hc Hq _ _ _ Ho|tr x y j _ Hl _ _ _ _ _];
    [|discriminate].
  exists w. eexists. eexists. eexists.
  split; [exact Hrun|]. split; [exact Hq|]. split; [reflexivity|]. split; [reflexivity|].
  cbn [followEnv loopCount currentDirection pathPoints currentSegment startTime
       segmentAnimate followAnimate startPoint endPoint workingPoints directionAt
       stepIndex].
  split; [exact Hsch|]. split; [exact Hk|].
  split; [reflexivity|]. split; [exact Hc|]. split; [reflexivity|]. split; [reflexivity|].
  split; [exact Hlen|].
  split; [|split; [|exact flipDirection_alternates]].
  - intros before e after E. specialize (Ho _ _ _ E).
    destruct e; simpl in Ho; try tauto. destruct Ho as (_ & Hf & _). discriminate.
  - intros f.
    destruct (frame_following_loop depth ps l _ _ cc true _ f w n k j t Hk Hne Hh' Hc Hq)
      as (x & y & w' & n' & k' & j' & t' & Hf & Htr & Hq' & Hc' & Hnext).
    exists x, y, w'. eexists. eexists.
    split; [exact Hf|]. split; [exact Htr|]. split; [exact Hq'|]. split; [reflexivity|].
    intros Hl Hlast. destruct (Hnext Hl Hlast) as [-> ->].
    cbn [followEnv loopCount currentDirection pathPoints currentSegment
         segmentAnimate followAnimate startPoint endPoint workingPoints directionAt].
    repeat split; [exact Hc'|].
    change (Nat.iter (S n) (@rev Point) (firstPoints (default "forward" direction) ps))
      with (rev (Nat.iter n (@rev Point) (firstPoints (default "forward" direction) ps))).
    rewrite rev_lookup_0. f_equal.
    pose proof (length_workingPoints true (firstPoints (default "forward" direction) ps) n) as E.
    unfold workingPoints in E. rewrite E, length_firstPoints. lia.
Qed.

Lemma followPath_yoyo_witness :
  exists w a penv env,
    andThen
      (followPath 1 (Some (newPath 0%nat)) true (Some "forward") (Some 1000) false
         (Some true) (Some true) (newWorld 0 {[ 0%nat := corner ]}))
      (run 1 [frameAt 300; frameAt 600; frameAt 900; frameAt 1200; frameAt 1500]) = Ok w /\
    frameRequests w = [a] /\ pathEnvOf a = Some penv /\ followEnvOf a = Some env /\
    let d0 := default "forward" (Some "forward") in
    let working := Nat.iter (loopCount env) (@rev Point) (firstPoints d0 corner) in
    schedule (default 1000 (Some 1000) / number_of_nat (length corner - 1)) 0
      [frameAt 300; frameAt 600; frameAt 900; frameAt 1200; frameAt 1500]
    = (startTime a, (loopCount env * (length corner - 1) + currentSegment penv)%nat) /\
    (S (currentSegment penv) < length corner)%nat /\
    currentDirection env = Nat.iter (loopCount env) flipDirection d0 /\
    heap w !! pathPoints env = Some working /\
    startPoint a = working !! currentSegment penv /\
    endPoint a = working !! S (currentSegment penv) /\
    length (trace w)
    = length [frameAt 300; frameAt 600; frameAt 900; frameAt 1200; frameAt 1500] /\
    history
      (fun before e =>
         match e with
         | Update _ _ j i n dir =>
             dir = Nat.iter n flipDirection d0 /\
             follows (length corner - 1) (last before) n i j
         | _ => False
         end) (trace w) /\
    (forall f, exists x y w' a' env',
       frame 1 f w = Ok w' /\
       trace w' =
         trace w ++
         [Update x y (stepIndex a) (currentSegment penv) (loopCount env)
            (currentDirection env)] /\
       frameRequests w' = [a'] /\ followEnvOf a' = Some env' /\
       (late a f = true -> S (S (currentSegment penv)) = length corner ->
        loopCount env' = S (loopCount env) /\
        currentDirection env' = flipDirection (currentDirection env) /\
        pathPoints env' = pathPoints env /\
        heap w' !! pathPoints env' = Some (rev working) /\
        startPoint a' = endPoint a)) /\
    (forall n, Nat.iter n flipDirection "forward"
               = if Nat.even n then "forward" else "backward").
Proof.
  apply (followPath_yoyo 0 corner 0%nat (Some "forward") (Some 1000) false 0
           {[ 0%nat := corner ]}
           [frameAt 300; frameAt 600; frameAt 900; frameAt 1200; frameAt 1500]).
  - reflexivity.
  - simpl. lia.
Defined.

(** [followPath] throws on an argument that is not a [Path], on a path
    of fewer than two points and without update callback. *)
Lemma followPath_throws depth path updateCallback direction duration cc lp yy w :
  (match path with
   | None => True
   | Some p =>
       match path_points p with
       | None => True
       | Some l => (length (array w l) < 2)%nat
       end
   end \/ updateCallback = false) ->
  exists message,
    followPath depth path updateCallback direction duration cc lp yy w
    = Throw (TypeError message) w.
Proof.
  intros H. unfold followPath. destruct path as [[[p|]]|]; cbn [path_points]; eauto.
  destruct (Nat.ltb_spec (length (array w p)) 2) as [Hlt|Hge]; eauto.
  simpl in H. destruct H as [H| ->]; [lia|]. simpl. eauto.
Qed.

(** C7: on an argument that is not a [Path], on a path of fewer than two
    points, or without update callback, [followPath] throws a [TypeError]
    and leaves the world as it was: nothing scheduled, no callback called. *)
Theorem followPath_invalid depth path updateCallback direction duration cc lp yy w :
  (match path with
   | None => True
   | Some p =>
       match path_points p with
       | None => True
       | Some l => (length (array w l) < 2)%nat
       end
   end \/ updateCallback = false) ->
  (exists message,
     followPath depth path updateCallback direction duration cc lp yy w
     = Throw (TypeError message) w) /\
  (frameRequests w = [] ->
   forall fs, exists w', run depth fs w = Ok w' /\ trace w' = trace w /\
                         frameRequests w' = []).
Proof.
  intros H. split.
  - apply followPath_throws, H.
  - intros Hq fs. destruct (run_idle depth fs w Hq) as (w' & Hrun & Hq' & Htr & _). eauto.
Qed.

Lemma followPath_invalid_witness :
  (exists message,
     followPath 1 (Some (newPath 0%nat)) true None None false None None
       (newWorld 0 {[ 0%nat := [ {| point_x := 5; point_y := 5 |} ] ]})
     = Throw (TypeError message)
         (newWorld 0 {[ 0%nat := [ {| point_x := 5; point_y := 5 |} ] ]})) /\
  (frameRequests (newWorld 0 {[ 0%nat := [ {| point_x := 5; point_y := 5 |} ] ]}) = [] ->
   forall fs, exists w',
     run 1 fs (newWorld 0 {[ 0%nat := [ {| point_x := 5; point_y := 5 |} ] ]}) = Ok w' /\
     trace w' = trace (newWorld 0 {[ 0%nat := [ {| point_x := 5; point_y := 5 |} ] ]}) /\
     frameRequests w' = []).
Proof.
  apply (followPath_invalid 1 (Some (newPath 0%nat)) true None None false None None
           (newWorld 0 {[ 0%nat := [ {| point_x := 5; point_y := 5 |} ] ]})).
  left. vm_compute. lia.
Defined.

(** C10: whatever its arguments and however long it runs, [followPath]
    leaves the points array of its path as it was. *)
Theorem followPath_keeps_path depth ps l updateCallback direction duration cc lp yy t0 h fs :
  h !! l = Some ps ->
  heap
    (worldOf
       (andThen
          (followPath depth (Some (newPath l)) updateCallback direction duration cc lp yy
             (newWorld t0 h))
          (run depth fs))) !! l = Some ps.
Proof.
  intros Hh.
  pose proof (array_heap (newWorld t0 h) l ps Hh) as Ha.
  destruct (Nat.ltb_spec (length ps) 2) as [Hlt|Hn].
  { assert (H : match Some (newPath l) with
                | None => True
                | Some p =>
                    match path_points p with
                    | None => True
                    | Some l => (length (array (newWorld t0 h) l) < 2)%nat
                    end
                end \/ updateCallback = false).
    { left. cbn [path_points newPath]. rewrite Ha. exact Hlt. }
    destruct (followPath_throws depth (Some (newPath l)) updateCallback direction
                duration cc lp yy (newWorld t0 h) H)
      as (m & ->).
    exact Hh. }
  destruct updateCallback.
  2:{ destruct (followPath_throws depth (Some (newPath l)) false direction
                  duration cc lp yy (newWorld t0 h) (or_intror eq_refl)) as (m & ->).
      exact Hh. }
  destruct depth as [|depth].
  - unfold followPath. cbn [path_points newPath].
    rewrite (array_heap (newWorld t0 h) l ps Hh).
    destruct (Nat.ltb_spec (length ps) 2) as [H|_]; [lia|].
    cbn [negb alloc executeAnimation andThen worldOf].
    pose proof (fresh_loc h l ps Hh) as Hne.
    destruct (String.eqb _ _); unfold reverse, store; simpl;
      rewrite ?lookup_insert_ne by exact Hne; exact Hh.
  - destruct (run_follow depth ps l direction duration cc lp yy t0 h fs Hh Hn)
      as (w & -> & Hw).
    destruct Hw; assumption.
Qed.

Lemma followPath_keeps_path_witness :
  heap
    (worldOf
       (andThen
          (followPath 1 (Some (newPath 0%nat)) true (Some "backward") (Some 1000) false
             (Some true) (Some true) (newWorld 0 {[ 0%nat := corner ]}))
          (run 1 [frameAt 300; frameAt 600; frameAt 900; frameAt 1200; frameAt 1500])))
    !! 0%nat = Some corner.
Proof.
  apply (followPath_keeps_path 1 corner 0%nat true (Some "backward") (Some 1000) false
           (Some true) (Some true) 0 {[ 0%nat := corner ]}
           [frameAt 300; frameAt 600; frameAt 900; frameAt 1200; frameAt 1500]).
  reflexivity.
Defined.

(** ** Links *)

(** C9: the path of the link [createLink] returns is a new array of two
    points, the centres of the two elements; for boxes of size 50 at (0,0)
    and (100,100) these are (25,25) and (125,125). *)
Theorem createLink_centres element1 element2 style sa ea w :
  (exists link l w',
     createLink element1 element2 (str style) (boolean sa) (boolean ea) w = (inr link, w') /\
     link_path link = newPath l /\
     heap w !! l = None /\
     heap w' !! l
     = Some [ {| point_x := box_x element1 + box_width element1 / 2;
                 point_y := box_y element1 + box_height element1 / 2 |};
              {| point_x := box_x element2 + box_width element2 / 2;
                 point_y := box_y element2 + box_height element2 / 2 |} ] /\
     link_x link = box_x element1 + box_width element1 / 2 /\
     link_y link = box_y element1 + box_height element1 / 2 /\
     link_borderStyle link = style /\ startArrow link = sa /\ endArrow link = ea) /\
  (exists link l w',
     createLink {| box_x := 0; box_y := 0; box_width := 50; box_height := 50 |}
       {| box_x := 100; box_y := 100; box_width := 50; box_height := 50 |}
       (str "dashed") (boolean true) (boolean false) (newWorld 0 ∅) = (inr link, w') /\
     path_points (link_path link) = Some l /\
     heap w' !! l
     = Some [ {| point_x := 25; point_y := 25 |}; {| point_x := 125; point_y := 125 |} ]).
Proof.
  split.
  - unfold createLink, alloc, newLink. cbn [newPath path_points].
    rewrite array_store. cbn [lookup list_lookup point_x point_y].
    eexists. exists (fresh (dom (heap w))). eexists. split; [reflexivity|].
    split; [reflexivity|]. split; [apply not_elem_of_dom, is_fresh|].
    split; [apply lookup_insert_eq|]. repeat split.
  - do 3 eexists. vm_compute. repeat split.
Qed.

(** ** The scenarios of the specification *)

(** Scenario A: a move from (0,0) to (10,0) lasting 1. *)
Example scenario_A :
  option_map trace
    (match run 0 [frameAt 0.5; frameAt 1.5]
             (moveBetweenPoints (Some {| point_x := 0; point_y := 0 |})
                (Some {| point_x := 10; point_y := 0 |}) 1
                (callerMoveCallbacks true true) (newWorld 0 ∅))
     with Ok w => Some w | Throw _ _ => None end)
  = Some [MoveStep 5 0 0; MoveStep 10 0 1; MoveComplete].
Proof. reflexivity. Qed.

(** Scenario B: the corner path in 1000 ms. *)
Example scenario_B :
  option_map trace
    (match andThen
             (moveAlongPath (executeAnimation 0) (Some 0%nat) 1000
                (callerPathCallbacks true true true) (newWorld 0 {[ 0%nat := corner ]}))
             (run 0 [frameAt 300; frameAt 600; frameAt 900; frameAt 1200])
     with Ok w => Some w | Throw _ _ => None end)
  = Some [PathStep 60 0 0 0; PathStep 100 0 1 0; SegmentComplete 0;
          PathStep 100 60 0 1; PathStep 100 100 1 1; SegmentComplete 1; PathComplete].
Proof. vm_compute. reflexivity. Qed.

(** Scenario C: two traversals of a two-point path with [loop] and [yoyo]. *)
Example scenario_C :
  option_map trace
    (match andThen
             (followPath 1
                (Some (newPath 0%nat)) true (Some "forward") (Some 1000) false
                (Some true) (Some true)
                (newWorld 0 {[ 0%nat := [ {| point_x := 0; point_y := 0 |};
                                           {| point_x := 100; point_y := 0 |} ] ]}))
             (run 1 [frameAt 500; frameAt 1000; frameAt 1500; frameAt 2000])
     with Ok w => Some w | Throw _ _ => None end)
  = Some [Update 50 0 0 0 0 "forward"; Update 100 0 1 0 0 "forward";
          Update 50 0 0 0 1 "backward"; Update 0 0 1 0 1 "backward"].
Proof. vm_compute. reflexivity. Qed.

(** ** The course of a move *)

Lemma run_move_from depth s e d t0 fs : forall j w,
  frameRequests w = [moveAnimate s e d t0 j] ->
  let a := moveAnimate s e d t0 0 in
  exists w',
    run depth fs w = Ok w' /\
    trace w' =
      trace w ++ imap (fun i => stepAt s e d t0 (j + i)) (framesOf a fs) ++
      (if goesOn a fs then [] else [MoveComplete]) /\
    frameRequests w' =
      if goesOn a fs then [moveAnimate s e d t0 (j + length fs)] else [].
Proof.
  induction fs as [|f fs IH]; intros j w Hq a.
  - exists w. simpl. rewrite app_nil_r, Nat.add_0_r. auto.
  - cbn [run]. rewrite (frame_move depth s e d t0 f w j Hq). cbv zeta.
    fold a. cbn [framesOf goesOn forallb]. destruct (late a f) eqn:Hl.
    + destruct (run_idle depth fs
                  (call MoveComplete
                     (call (stepAt s e d t0 j f) (beginFrame f w))) eq_refl)
        as (w' & Hrun & Hq' & Htr & _).
      exists w'. split; [exact Hrun|]. split; [|exact Hq'].
      rewrite Htr. cbn [negb andb imap trace call beginFrame].
      rewrite Nat.add_0_r, <- !app_assoc. reflexivity.
    + destruct (IH (S j)
                  (requestAnimationFrame (moveAnimate s e d t0 (S j))
                     (call (stepAt s e d t0 j f) (beginFrame f w))) eq_refl)
        as (w' & Hrun & Htr & Hq').
      exists w'. split; [exact Hrun|]. cbv zeta in Htr, Hq'. fold a in Htr, Hq'.
      cbn [negb andb]. fold (goesOn a fs). split.
      * rewrite Htr. cbn [trace requestAnimationFrame call beginFrame imap].
        rewrite Nat.add_0_r, <- !app_assoc. cbn [app]. do 2 f_equal.
        f_equal. apply imap_ext. intros i x _. simpl. f_equal. lia.
      * rewrite Hq'. cbn [length]. rewrite Nat.add_succ_r. reflexivity.
Qed.

(** X1: a move calls the step callback once at every frame up to the first one
    whose progress is not below 1, with the position interpolated at the
    progress of that frame and the step numbers 0, 1, 2, ...; the completion
    callback follows the last of these steps, and until then one closure
    waits for the next frame. *)
Theorem moveBetweenPoints_steps depth s e d t0 h fs :
  let a := moveAnimate s e d t0 0 in
  exists w,
    run depth fs
      (moveBetweenPoints (Some s) (Some e) d (callerMoveCallbacks true true)
         (newWorld t0 h)) = Ok w /\
    trace w =
      imap (stepAt s e d t0) (framesOf a fs) ++
      (if goesOn a fs then [] else [MoveComplete]) /\
    frameRequests w = if goesOn a fs then [moveAnimate s e d t0 (length fs)] else [].
Proof.
  intros a.
  destruct (run_move_from depth s e d t0 fs 0
              (moveBetweenPoints (Some s) (Some e) d (callerMoveCallbacks true true)
                 (newWorld t0 h)) eq_refl) as (w & Hrun & Htr & Hq).
  exists w. split; [exact Hrun|]. split; [exact Htr|exact Hq].
Qed.

(** ** The progress of a move *)

Lemma SFltb_asym x y : SFltb x y = true -> SFltb y x = false.
Proof.
  assert (HP : forall p q, Pos.compare_cont Eq q p = CompOpp (Pos.compare_cont Eq p q))
    by (intros; apply Pos.compare_antisym).
  unfold SFltb.
  destruct x as [[]|[]| |[] mx ex], y as [[]|[]| |[] my ey]; simpl;
    try discriminate; try reflexivity;
    rewrite (Z.compare_antisym ex ey), (HP mx my);
    destruct (ex ?= ey)%Z; simpl; try discriminate; try reflexivity;
    destruct (Pos.compare_cont Eq mx my); simpl; try discriminate; reflexivity.
Qed.

Lemma ltb_asym x y : (x <? y) = true -> (y <? x) = false.
Proof. rewrite !FloatAxioms.ltb_spec. apply SFltb_asym. Qed.

Lemma Math_min_at_most_one q : (1 <? Math_min q 1) = false.
Proof.
  unfold Math_min. change (is_nan 1) with false. rewrite orb_false_r.
  destruct (is_nan q) eqn:Hn; [reflexivity|].
  destruct (q <? 1) eqn:Hlt; [apply ltb_asym, Hlt|].
  destruct (1 <? q) eqn:Hgt; [reflexivity|].
  destruct (is_zero q && get_sign q); [exact Hgt|reflexivity].
Qed.

(** X3: the progress of a move is elapsed / duration, replaced by 1 when it
    is not below 1 and NaN when it is not a number: it never exceeds 1, and
    nothing bounds it from below. *)
Theorem progress_clamped a timestamp :
  let q := (timestamp - startTime a) / duration a in
  progress a timestamp = (if is_nan q then nan else if q <? 1 then q else 1) /\
  (1 <? progress a timestamp) = false.
Proof.
  cbv zeta. split; [|apply Math_min_at_most_one].
  unfold progress. cbv zeta. set (q := (timestamp - startTime a) / duration a).
  destruct (is_nan q) eqn:Hn; [apply Math_min_nan, Hn|].
  destruct (q <? 1) eqn:Hlt; [apply Math_min_early; assumption|].
  unfold Math_min. rewrite Hn, Hlt. change (is_nan 1) with false. cbn [orb].
  destruct (1 <? q); [reflexivity|].
  destruct (is_zero q) eqn:Hz; [|reflexivity].
  apply is_zero_below_one in Hz. congruence.
Qed.

(** ** Edge cases of a move *)

Lemma is_nan_eq x : is_nan x = true -> x = nan.
Proof.
  intros H. apply Prim2SF_nan in H. apply FloatAxioms.Prim2SF_inj. rewrite H. reflexivity.
Qed.

Lemma calculateLinearInterpolation_nan s e : calculateLinearInterpolation s e nan = nan.
Proof.
  apply is_nan_eq, Prim2SF_nan. unfold calculateLinearInterpolation.
  rewrite FloatAxioms.add_spec, FloatAxioms.mul_spec.
  change (Prim2SF nan) with S754_nan.
  destruct (Prim2SF s) as [[]|[]| |[] ? ?], (Prim2SF (e - s)) as [[]|[]| |[] ? ?];
    reflexivity.
Qed.

(** X4: when elapsed / duration is not a number at the first frame (0 / 0
    for a duration 0 and a frame at the start time, or a duration that is
    NaN), that frame reports the position (NaN, NaN) and completes the move. *)
Theorem moveBetweenPoints_no_progress depth s e d t0 h f fs :
  is_nan ((timestamp f - t0) / d) = true ->
  exists w,
    run depth (f :: fs)
      (moveBetweenPoints (Some s) (Some e) d (callerMoveCallbacks true true)
         (newWorld t0 h)) = Ok w /\
    trace w = [MoveStep nan nan 0; MoveComplete] /\ frameRequests w = [].
Proof.
  intros H. cbn [run].
  rewrite (frame_move depth s e d t0 f
             (moveBetweenPoints (Some s) (Some e) d (callerMoveCallbacks true true)
                (newWorld t0 h)) 0 eq_refl).
  cbv zeta.
  assert (Hp : progress (moveAnimate s e d t0 0) (timestamp f) = nan).
  { unfold progress. simpl. apply Math_min_nan, H. }
  unfold late. rewrite Hp, !calculateLinearInterpolation_nan.
  change (negb (nan <? 1)) with true. cbv iota.
  destruct (run_idle depth fs
              (call MoveComplete
                 (call (MoveStep nan nan 0)
                    (beginFrame f
                       (moveBetweenPoints (Some s) (Some e) d (callerMoveCallbacks true true)
                          (newWorld t0 h))))) eq_refl)
    as (w & Hrun & Hq & Htr & _).
  exists w. split; [exact Hrun|]. split; [rewrite Htr; reflexivity|exact Hq].
Qed.

Lemma moveBetweenPoints_no_progress_witness :
  exists w,
    run 0 (frameAt 0 :: [frameAt 16])
      (moveBetweenPoints (Some {| point_x := 0; point_y := 0 |})
         (Some {| point_x := 100; point_y := 100 |}) 0
         (callerMoveCallbacks true true) (newWorld 0 ∅)) = Ok w /\
    trace w = [MoveStep nan nan 0; MoveComplete] /\ frameRequests w = [].
Proof.
  apply (moveBetweenPoints_no_progress 0 {| point_x := 0; point_y := 0 |}
           {| point_x := 100; point_y := 100 |} 0 0 ∅ (frameAt 0) [frameAt 16]).
  reflexivity.
Defined.

(** X5: [moveBetweenPoints] does not look at its points: with a point
    missing it returns normally, its closure registered, and the first frame
    throws a TypeError before any callback is called; nothing stays
    registered. *)
Theorem moveBetweenPoints_missing_point depth s e d callbacks t0 h f fs :
  s = None \/ e = None ->
  let w := moveBetweenPoints s e d callbacks (newWorld t0 h) in
  frameRequests w
  = [{| startPoint := s; endPoint := e; duration := d; startTime := t0; stepIndex := 0;
        moveCallbacks := callbacks |}] /\
  trace w = [] /\
  exists message w',
    run depth (f :: fs) w = Throw (TypeError message) w' /\
    trace w' = [] /\ frameRequests w' = [].
Proof.
  intros H w. split; [reflexivity|]. split; [reflexivity|].
  do 2 eexists. subst w. cbn [run]. unfold frame. simpl. unfold animate. simpl.
  destruct H as [-> | ->]; [|destruct s]; simpl; repeat split.
Qed.

Lemma moveBetweenPoints_missing_point_witness :
  let w := moveBetweenPoints (Some {| point_x := 0; point_y := 0 |}) None 1000
             (callerMoveCallbacks true true) (newWorld 0 ∅) in
  frameRequests w
  = [{| startPoint := Some {| point_x := 0; point_y := 0 |}; endPoint := None;
        duration := 1000; startTime := 0; stepIndex := 0;
        moveCallbacks := callerMoveCallbacks true true |}] /\
  trace w = [] /\
  exists message w',
    run 0 (frameAt 16 :: [frameAt 32]) w = Throw (TypeError message) w' /\
    trace w' = [] /\ frameRequests w' = [].
Proof.
  apply (moveBetweenPoints_missing_point 0 (Some {| point_x := 0; point_y := 0 |}) None
           1000 (callerMoveCallbacks true true) 0 ∅ (frameAt 16) [frameAt 32]).
  right. reflexivity.
Defined.

(** ** Interpolation *)

Lemma SFcompare_refl x : x <> S754_nan -> SFcompare x x = Some Eq.
Proof.
  destruct x as [[]|[]| |[] m e]; simpl; try congruence; intros _;
    rewrite Z.compare_refl, Pos.compare_cont_refl; reflexivity.
Qed.

Lemma float_eqb_refl x : is_nan x = false -> (x =? x) = true.
Proof.
  intros H. rewrite FloatAxioms.eqb_spec. unfold SFeqb.
  rewrite SFcompare_refl; [reflexivity|].
  intros E. apply Prim2SF_nan in E. congruence.
Qed.

Lemma Prim2SF_not_finite x :
  is_finite x = false ->
  match Prim2SF x with S754_nan | S754_infinity _ => True | _ => False end.
Proof.
  unfold is_finite, Prim2SF. destruct (is_nan x); [auto|].
  destruct (is_zero x) eqn:Hz.
  - unfold is_infinity, is_zero in *. intros H. apply negb_false_iff in H. simpl in H.
    exfalso. revert Hz H. rewrite !FloatAxioms.eqb_spec, FloatAxioms.abs_spec.
    change (Prim2SF zero) with (S754_zero false).
    change (Prim2SF infinity) with (S754_infinity false).
    destruct (Prim2SF x) as [[]|[]| |[] ? ?]; unfold SFeqb; simpl; congruence.
  - destruct (is_infinity x); [auto|]. simpl. discriminate.
Qed.

(** X6: at progress 0 the interpolation is the start value, up to the sign
    of zero, when end - start is finite, and NaN when it is not. *)
Theorem calculateLinearInterpolation_start s e :
  if is_finite (e - s) then (calculateLinearInterpolation s e 0 =? s) = true
  else is_nan (calculateLinearInterpolation s e 0) = true.
Proof.
  unfold calculateLinearInterpolation.
  destruct (is_finite (e - s)) eqn:Hf.
  - apply Prim2SF_finite in Hf.
    rewrite FloatAxioms.eqb_spec, FloatAxioms.add_spec, FloatAxioms.mul_spec.
    change (Prim2SF 0) with (S754_zero false).
    pose proof (FloatAxioms.sub_spec e s) as Hsub.
    destruct (Prim2SF (e - s)) as [sd| | |sd md ed]; try contradiction.
    + destruct (Prim2SF s) as [[]|[]| |[] ? ?], (Prim2SF e) as [[]|[]| |[] ? ?], sd;
        simpl in Hsub; try discriminate; unfold SFeqb; simpl;
        rewrite ?Z.compare_refl, ?Pos.compare_cont_refl; reflexivity.
    + destruct (Prim2SF s) as [[]|[]| |[] ? ?], (Prim2SF e) as [[]|[]| |[] ? ?], sd;
        simpl in Hsub; try discriminate; unfold SFeqb; simpl;
        rewrite ?Z.compare_refl, ?Pos.compare_cont_refl; reflexivity.
  - apply Prim2SF_not_finite in Hf. apply Prim2SF_nan.
    rewrite FloatAxioms.add_spec, FloatAxioms.mul_spec.
    change (Prim2SF 0) with (S754_zero false).
    destruct (Prim2SF (e - s)) as [| | |]; try contradiction;
      destruct (Prim2SF s) as [[]|[]| |[] ? ?]; reflexivity.
Qed.

(** ** Callbacks left out *)

Section OptionalProofs.
Variables (sc gc cc : bool).
Variable exec : FollowEnv -> World -> Outcome.

Let hear := heardBy sc gc cc.
Let some := someGiven sc gc cc.

Lemma heardBy_call e w :
  hear (call e w) = if given sc gc cc e then call e (hear w) else hear w.
Proof.
  unfold hear, heardBy, call. simpl. rewrite List.filter_app. simpl.
  destruct (given sc gc cc e); [reflexivity|]. rewrite app_nil_r. reflexivity.
Qed.

Lemma heardBy_request a w :
  hear (requestAnimationFrame a w) = requestAnimationFrame (some a) (hear w).
Proof. unfold hear, heardBy, requestAnimationFrame. simpl. rewrite map_app. reflexivity. Qed.

Lemma allPending_call e w : allPending w -> allPending (call e w).
Proof. exact id. Qed.

Lemma allPending_request a w :
  allPending w -> allGiven a -> allPending (requestAnimationFrame a w).
Proof. intros H Ha. apply Forall_app. split; [exact H|]. repeat constructor. exact Ha. Qed.

Lemma animate_heardBy a t w :
  allGiven a -> allPending w ->
  animate exec (some a) t (hear w) = outcomeHeardBy sc gc cc (animate exec a t w) /\
  allPending (worldOf (animate exec a t w)).
Proof.
  intros Ha Hw. destruct a as [s e d t0 j cbs]. unfold allGiven in Ha. simpl in Ha.
  destruct cbs as [sc' cc'|env].
  - destruct Ha as [-> ->]. unfold animate, some, someGiven, progress. simpl.
    destruct s as [s|]; [|split; [reflexivity|exact Hw]].
    destruct e as [e|]; [|split; [reflexivity|exact Hw]].
    set (p := Math_min _ 1).
    set (x := calculateLinearInterpolation _ _ p).
    set (y := calculateLinearInterpolation _ _ p).
    unfold move_step. simpl. destruct (p <? 1).
    + split.
      * simpl. fold hear. rewrite heardBy_request, heardBy_call. simpl.
        destruct sc; reflexivity.
      * simpl. apply allPending_request; [exact Hw|]. split; reflexivity.
    + split; [|exact Hw]. simpl. fold hear. rewrite !heardBy_call. simpl.
      destruct sc, cc; reflexivity.
  - destruct env as [l n sd k pcbs]. simpl in Ha. subst pcbs.
    unfold animate, some, someGiven, progress. simpl.
    destruct s as [s|]; [|split; [reflexivity|exact Hw]].
    destruct e as [e|]; [|split; [reflexivity|exact Hw]].
    set (p := Math_min _ 1).
    set (x := calculateLinearInterpolation _ _ p).
    set (y := calculateLinearInterpolation _ _ p).
    unfold move_step. simpl. destruct (p <? 1).
    + split.
      * simpl. fold hear. rewrite heardBy_request, heardBy_call. simpl.
        destruct sc; reflexivity.
      * simpl. apply allPending_request; [exact Hw|]. reflexivity.
    + unfold moveNextSegment. simpl. destruct (n <=? S k)%nat.
      * split; [|exact Hw]. simpl. fold hear. rewrite !heardBy_call. simpl.
        destruct sc, gc, cc; reflexivity.
      * split.
        -- simpl. fold hear. unfold moveBetweenPoints.
           rewrite heardBy_request, !heardBy_call. simpl.
           destruct sc, gc; reflexivity.
        -- simpl. apply allPending_request; [exact Hw|]. reflexivity.
Qed.

Lemma moveAlongPath_heardBy points d w :
  allPending w ->
  moveAlongPath exec points d (callerPathCallbacks sc gc cc) (hear w)
  = outcomeHeardBy sc gc cc
      (moveAlongPath exec points d (callerPathCallbacks true true true) w) /\
  allPending (worldOf (moveAlongPath exec points d (callerPathCallbacks true true true) w)).
Proof.
  intros Hw.
  assert (Hc : path_complete exec (callerPathCallbacks sc gc cc) (hear w)
               = outcomeHeardBy sc gc cc
                   (path_complete exec (callerPathCallbacks true true true) w)).
  { simpl. fold hear. rewrite heardBy_call. simpl. destruct cc; reflexivity. }
  unfold moveAlongPath. destruct points as [l|]; [|split; [exact Hc|exact Hw]].
  change (array (hear w) l) with (array w l).
  destruct (length (array w l) <? 2)%nat; [split; [exact Hc|exact Hw]|].
  unfold moveNextSegment.
  cbn [totalSegments currentSegment pathCallbacks points segmentDuration].
  destruct (length (array w l) - 1 <=? 0)%nat.
  - split; [exact Hc|exact Hw].
  - split.
    + unfold moveBetweenPoints. cbn [outcomeHeardBy]. fold hear.
      rewrite heardBy_request. reflexivity.
    + simpl. apply allPending_request; [exact Hw|]. reflexivity.
Qed.

End OptionalProofs.

Section OptionalRuns.
Variables (sc gc cc : bool) (depth : nat).

Lemma runCallbacks_heardBy queue t : forall w,
  Forall allGiven queue -> allPending w ->
  runCallbacks depth (map (someGiven sc gc cc) queue) t (heardBy sc gc cc w)
  = outcomeHeardBy sc gc cc (runCallbacks depth queue t w) /\
  allPending (worldOf (runCallbacks depth queue t w)).
Proof.
  induction queue as [|a queue IH]; intros w Hq Hw; [split; [reflexivity|exact Hw]|].
  apply Forall_cons in Hq as [Ha Hq]. cbn [runCallbacks map].
  destruct (animate_heardBy sc gc cc (executeAnimation depth) a t w Ha Hw) as [-> Hw'].
  destruct (animate _ a t w) as [w'|e w']; simpl; [|split; [reflexivity|exact Hw']].
  apply IH; assumption.
Qed.

Lemma frame_heardBy f w :
  allPending w ->
  frame depth f (heardBy sc gc cc w) = outcomeHeardBy sc gc cc (frame depth f w) /\
  allPending (worldOf (frame depth f w)).
Proof.
  intros Hw. unfold frame.
  apply (runCallbacks_heardBy (frameRequests w) (timestamp f) (beginFrame f w) Hw).
  constructor.
Qed.

Lemma run_heardBy fs : forall w,
  allPending w ->
  run depth fs (heardBy sc gc cc w) = outcomeHeardBy sc gc cc (run depth fs w).
Proof.
  induction fs as [|f fs IH]; intros w Hw; [reflexivity|]. cbn [run].
  destruct (frame_heardBy f w Hw) as [-> Hw'].
  destruct (frame depth f w) as [w'|e w']; simpl; [|reflexivity].
  apply IH, Hw'.
Qed.

End OptionalRuns.

(** X2: a callback of [moveBetweenPoints] that is left out changes nothing
    but the calls to it: the caller hears the calls of the full run that go
    to the callbacks given, the move is over at the same frames, and without
    step callback the step counter stays 0. *)
Theorem moveBetweenPoints_optional_callbacks depth s e d stepCallback completeCallback
    t0 h fs :
  exists w w',
    run depth fs
      (moveBetweenPoints (Some s) (Some e) d (callerMoveCallbacks true true)
         (newWorld t0 h)) = Ok w /\
    run depth fs
      (moveBetweenPoints (Some s) (Some e) d
         (callerMoveCallbacks stepCallback completeCallback) (newWorld t0 h)) = Ok w' /\
    trace w' = List.filter (given stepCallback false completeCallback) (trace w) /\
    (frameRequests w' = [] <-> frameRequests w = []) /\
    (stepCallback = false -> Forall (fun a => stepIndex a = 0%nat) (frameRequests w')).
Proof.
  destruct (run_move depth s e d t0 h fs) as (w & Hrun & Hw).
  exists w, (heardBy stepCallback false completeCallback w).
  split; [exact Hrun|]. split.
  - assert (E : moveBetweenPoints (Some s) (Some e) d
                  (callerMoveCallbacks stepCallback completeCallback) (newWorld t0 h)
                = heardBy stepCallback false completeCallback
                    (moveBetweenPoints (Some s) (Some e) d (callerMoveCallbacks true true)
                       (newWorld t0 h)))
      by (destruct stepCallback; reflexivity).
    rewrite E, run_heardBy, Hrun; [reflexivity|].
    repeat constructor.
  - split; [reflexivity|]. split.
    + simpl. destruct (frameRequests w); simpl; split; congruence.
    + intros ->. simpl.
      destruct Hw as [steps _ -> _ _|steps f i _ _ -> _ _]; repeat constructor.
Qed.

(** X7: whatever the points, a callback of [moveAlongPath] that is left out
    changes nothing but the calls to it: the run returns normally, the caller
    hears the calls of the full run that go to the callbacks given, the walk
    is over at the same frames and the arrays are the same. *)
Theorem moveAlongPath_optional_callbacks depth points d stepCallback
    segmentCompleteCallback completeCallback t0 h fs :
  exists w w',
    andThen
      (moveAlongPath (executeAnimation depth) points d
         (callerPathCallbacks true true true) (newWorld t0 h))
      (run depth fs) = Ok w /\
    andThen
      (moveAlongPath (executeAnimation depth) points d
         (callerPathCallbacks stepCallback segmentCompleteCallback completeCallback)
         (newWorld t0 h))
      (run depth fs) = Ok w' /\
    trace w' =
      List.filter (given stepCallback segmentCompleteCallback completeCallback) (trace w) /\
    (frameRequests w' = [] <-> frameRequests w = []) /\
    heap w' = heap w.
Proof.
  set (full := andThen
                 (moveAlongPath (executeAnimation depth) points d
                    (callerPathCallbacks true true true) (newWorld t0 h))
                 (run depth fs)).
  assert (Hfull : exists w, full = Ok w).
  { subst full. destruct points as [l|].
    - destruct (h !! l) as [ps|] eqn:Hh.
      + destruct (Nat.ltb_spec (length ps) 2) as [Hlt|Hge].
        * unfold moveAlongPath. rewrite (array_heap (newWorld t0 h) l ps Hh).
          destruct (Nat.ltb_spec (length ps) 2) as [_|H]; [|lia]. simpl.
          destruct (run_idle depth fs (call PathComplete (newWorld t0 h)) eq_refl)
            as (w & -> & _). eauto.
        * destruct (run_walk depth ps l d t0 h fs Hh Hge) as (w & -> & _). eauto.
      + unfold moveAlongPath, array. simpl. rewrite Hh. simpl.
        destruct (run_idle depth fs (call PathComplete (newWorld t0 h)) eq_refl)
          as (w & -> & _). eauto.
    - simpl. destruct (run_idle depth fs (call PathComplete (newWorld t0 h)) eq_refl)
        as (w & -> & _). eauto. }
  destruct Hfull as (w & Hfull).
  exists w, (heardBy stepCallback segmentCompleteCallback completeCallback w).
  split; [exact Hfull|]. split; [|split; [reflexivity|split; [|reflexivity]]].
  - subst full.
    destruct (moveAlongPath_heardBy stepCallback segmentCompleteCallback completeCallback
                (executeAnimation depth) points d (newWorld t0 h)) as [E Hall];
      [constructor|].
    change (heardBy stepCallback segmentCompleteCallback completeCallback (newWorld t0 h))
      with (newWorld t0 h) in E.
    rewrite E.
    destruct (moveAlongPath _ points d (callerPathCallbacks true true true) _)
      as [w0|e w0]; [|discriminate].
    simpl in *. rewrite run_heardBy, Hfull by exact Hall. reflexivity.
  - simpl. destruct (frameRequests w); simpl; split; congruence.
Qed.

(** ** Loops *)

(** X11: with [loop], [followPath] never ends: after any frames a closure
    waits for the next one and only the update callback was called; the
    traversal and the segment in progress are the quotient and the remainder
    of the number of completed segments by N. *)
Theorem followPath_loop_goes_on depth ps l direction duration cc yy t0 h fs :
  h !! l = Some ps -> (2 <= length ps)%nat ->
  exists w a penv env,
    andThen
      (followPath (S depth) (Some (newPath l)) true direction duration cc (Some true) yy
         (newWorld t0 h))
      (run (S depth) fs) = Ok w /\
    frameRequests w = [a] /\ pathEnvOf a = Some penv /\ followEnvOf a = Some env /\
    Forall (fun e => isUpdate e = true) (trace w) /\
    let n := (length ps - 1)%nat in
    let over := snd (schedule (default 1000 duration / number_of_nat n) t0 fs) in
    loopCount env = (over / n)%nat /\ currentSegment penv = (over mod n)%nat.
Proof.
  intros Hh Hn.
  destruct (run_follow depth ps l direction duration cc (Some true) yy t0 h fs Hh Hn)
    as (w & Hrun & Hw).
  change (default false (Some true)) with true in Hw.
  destruct Hw as [n k j t Hsch Hk _ _ _ Hq _ _ _ Ho|tr x y j _ Hl _ _ _ _ _];
    [|discriminate].
  exists w. eexists. eexists. eexists.
  split; [exact Hrun|]. split; [exact Hq|]. split; [reflexivity|]. split; [reflexivity|].
  split.
  - apply List.Forall_forall. intros e Hin. apply in_split in Hin as (before & after & E).
    specialize (Ho _ _ _ E). destruct e; simpl in Ho; try contradiction; [reflexivity|].
    destruct Ho as (_ & Hl & _). discriminate.
  - cbv zeta. rewrite Hsch.
    cbn [snd followEnv loopCount currentSegment segmentAnimate followAnimate].
    split.
    + rewrite Nat.div_add_l by lia. rewrite Nat.div_small by lia. lia.
    + rewrite Nat.add_comm, Nat.Div0.mod_add. rewrite Nat.mod_small by lia. reflexivity.
Qed.

Lemma followPath_loop_goes_on_witness :
  exists w a penv env,
    andThen
      (followPath 1 (Some (newPath 0%nat)) true None (Some 1000) true (Some true) None
         (newWorld 0 {[ 0%nat := corner ]}))
      (run 1 [frameAt 300; frameAt 600; frameAt 900; frameAt 1200; frameAt 1500]) = Ok w /\
    frameRequests w = [a] /\ pathEnvOf a = Some penv /\ followEnvOf a = Some env /\
    Forall (fun e => isUpdate e = true) (trace w) /\
    let n := (length corner - 1)%nat in
    let over :=
      snd (schedule (default 1000 (Some 1000) / number_of_nat n) 0
             [frameAt 300; frameAt 600; frameAt 900; frameAt 1200; frameAt 1500]) in
    loopCount env = (over / n)%nat /\ currentSegment penv = (over mod n)%nat.
Proof.
  apply (followPath_loop_goes_on 0 corner 0%nat None (Some 1000) true None 0
           {[ 0%nat := corner ]}
           [frameAt 300; frameAt 600; frameAt 900; frameAt 1200; frameAt 1500]).
  - reflexivity.
  - simpl. lia.
Defined.

(** X12: with [loop] and without [yoyo] every traversal is the same: the
    direction reported never changes, the working copy is never reversed,
    and the frame that ends the last segment starts the next traversal at
    the first point of the working sequence. *)
Theorem followPath_loop_repeats depth ps l direction duration cc yy t0 h fs :
  h !! l = Some ps -> (2 <= length ps)%nat -> default false yy = false ->
  exists w a penv env,
    andThen
      (followPath (S depth) (Some (newPath l)) true direction duration cc (Some true) yy
         (newWorld t0 h))
      (run (S depth) fs) = Ok w /\
    frameRequests w = [a] /\ pathEnvOf a = Some penv /\ followEnvOf a = Some env /\
    let d0 := default "forward" direction in
    currentDirection env = d0 /\
    heap w !! pathPoints env = Some (firstPoints d0 ps) /\
    startPoint a = firstPoints d0 ps !! currentSegment penv /\
    endPoint a = firstPoints d0 ps !! S (currentSegment penv) /\
    (forall x y j i n dir, In (Update x y j i n dir) (trace w) -> dir = d0) /\
    (forall f,
       late a f = true -> S (S (currentSegment penv)) = length ps ->
       exists w' a' env',
         frame (S depth) f w = Ok w' /\ frameRequests w' = [a'] /\
         followEnvOf a' = Some env' /\
         loopCount env' = S (loopCount env) /\
         currentDirection env' = d0 /\
         heap w' !! pathPoints env' = Some (firstPoints d0 ps) /\
         startPoint a' = firstPoints d0 ps !! 0%nat).
Proof.
  intros Hh Hn Hyy.
  destruct (run_follow depth ps l direction duration cc (Some true) yy t0 h fs Hh Hn)
    as (w & Hrun & Hw).
  change (default false (Some true)) with true in Hw. rewrite Hyy in Hw.
  destruct Hw as [n k j t Hsch Hk Hh' Hne Hc Hq _ _ _ Ho|tr x y j _ Hl _ _ _ _ _];
    [|discriminate].
  exists w. eexists. eexists. eexists.
  split; [exact Hrun|]. split; [exact Hq|]. split; [reflexivity|]. split; [reflexivity|].
  cbn [followEnv loopCount currentDirection pathPoints currentSegment startTime
       segmentAnimate followAnimate startPoint endPoint workingPoints directionAt] in *.
  split; [reflexivity|]. split; [exact Hc|]. split; [reflexivity|]. split; [reflexivity|].
  split.
  - intros x y j' i n' dir Hin. apply in_split in Hin as (before & after & E).
    specialize (Ho _ _ _ E). simpl in Ho. tauto.
  - intros f Hl Hlast.
    destruct (frame_following depth ps l _ _ cc true false _ f w n k j t Hk Hne Hh' Hc Hq)
      as (x & y & w' & Hf & _ & H).
    cbv zeta in H.
    change (late (followAnimate ps _ _ cc true false _ n k 0 t) f)
      with (late (followAnimate ps (fresh (dom h)) (default 1000 duration) cc true false
                    (default "forward" direction) n k j t) f) in H.
    rewrite Hl in H.
    destruct (Nat.ltb_spec (S (S k)) (length ps)) as [H'|_]; [lia|].
    destruct H as (_ & Hq' & Hc').
    exists w'. eexists. eexists.
    split; [exact Hf|]. split; [exact Hq'|]. split; [reflexivity|].
    cbn [followEnv loopCount currentDirection pathPoints currentSegment
         segmentAnimate followAnimate startPoint endPoint workingPoints directionAt].
    repeat split. exact Hc'.
Qed.

Lemma followPath_loop_repeats_witness :
  exists w a penv env,
    andThen
      (followPath 1 (Some (newPath 0%nat)) true (Some "backward") (Some 1000) false
         (Some true) None (newWorld 0 {[ 0%nat := corner ]}))
      (run 1 [frameAt 300; frameAt 600; frameAt 900; frameAt 1200; frameAt 1500]) = Ok w /\
    frameRequests w = [a] /\ pathEnvOf a = Some penv /\ followEnvOf a = Some env /\
    let d0 := default "forward" (Some "backward") in
    currentDirection env = d0 /\
    heap w !! pathPoints env = Some (firstPoints d0 corner) /\
    startPoint a = firstPoints d0 corner !! currentSegment penv /\
    endPoint a = firstPoints d0 corner !! S (currentSegment penv) /\
    (forall x y j i n dir, In (Update x y j i n dir) (trace w) -> dir = d0) /\
    (forall f,
       late a f = true -> S (S (currentSegment penv)) = length corner ->
       exists w' a' env',
         frame 1 f w = Ok w' /\ frameRequests w' = [a'] /\
         followEnvOf a' = Some env' /\
         loopCount env' = S (loopCount env) /\
         currentDirection env' = d0 /\
         heap w' !! pathPoints env' = Some (firstPoints d0 corner) /\
         startPoint a' = firstPoints d0 corner !! 0%nat).
Proof.
  apply (followPath_loop_repeats 0 corner 0%nat (Some "backward") (Some 1000) false None 0
           {[ 0%nat := corner ]}
           [frameAt 300; frameAt 600; frameAt 900; frameAt 1200; frameAt 1500]).
  - reflexivity.
  - simpl. lia.
  - reflexivity.
Defined.

(** ** Directions *)

(** X13: the direction is not validated: any string other than 'forward'
    makes the first traversal start at the last point of the path towards
    the one before it, and is passed as it is to the update callback. *)
Theorem followPath_other_direction depth ps l direction duration cc lp yy t0 h :
  h !! l = Some ps -> (2 <= length ps)%nat -> direction <> "forward" ->
  exists w a,
    followPath (S depth) (Some (newPath l)) true (Some direction) duration cc lp yy
      (newWorld t0 h) = Ok w /\
    frameRequests w = [a] /\ trace w = [] /\
    startPoint a = ps !! (length ps - 1)%nat /\
    endPoint a = ps !! (length ps - 2)%nat /\
    forall f, exists x y w' after,
      frame (S depth) f w = Ok w' /\ trace w' = Update x y 0 0 0 direction :: after.
Proof.
  intros Hh Hn Hd. apply String.eqb_neq in Hd.
  destruct (followPath_first depth ps l (Some direction) duration cc lp yy t0 h Hh Hn)
    as (w & Hrun & Hq & Htr & Hl & Hne & Hc).
  cbn [default] in *. change (id direction) with direction in *.
  exists w. eexists. split; [exact Hrun|]. split; [exact Hq|]. split; [exact Htr|].
  assert (Ew : workingPoints (default false yy) (firstPoints direction ps) 0 = rev ps).
  { unfold workingPoints, firstPoints. rewrite Hd. destruct (default false yy); reflexivity. }
  cbn [followAnimate segmentAnimate startPoint endPoint]. rewrite Ew.
  split; [apply rev_lookup_0|]. split.
  - rewrite rev_alt. etransitivity; [apply (reverse_lookup ps 1); lia|reflexivity].
  - intros f.
    destruct (frame_following depth ps l _ _ cc (default false lp) (default false yy) _
                f w 0 0 0 t0 ltac:(lia) Hne Hl Hc Hq)
      as (x & y & w' & Hf & _ & H).
    cbv zeta in H.
    assert (Ed : directionAt (default false yy) direction 0 = direction)
      by (destruct (default false yy); reflexivity).
    rewrite Ed, Htr in H. exists x, y, w'.
    destruct (late _ f); [destruct (_ <? _)%nat; [|destruct (default false lp)]|];
      destruct H as (-> & _); eexists; (split; [exact Hf|reflexivity]).
Qed.

Lemma followPath_other_direction_witness :
  exists w a,
    followPath 1 (Some (newPath 0%nat)) true (Some "sideways") (Some 1000) false None None
      (newWorld 0 {[ 0%nat := corner ]}) = Ok w /\
    frameRequests w = [a] /\ trace w = [] /\
    startPoint a = corner !! (length corner - 1)%nat /\
    endPoint a = corner !! (length corner - 2)%nat /\
    forall f, exists x y w' after,
      frame 1 f w = Ok w' /\ trace w' = Update x y 0 0 0 "sideways" :: after.
Proof.
  apply (followPath_other_direction 0 corner 0%nat "sideways" (Some 1000) false None None 0
           {[ 0%nat := corner ]}).
  - reflexivity.
  - simpl. lia.
  - discriminate.
Defined.

(** ** Frames and segments *)

Lemma schedule_length d t0 fs : (snd (schedule d t0 fs) <= length fs)%nat.
Proof.
  induction fs as [|f fs IH] using rev_ind; [simpl; lia|].
  rewrite schedule_snoc, length_app. simpl.
  unfold segmentClock. destruct (_ <? 1); simpl; lia.
Qed.

(** X9: a frame completes at most one segment, however late it is: the
    frames [fs] bring at most [length fs] segment completions, and a walk of
    N segments is not over, nor its completion callback called, before N
    frames. *)
Theorem moveAlongPath_one_segment_a_frame depth ps l d t0 h fs :
  h !! l = Some ps -> (2 <= length ps)%nat ->
  exists w,
    andThen
      (moveAlongPath (executeAnimation depth) (Some l) d
         (callerPathCallbacks true true true) (newWorld t0 h))
      (run depth fs) = Ok w /\
    (length (segmentCompletions (trace w)) <= length fs)%nat /\
    (frameRequests w = [] -> (length ps - 1 <= length fs)%nat) /\
    ((length fs < length ps - 1)%nat -> calls isPathComplete (trace w) = 0%nat).
Proof.
  intros Hh Hn.
  destruct (run_walk depth ps l d t0 h fs Hh Hn) as (w & Hrun & Hw).
  destruct (walking_segments _ _ _ _ _ _ Hw) as (Hs & Hq & Hc). cbv zeta in Hs.
  pose proof (schedule_length (d / number_of_nat (length ps - 1)) t0 fs) as Hlen.
  exists w. split; [exact Hrun|]. split; [|split].
  - rewrite Hs, length_seq. lia.
  - intros H. apply Hq in H. lia.
  - intros H. rewrite Hc. destruct (frameRequests w); [|reflexivity].
    assert (length ps - 1 <= snd (schedule (d / number_of_nat (length ps - 1)) t0 fs))%nat
      by (apply Hq; reflexivity).
    lia.
Qed.

Lemma moveAlongPath_one_segment_a_frame_witness :
  exists w,
    andThen
      (moveAlongPath (executeAnimation 0) (Some 0%nat) 1000
         (callerPathCallbacks true true true) (newWorld 0 {[ 0%nat := corner ]}))
      (run 0 [frameAt 5000]) = Ok w /\
    (length (segmentCompletions (trace w)) <= length [frameAt 5000])%nat /\
    (frameRequests w = [] -> (length corner - 1 <= length [frameAt 5000])%nat) /\
    ((length [frameAt 5000] < length corner - 1)%nat ->
     calls isPathComplete (trace w) = 0%nat).
Proof.
  apply (moveAlongPath_one_segment_a_frame 0 corner 0%nat 1000 0 {[ 0%nat := corner ]}
           [frameAt 5000]).
  - reflexivity.
  - simpl. lia.
Defined.

(** ** Positions *)

(** X8: the steps of a walk are, in order, the interpolations between
    the points i and i + 1 of the segment i in progress, both coordinates
    at the progress min((timestamp - t) / (duration / N), 1) of the frame,
    where t is the time of the call for segment 0 and, for a later
    segment, the clock of the frame that ended the segment before. *)
Theorem moveAlongPath_positions depth ps l d segmentCompleteCallback completeCallback
    t0 h fs :
  h !! l = Some ps -> (2 <= length ps)%nat ->
  exists w,
    andThen
      (moveAlongPath (executeAnimation depth) (Some l) d
         (callerPathCallbacks true segmentCompleteCallback completeCallback)
         (newWorld t0 h))
      (run depth fs) = Ok w /\
    List.filter isPathStep (trace w)
    = walkSteps ps (d / number_of_nat (length ps - 1)) t0 0 0 fs /\
    Forall (stepOnPath ps (d / number_of_nat (length ps - 1)) fs) (trace w).
Proof.
  intros Hh Hn.
  destruct (moveAlongPath_steps depth ps l d segmentCompleteCallback completeCallback
              t0 h fs Hh Hn) as (w & Hrun & Htr & _).
  exists w. split; [exact Hrun|]. split; [exact Htr|].
  apply List.Forall_forall. intros ev Hin.
  destruct (isPathStep ev) eqn:Hev; [|destruct ev; try exact I; discriminate].
  assert (Hin' : In ev (List.filter isPathStep (trace w))) by (apply filter_In; auto).
  rewrite Htr in Hin'.
  pose proof (walkSteps_onPath ps (d / number_of_nat (length ps - 1)) fs fs t0 0 0
                (incl_refl fs)) as Hall.
  rewrite List.Forall_forall in Hall. apply Hall, Hin'.
Qed.

Lemma moveAlongPath_positions_witness :
  exists w,
    andThen
      (moveAlongPath (executeAnimation 0) (Some 0%nat) 1000
         (callerPathCallbacks true true true) (newWorld 0 {[ 0%nat := corner ]}))
      (run 0 [frameAt 300; frameAt 600; frameAt 900; frameAt 1200]) = Ok w /\
    List.filter isPathStep (trace w)
    = walkSteps corner (1000 / number_of_nat (length corner - 1)) 0 0 0
        [frameAt 300; frameAt 600; frameAt 900; frameAt 1200] /\
    Forall
      (stepOnPath corner (1000 / number_of_nat (length corner - 1))
         [frameAt 300; frameAt 600; frameAt 900; frameAt 1200]) (trace w).
Proof.
  apply (moveAlongPath_positions 0 corner 0%nat 1000 true true 0 {[ 0%nat := corner ]}
           [frameAt 300; frameAt 600; frameAt 900; frameAt 1200]).
  - reflexivity.
  - simpl. lia.
Defined.

Section FollowPositions.
Variables (depth : nat) (ps : list Point) (l c : loc) (d : float).
Variables (cc lp yy : bool) (direction : string).

Let working := workingPoints yy (firstPoints direction ps).
Let pending := followAnimate ps c d cc lp yy direction.
Let dseg := d / number_of_nat (length ps - 1).

(** One frame of segment [k] of traversal [n], with the position it
    reports. *)
Lemma frame_following_step f w n k j t :
  (S k < length ps)%nat -> c <> l ->
  heap w !! l = Some ps -> heap w !! c = Some (working n) ->
  frameRequests w = [pending n k j t] ->
  exists x y w',
    onSegment (working n) k (Math_min ((timestamp f - t) / dseg) 1) x y /\
    frame (S depth) f w = Ok w' /\
    exists after,
      trace w' = trace w ++ Update x y j k n (directionAt yy direction n) :: after /\
      Forall (fun e => isFollowComplete e = true) after.
Proof.
  intros Hk Hne Hh Hc Hq.
  assert (Hlen : forall m, length (working m) = length ps).
  { intros m. subst working. simpl. rewrite length_workingPoints. apply length_firstPoints. }
  assert (Hk' : (S k < length (working n))%nat) by (rewrite Hlen; exact Hk).
  destruct (frame_segment_step (S depth) f _ _ _ _ _ _ _ _ Hq Hk' Hc)
    as (x & y & Hxy & ->).
  exists x, y.
  cbn [path_step path_segmentComplete followEnv loopCount currentDirection].
  set (ev := Update x y j k n (directionAt yy direction n)).
  destruct (late _ f);
    [|eexists; split; [exact Hxy|]; split; [reflexivity|]; exists [];
      split; [reflexivity|constructor]].
  rewrite Hlen.
  destruct (Nat.ltb_spec (S (S k)) (length ps)) as [H|H];
    [eexists; split; [exact Hxy|]; split; [reflexivity|]; exists [];
     split; [reflexivity|constructor]|].
  unfold path_complete, followPath_complete.
  cbn [followEnv loop yoyo fp_completeCallback loopCount pathPoints
       currentDirection fp_duration].
  destruct lp.
  2:{ eexists. split; [exact Hxy|]. split; [reflexivity|].
      exists (if cc then [FollowComplete (S n)] else []).
      destruct cc; cbn [trace call beginFrame]; rewrite <- ?app_assoc;
        (split; [reflexivity|repeat constructor]). }
  set (w2 := call ev (beginFrame f w)).
  assert (Hnext : exists w3,
            (if yy then reverse c w2 else w2) = w3 /\
            heap w3 !! c = Some (working (S n)) /\
            trace w3 = trace w ++ [ev] /\ frameRequests w3 = []).
  { subst working. destruct yy.
    - eexists. split; [reflexivity|]. unfold reverse, store. simpl.
      rewrite lookup_insert_eq. unfold array. simpl. rewrite Hc. simpl. auto.
    - eexists. split; [reflexivity|]. simpl. auto. }
  destruct Hnext as (w3 & E3 & Hc3 & Htr3 & Hq3).
  assert (E : (if yy
               then executeAnimation (S depth)
                      {| fp_duration := d; fp_completeCallback := cc;
                         loop := true; yoyo := yy; loopCount := S n;
                         pathPoints := c;
                         currentDirection := flipDirection (directionAt yy direction n) |}
                      (reverse c w2)
               else executeAnimation (S depth)
                      {| fp_duration := d; fp_completeCallback := cc;
                         loop := true; yoyo := yy; loopCount := S n;
                         pathPoints := c;
                         currentDirection := directionAt yy direction n |}
                      w2)
              = executeAnimation (S depth)
                  (followEnv d cc true yy c direction (S n)) w3).
  { rewrite <- E3. destruct yy; reflexivity. }
  rewrite E.
  rewrite (executeAnimation_starts depth _ (working (S n)));
    [|exact Hc3|rewrite Hlen; lia].
  eexists. split; [exact Hxy|]. split; [reflexivity|]. exists [].
  split; [exact Htr3|constructor].
Qed.

Lemma updateOnPath_more fs f e :
  updateOnPath working dseg fs e -> updateOnPath working dseg (fs ++ [f]) e.
Proof.
  destruct e; simpl; auto. intros (f' & t & Hin & H). exists f', t.
  split; [apply in_or_app; left; exact Hin|exact H].
Qed.

Lemma frame_follow_positions t0 fs f w :
  following ps l c d cc lp yy direction t0 fs w ->
  Forall (updateOnPath working dseg fs) (trace w) ->
  Forall (updateOnPath working dseg (fs ++ [f])) (trace (worldOf (frame (S depth) f w))).
Proof.
  intros [n k j t Hsch Hk Hh Hne Hc Hq Hl Hf Hfc Ho|tr x y j Hsch Hl Hh Hq Htr Hfc Ho] Hall.
  - destruct (frame_following_step f w n k j t Hk Hne Hh Hc Hq)
      as (x & y & w' & Hxy & -> & after & Htr' & Hafter).
    simpl. rewrite Htr'. apply Forall_app. split.
    + eapply Forall_impl; [exact Hall|]. intros e. apply updateOnPath_more.
    + constructor.
      * exists f, t. split; [apply in_or_app; right; left; reflexivity|exact Hxy].
      * eapply Forall_impl; [exact Hafter|]. intros []; simpl; try discriminate. auto.
  - rewrite (frame_idle _ _ _ Hq). simpl.
    eapply Forall_impl; [exact Hall|]. intros e. apply updateOnPath_more.
Qed.

End FollowPositions.

(** X14: every update of [followPath] reports a position on its segment of
    the working sequence of its traversal: the points of the path, reversed
    for a direction other than 'forward', and reversed once more at each
    traversal with [yoyo]. *)
Theorem followPath_positions depth ps l direction duration cc lp yy t0 h fs :
  h !! l = Some ps -> (2 <= length ps)%nat ->
  exists w,
    andThen
      (followPath (S depth) (Some (newPath l)) true direction duration cc lp yy
         (newWorld t0 h))
      (run (S depth) fs) = Ok w /\
    Forall
      (updateOnPath
         (workingPoints (default false yy) (firstPoints (default "forward" direction) ps))
         (default 1000 duration / number_of_nat (length ps - 1)) fs)
      (trace w).
Proof.
  intros Hh Hn.
  destruct (followPath_starts depth ps l direction duration cc lp yy t0 h Hh Hn)
    as (w0 & Hstart & H0).
  destruct (followPath_first depth ps l direction duration cc lp yy t0 h Hh Hn)
    as (w0' & Hstart' & _ & Htr0 & _).
  rewrite Hstart in Hstart'. injection Hstart' as <-.
  rewrite Hstart. simpl.
  assert (H : exists w,
            run (S depth) fs w0 = Ok w /\
            following ps l (fresh (dom h)) (default 1000 duration) cc (default false lp)
              (default false yy) (default "forward" direction) t0 fs w /\
            Forall
              (updateOnPath
                 (workingPoints (default false yy)
                    (firstPoints (default "forward" direction) ps))
                 (default 1000 duration / number_of_nat (length ps - 1)) fs)
              (trace w)).
  { induction fs as [|f fs (w & Hrun & Hw & Hall)] using rev_ind.
    - exists w0. split; [reflexivity|]. split; [exact H0|]. rewrite Htr0. constructor.
    - rewrite run_snoc, Hrun. simpl.
      pose proof (frame_follow_positions depth _ _ _ _ _ _ _ _ _ _ f _ Hw Hall) as Hall'.
      destruct (frame_follow depth _ _ _ _ _ _ _ _ _ _ f _ Hw) as (w' & Hf & Hw').
      rewrite Hf in Hall' |- *. eauto. }
  destruct H as (w & Hrun & _ & Hall). eauto.
Qed.

Lemma followPath_positions_witness :
  exists w,
    andThen
      (followPath 1 (Some (newPath 0%nat)) true (Some "backward") (Some 1000) false
         (Some true) (Some true) (newWorld 0 {[ 0%nat := corner ]}))
      (run 1 [frameAt 300; frameAt 600; frameAt 900; frameAt 1200; frameAt 1500]) = Ok w /\
    Forall
      (updateOnPath
         (workingPoints (default false (Some true))
            (firstPoints (default "forward" (Some "backward")) corner))
         (default 1000 (Some 1000) / number_of_nat (length corner - 1))
         [frameAt 300; frameAt 600; frameAt 900; frameAt 1200; frameAt 1500])
      (trace w).
Proof.
  apply (followPath_positions 0 corner 0%nat (Some "backward") (Some 1000) false
           (Some true) (Some true) 0 {[ 0%nat := corner ]}
           [frameAt 300; frameAt 600; frameAt 900; frameAt 1200; frameAt 1500]).
  - reflexivity.
  - simpl. lia.
Defined.

(** ** The array of a path *)

Section Snapshot.
Variable l : loc.

Lemma sameBut_refl w : sameBut l w w.
Proof. repeat split. Qed.

Lemma sameBut_array w w' k : sameBut l w w' -> k <> l -> array w k = array w' k.
Proof. intros (_ & _ & _ & H) Hk. unfold array. rewrite (H k Hk). reflexivity. Qed.

Lemma sameBut_call e w w' : sameBut l w w' -> sameBut l (call e w) (call e w').
Proof. intros (? & ? & Ht & ?). repeat split; simpl; auto. rewrite Ht. reflexivity. Qed.

Lemma sameBut_request a w w' :
  sameBut l w w' -> sameBut l (requestAnimationFrame a w) (requestAnimationFrame a w').
Proof. intros (? & Hq & ? & ?). repeat split; simpl; auto. rewrite Hq. reflexivity. Qed.

Lemma sameBut_reverse k w w' :
  k <> l -> sameBut l w w' -> sameBut l (reverse k w) (reverse k w').
Proof.
  intros Hk H. pose proof (sameBut_array _ _ _ H Hk) as Ha.
  destruct H as (? & ? & ? & Hh). unfold reverse, store. repeat split; simpl; auto.
  intros j Hj. rewrite Ha. destruct (decide (k = j)) as [->|Hne].
  - rewrite !lookup_insert_eq. reflexivity.
  - rewrite !lookup_insert_ne by exact Hne. auto.
Qed.

Lemma sameBut_store ps w : sameBut l w (store l ps w).
Proof.
  repeat split. intros k Hk. simpl. rewrite lookup_insert_ne by auto. reflexivity.
Qed.

Lemma sameBut_path_step cbs x y j k w w' :
  sameBut l w w' -> sameBut l (path_step cbs x y j k w) (path_step cbs x y j k w').
Proof. intros H. destruct cbs as [[] ? ?|env]; simpl; auto using sameBut_call. Qed.

Lemma sameBut_path_segmentComplete cbs k w w' :
  sameBut l w w' ->
  sameBut l (path_segmentComplete cbs k w) (path_segmentComplete cbs k w').
Proof. intros H. destruct cbs as [? [] ?|env]; simpl; auto using sameBut_call. Qed.

Lemma quiet_request a w : quiet l w -> ignores l a -> quiet l (requestAnimationFrame a w).
Proof. intros H Ha. apply Forall_app. split; [exact H|]. repeat constructor. exact Ha. Qed.

Lemma heap_call e w : heap (call e w) = heap w.
Proof. reflexivity. Qed.

Lemma quiet_path_step cbs x y j k w : quiet l w -> quiet l (path_step cbs x y j k w).
Proof. destruct cbs as [[] ? ?|env]; exact id. Qed.

Lemma quiet_path_segmentComplete cbs k w :
  quiet l w -> quiet l (path_segmentComplete cbs k w).
Proof. destruct cbs as [? [] ?|env]; exact id. Qed.

Section Exec.
Variable exec : FollowEnv -> World -> Outcome.
Hypothesis exec_ignores : execIgnores l exec.

Lemma path_complete_sameBut cbs w w' :
  pathIgnores l cbs -> quiet l w -> sameBut l w w' ->
  sameOutcomeBut l (path_complete exec cbs w) (path_complete exec cbs w') /\
  quiet l (worldOf (path_complete exec cbs w)) /\
  heap (worldOf (path_complete exec cbs w)) !! l = heap w !! l.
Proof.
  intros Hc Hq H. destruct cbs as [? ? []|env]; simpl;
    [split; [apply sameBut_call, H|split; [exact Hq|reflexivity]]
    |split; [exact H|split; [exact Hq|reflexivity]]|].
  simpl in Hc. unfold followPath_complete.
  destruct (loop env);
    [|destruct (fp_completeCallback env); simpl;
      (split; [auto using sameBut_call|split; [exact Hq|reflexivity]])].
  destruct (yoyo env); [|apply exec_ignores; assumption].
  match goal with
  | |- sameOutcomeBut _ (exec ?e _) _ /\ _ =>
      destruct (exec_ignores e (reverse (pathPoints env) w) (reverse (pathPoints env) w')
                  Hc Hq (sameBut_reverse _ _ _ Hc H)) as (Hs & Hq' & Hh)
  end.
  split; [exact Hs|]. split; [exact Hq'|]. rewrite Hh. simpl.
  apply lookup_insert_ne, Hc.
Qed.

Lemma moveNextSegment_sameBut env w w' :
  points env <> l -> pathIgnores l (pathCallbacks env) -> quiet l w -> sameBut l w w' ->
  sameOutcomeBut l (moveNextSegment exec env w) (moveNextSegment exec env w') /\
  quiet l (worldOf (moveNextSegment exec env w)) /\
  heap (worldOf (moveNextSegment exec env w)) !! l = heap w !! l.
Proof.
  intros Hp Hc Hq H. unfold moveNextSegment.
  destruct (totalSegments env <=? currentSegment env)%nat;
    [apply path_complete_sameBut; assumption|].
  rewrite <- (sameBut_array _ _ _ H Hp). unfold moveBetweenPoints.
  destruct H as (Hclock & H'). rewrite <- Hclock. split; [|split; [|reflexivity]].
  - apply sameBut_request. split; [exact Hclock|exact H'].
  - simpl. apply quiet_request; [exact Hq|]. split; assumption.
Qed.

Lemma moveAlongPath_sameBut k d cbs w w' :
  k <> l -> pathIgnores l cbs -> quiet l w -> sameBut l w w' ->
  sameOutcomeBut l (moveAlongPath exec (Some k) d cbs w)
    (moveAlongPath exec (Some k) d cbs w') /\
  quiet l (worldOf (moveAlongPath exec (Some k) d cbs w)) /\
  heap (worldOf (moveAlongPath exec (Some k) d cbs w)) !! l = heap w !! l.
Proof.
  intros Hk Hc Hq H. unfold moveAlongPath. rewrite <- (sameBut_array _ _ _ H Hk).
  destruct (length (array w k) <? 2)%nat; [apply path_complete_sameBut; assumption|].
  apply moveNextSegment_sameBut; assumption.
Qed.

Lemma animate_sameBut a t w w' :
  ignores l a -> quiet l w -> sameBut l w w' ->
  sameOutcomeBut l (animate exec a t w) (animate exec a t w') /\
  quiet l (worldOf (animate exec a t w)) /\
  heap (worldOf (animate exec a t w)) !! l = heap w !! l.
Proof.
  intros Ha Hq H. unfold animate.
  destruct (startPoint a) as [s|];
    [|split; [split; [reflexivity|exact H]|split; [exact Hq|reflexivity]]].
  destruct (endPoint a) as [e|];
    [|split; [split; [reflexivity|exact H]|split; [exact Hq|reflexivity]]].
  set (p := progress a t).
  set (x := calculateLinearInterpolation (point_x s) (point_x e) p).
  set (y := calculateLinearInterpolation (point_y s) (point_y e) p).
  unfold ignores in Ha. unfold move_step, move_complete.
  destruct (moveCallbacks a) as [sc cc|env] eqn:Hcb.
  - destruct sc, (p <? 1), cc; simpl;
      (split; [auto using sameBut_call, sameBut_request|split; [|reflexivity]]);
      try exact Hq; apply quiet_request; try exact Hq;
      unfold ignores; simpl; rewrite Hcb; exact I.
  - destruct Ha as [Hp Hc]. destruct (p <? 1).
    + split; [|split].
      * apply sameBut_request, sameBut_path_step, H.
      * apply quiet_request; [apply quiet_path_step, Hq|].
        unfold ignores. simpl. rewrite Hcb. split; assumption.
      * simpl. rewrite heap_path_step. reflexivity.
    + destruct (moveNextSegment_sameBut
                  (setCurrentSegment (S (currentSegment env)) env)
                  (path_segmentComplete (pathCallbacks env) (currentSegment env)
                     (path_step (pathCallbacks env) x y (stepIndex a) (currentSegment env) w))
                  (path_segmentComplete (pathCallbacks env) (currentSegment env)
                     (path_step (pathCallbacks env) x y (stepIndex a) (currentSegment env) w'))
                  Hp Hc) as (Hs & Hq' & Hh).
      * apply quiet_path_segmentComplete, quiet_path_step, Hq.
      * apply sameBut_path_segmentComplete, sameBut_path_step, H.
      * split; [exact Hs|]. split; [exact Hq'|].
        rewrite Hh, heap_path_segmentComplete, heap_path_step. reflexivity.
Qed.

End Exec.

Lemma executeAnimation_ignores depth : execIgnores l (executeAnimation depth).
Proof.
  induction depth as [|depth IH]; intros env w w' Hp Hq H.
  - simpl. split; [split; [reflexivity|exact H]|split; [exact Hq|reflexivity]].
  - cbn [executeAnimation]. apply moveAlongPath_sameBut; assumption.
Qed.

Lemma runCallbacks_sameBut depth queue t : forall w w',
  Forall (ignores l) queue -> quiet l w -> sameBut l w w' ->
  sameOutcomeBut l (runCallbacks depth queue t w) (runCallbacks depth queue t w') /\
  quiet l (worldOf (runCallbacks depth queue t w)) /\
  heap (worldOf (runCallbacks depth queue t w)) !! l = heap w !! l.
Proof.
  induction queue as [|a queue IH]; intros w w' Hall Hq H; [auto|].
  apply Forall_cons in Hall as [Ha Hall]. cbn [runCallbacks].
  destruct (animate_sameBut _ (executeAnimation_ignores depth) a t w w' Ha Hq H)
    as (Hs & Hq' & Hh).
  destruct (animate _ a t w) as [w1|e1 w1], (animate _ a t w') as [w1'|e1' w1'];
    simpl in Hs, Hq', Hh; try contradiction.
  - rewrite <- Hh. apply IH; assumption.
  - auto.
Qed.

Lemma frame_sameBut depth f w w' :
  quiet l w -> sameBut l w w' ->
  sameOutcomeBut l (frame depth f w) (frame depth f w') /\
  quiet l (worldOf (frame depth f w)) /\
  heap (worldOf (frame depth f w)) !! l = heap w !! l.
Proof.
  intros Hq H. unfold frame. destruct H as (Hc & Hr & Ht & Hh). rewrite <- Hr.
  apply (runCallbacks_sameBut depth (frameRequests w) (timestamp f) (beginFrame f w));
    [exact Hq|constructor|].
  repeat split; simpl; auto.
Qed.

Lemma run_sameBut depth fs : forall w w',
  quiet l w -> sameBut l w w' ->
  sameOutcomeBut l (run depth fs w) (run depth fs w') /\
  quiet l (worldOf (run depth fs w)) /\
  heap (worldOf (run depth fs w)) !! l = heap w !! l.
Proof.
  induction fs as [|f fs IH]; intros w w' Hq H; [auto|]. cbn [run].
  destruct (frame_sameBut depth f w w' Hq H) as (Hs & Hq' & Hh).
  destruct (frame depth f w) as [w1|e1 w1], (frame depth f w') as [w1'|e1' w1'];
    simpl in Hs, Hq', Hh; try contradiction.
  - rewrite <- Hh. apply IH; assumption.
  - auto.
Qed.

End Snapshot.

Lemma quiet_store l k ps w : quiet l w -> quiet l (store k ps w).
Proof. exact id. Qed.

(** X15: [followPath] works on a copy of the points: overwriting the array
    of the path at any time after the call changes no later call of the
    callbacks and no closure, and the engine does not write to that array. *)
Theorem followPath_works_on_a_copy depth ps ps' l direction duration cc lp yy t0 h
    before after :
  h !! l = Some ps -> (2 <= length ps)%nat ->
  exists w0 w1 w w',
    followPath (S depth) (Some (newPath l)) true direction duration cc lp yy
      (newWorld t0 h) = Ok w0 /\
    run (S depth) before w0 = Ok w1 /\
    run (S depth) after w1 = Ok w /\
    run (S depth) after (store l ps' w1) = Ok w' /\
    trace w' = trace w /\ frameRequests w' = frameRequests w /\
    heap w' !! l = Some ps'.
Proof.
  intros Hh Hn.
  destruct (followPath_first depth ps l direction duration cc lp yy t0 h Hh Hn)
    as (w0 & Hstart & Hq0 & _ & _ & Hne & _).
  destruct (run_follow depth ps l direction duration cc lp yy t0 h (before ++ after) Hh Hn)
    as (w & Hrun & _).
  rewrite Hstart in Hrun. simpl in Hrun. rewrite run_app in Hrun.
  destruct (run (S depth) before w0) as [w1|] eqn:Hrun1; [|discriminate].
  simpl in Hrun.
  assert (Hquiet0 : quiet l w0).
  { unfold quiet. rewrite Hq0. repeat constructor; simpl; exact Hne. }
  destruct (run_sameBut l (S depth) before w0 w0 Hquiet0 (sameBut_refl l w0))
    as (_ & Hquiet1 & _).
  rewrite Hrun1 in Hquiet1. simpl in Hquiet1.
  destruct (run_sameBut l (S depth) after w1 (store l ps' w1) Hquiet1 (sameBut_store l ps' w1))
    as (Hs & _ & _).
  destruct (run_sameBut l (S depth) after (store l ps' w1) (store l ps' w1)
              (quiet_store l l ps' w1 Hquiet1) (sameBut_refl l _))
    as (_ & _ & Hheap).
  rewrite Hrun in Hs.
  destruct (run (S depth) after (store l ps' w1)) as [w'|] eqn:Hrun'; [|contradiction].
  simpl in Hs, Hheap. destruct Hs as (_ & Hq & Htr & _).
  exists w0, w1, w, w'. repeat split; auto.
  rewrite Hheap. simpl. apply lookup_insert_eq.
Qed.

Lemma followPath_works_on_a_copy_witness :
  exists w0 w1 w w',
    followPath 1 (Some (newPath 0%nat)) true (Some "backward") (Some 1000) true
      (Some true) (Some true) (newWorld 0 {[ 0%nat := corner ]}) = Ok w0 /\
    run 1 [frameAt 300; frameAt 600] w0 = Ok w1 /\
    run 1 [frameAt 900; frameAt 1200; frameAt 1500] w1 = Ok w /\
    run 1 [frameAt 900; frameAt 1200; frameAt 1500] (store 0%nat [] w1) = Ok w' /\
    trace w' = trace w /\ frameRequests w' = frameRequests w /\
    heap w' !! 0%nat = Some [].
Proof.
  apply (followPath_works_on_a_copy 0 corner [] 0%nat (Some "backward") (Some 1000) true
           (Some true) (Some true) 0 {[ 0%nat := corner ]} [frameAt 300; frameAt 600]
           [frameAt 900; frameAt 1200; frameAt 1500]).
  - reflexivity.
  - simpl. lia.
Defined.

(** X10: [moveAlongPath] keeps the array of the caller and reads the two
    points of a segment when the segment starts: if the array is overwritten
    while the first segment is animated, the frame that ends this segment
    still reports a position between the old points 0 and 1, and the second
    segment runs between the new points 1 and 2. *)
Theorem moveAlongPath_reads_by_reference depth ps ps' l d t0 h f :
  h !! l = Some ps -> (3 <= length ps)%nat ->
  (Math_min ((timestamp f - t0) / (d / number_of_nat (length ps - 1))) 1 <? 1) = false ->
  exists w0 a0 w' a' x y,
    moveAlongPath (executeAnimation depth) (Some l) d
      (callerPathCallbacks true true true) (newWorld t0 h) = Ok w0 /\
    frameRequests w0 = [a0] /\
    startPoint a0 = ps !! 0%nat /\ endPoint a0 = ps !! 1%nat /\
    frame depth f (store l ps' w0) = Ok w' /\
    trace w' = [PathStep x y 0 0; SegmentComplete 0] /\
    onSegment ps 0
      (Math_min ((timestamp f - t0) / (d / number_of_nat (length ps - 1))) 1) x y /\
    frameRequests w' = [a'] /\
    startPoint a' = ps' !! 1%nat /\ endPoint a' = ps' !! 2%nat.
Proof.
  intros Hh Hn Hp.
  set (p := Math_min ((timestamp f - t0) / (d / number_of_nat (length ps - 1))) 1) in *.
  rewrite (moveAlongPath_starts _ ps l d _ (newWorld t0 h) Hh) by lia.
  destruct (lookup_lt_is_Some_2 ps 0 ltac:(lia)) as [s Hs].
  destruct (lookup_lt_is_Some_2 ps 1 ltac:(lia)) as [e He].
  assert (Hf : frame depth f
                 (store l ps'
                    (requestAnimationFrame
                       (segmentAnimate ps l (d / number_of_nat (length ps - 1))
                          (callerPathCallbacks true true true) 0 0
                          (clock (newWorld t0 h))) (newWorld t0 h)))
               = Ok (requestAnimationFrame
                       {| startPoint := ps' !! 1%nat; endPoint := ps' !! 2%nat;
                          duration := d / number_of_nat (length ps - 1);
                          startTime := now f; stepIndex := 0;
                          moveCallbacks :=
                            segmentCallbacks
                              {| points := l; totalSegments := length ps - 1;
                                 segmentDuration := d / number_of_nat (length ps - 1);
                                 currentSegment := 1;
                                 pathCallbacks := callerPathCallbacks true true true |} |}
                       (call (SegmentComplete 0)
                          (call (PathStep
                                   (calculateLinearInterpolation (point_x s) (point_x e) p)
                                   (calculateLinearInterpolation (point_y s) (point_y e) p)
                                   0 0)
                             (beginFrame f (store l ps' (newWorld t0 h))))))).
  { unfold frame. simpl. unfold animate. simpl.
    rewrite Hs, He. unfold progress. simpl. fold p. rewrite Hp. simpl.
    unfold moveNextSegment. simpl.
    destruct (Nat.leb_spec (length ps - 1) 1) as [H|_]; [lia|].
    unfold moveBetweenPoints, array. simpl. rewrite lookup_insert_eq. reflexivity. }
  do 6 eexists.
  split; [reflexivity|]. split; [reflexivity|]. split; [reflexivity|]. split; [reflexivity|].
  split; [exact Hf|]. split; [reflexivity|]. split; [exists s, e; auto|].
  split; [reflexivity|]. split; reflexivity.
Qed.

Lemma moveAlongPath_reads_by_reference_witness :
  exists w0 a0 w' a' x y,
    moveAlongPath (executeAnimation 0) (Some 0%nat) 1000
      (callerPathCallbacks true true true) (newWorld 0 {[ 0%nat := corner ]}) = Ok w0 /\
    frameRequests w0 = [a0] /\
    startPoint a0 = corner !! 0%nat /\ endPoint a0 = corner !! 1%nat /\
    frame 0 (frameAt 600) (store 0%nat [] w0) = Ok w' /\
    trace w' = [PathStep x y 0 0; SegmentComplete 0] /\
    onSegment corner 0
      (Math_min ((timestamp (frameAt 600) - 0) / (1000 / number_of_nat (length corner - 1)))
         1) x y /\
    frameRequests w' = [a'] /\
    startPoint a' = [] !! 1%nat /\ endPoint a' = [] !! 2%nat.
Proof.
  apply (moveAlongPath_reads_by_reference 0 corner [] 0%nat 1000 0 {[ 0%nat := corner ]}
           (frameAt 600)).
  - reflexivity.
  - simpl. lia.
  - reflexivity.
Defined.

(** ** Durations *)

Lemma schedule_negative d t0 fs :
  (d <? 0) = true -> (neg_infinity <? d) = true ->
  Forall (fun f => (0 <=? timestamp f - t0) = true) fs ->
  schedule d t0 fs = (t0, 0%nat).
Proof.
  intros Hd Hi. induction fs as [|f fs IH] using rev_ind; intros Hfs; [reflexivity|].
  apply Forall_app in Hfs as [Hfs Hf]. apply Forall_cons in Hf as [Hf _].
  rewrite schedule_snoc, IH by exact Hfs. unfold segmentClock. simpl.
  rewrite negative_duration_early by assumption. reflexivity.
Qed.

Lemma history_prefix P tr e : history P (tr ++ [e]) -> history P tr.
Proof.
  intros H before e' after E. apply (H before e' (after ++ [e])).
  rewrite E, <- app_assoc. reflexivity.
Qed.

Lemma followOrder_first_segment n lp yy dir tr :
  (0 < n)%nat ->
  history (followOrder n lp yy dir) tr -> calls isFollowComplete tr = 0%nat ->
  match last tr with
  | None => True
  | Some e => isFirstSegment e = true
  end ->
  Forall (fun e => isFirstSegment e = true) tr.
Proof.
  intros Hn. induction tr as [|e tr IH] using rev_ind; intros Ho Hc Hlast; [constructor|].
  rewrite last_snoc in Hlast. rewrite calls_app in Hc.
  apply Forall_app. split; [|repeat constructor; exact Hlast].
  apply IH; [exact (history_prefix _ _ _ Ho)|lia|].
  specialize (Ho tr e [] eq_refl).
  destruct e as [| | | | |x y j i k d|]; simpl in Hlast; try discriminate.
  destruct i; [|discriminate]. destruct k; [|discriminate].
  simpl in Ho. destruct Ho as (_ & _ & _ & Hf).
  destruct (last tr) as [[| | | | |x' y' j' i' k' d'|]|]; simpl in Hf |- *;
    try contradiction; try exact I.
  destruct Hf as [(<- & <- & _)|[(_ & H & _)|(H & _)]]; [reflexivity|discriminate..].
Qed.

(** X16: the duration is not validated: when the duration of a segment is
    negative, [followPath] never gets past the first segment of the first
    traversal, however many frames come: every update is one of segment 0
    with loop count 0, and the closure that waits still has the start time
    of the call. *)
Theorem followPath_negative_duration depth ps l direction duration cc lp yy t0 h fs :
  h !! l = Some ps -> (2 <= length ps)%nat ->
  (default 1000 duration / number_of_nat (length ps - 1) <? 0) = true ->
  (neg_infinity <? default 1000 duration / number_of_nat (length ps - 1)) = true ->
  Forall (fun f => (0 <=? timestamp f - t0) = true) fs ->
  exists w a penv env,
    andThen
      (followPath (S depth) (Some (newPath l)) true direction duration cc lp yy
         (newWorld t0 h))
      (run (S depth) fs) = Ok w /\
    frameRequests w = [a] /\ pathEnvOf a = Some penv /\ followEnvOf a = Some env /\
    loopCount env = 0%nat /\ currentSegment penv = 0%nat /\ startTime a = t0 /\
    Forall (fun e => isFirstSegment e = true) (trace w).
Proof.
  intros Hh Hn Hd Hi Hfs.
  destruct (run_follow depth ps l direction duration cc lp yy t0 h fs Hh Hn)
    as (w & Hrun & Hw).
  pose proof (schedule_negative _ t0 fs Hd Hi Hfs) as Hsch.
  destruct Hw as [n k j t Hsch' Hk _ _ _ Hq _ Hf Hfc Ho|tr x y j Hsch' _ _ _ _ _ _];
    [|rewrite Hsch in Hsch'; simpl in Hsch'; lia].
  rewrite Hsch in Hsch'. injection Hsch' as <- Hnk.
  assert (Ek : k = 0%nat) by lia.
  assert (En : n = 0%nat) by nia.
  subst k n.
  exists w. eexists. eexists. eexists.
  split; [exact Hrun|]. split; [exact Hq|]. split; [reflexivity|]. split; [reflexivity|].
  split; [reflexivity|]. split; [reflexivity|]. split; [reflexivity|].
  apply (followOrder_first_segment (length ps - 1) (default false lp) (default false yy)
           (default "forward" direction)); auto; [lia|].
  destruct (last (trace w)) as [[| | | | |x' y' j' i' k' d'|]|]; simpl in Hf |- *;
    try contradiction; try exact I.
  destruct Hf as [(<- & <- & _)|[(_ & H & _)|(H & _)]]; [reflexivity|discriminate..].
Qed.

Lemma followPath_negative_duration_witness :
  exists w a penv env,
    andThen
      (followPath 1 (Some (newPath 0%nat)) true None (Some (-1000)) true None None
         (newWorld 0 {[ 0%nat := corner ]}))
      (run 1 [frameAt 300; frameAt 600; frameAt 900; frameAt 1200]) = Ok w /\
    frameRequests w = [a] /\ pathEnvOf a = Some penv /\ followEnvOf a = Some env /\
    loopCount env = 0%nat /\ currentSegment penv = 0%nat /\ startTime a = 0 /\
    Forall (fun e => isFirstSegment e = true) (trace w).
Proof.
  apply (followPath_negative_duration 0 corner 0%nat None (Some (-1000)) true None None 0
           {[ 0%nat := corner ]} [frameAt 300; frameAt 600; frameAt 900; frameAt 1200]).
  - reflexivity.
  - simpl. lia.
  - reflexivity.
  - reflexivity.
  - repeat constructor.
Defined.

(** ** Paths *)

Lemma rev_lookup_last {A} (xs : list A) : rev xs !! (length xs - 1)%nat = xs !! 0%nat.
Proof.
  rewrite <- (rev_involutive xs) at 3. rewrite rev_lookup_0, length_rev. reflexivity.
Qed.

(** X17: [getStartPoint] and [getEndPoint] read the first and the last
    element of the points array: both are undefined exactly on an empty
    array, they agree on an array of one point, and reversing the array in
    place swaps them. *)
Theorem reverse_swaps_ends points w :
  getStartPoint (newPath points) (reverse points w) = getEndPoint (newPath points) w /\
  getEndPoint (newPath points) (reverse points w) = getStartPoint (newPath points) w /\
  (getStartPoint (newPath points) w = inr None <-> array w points = []) /\
  (getEndPoint (newPath points) w = inr None <-> array w points = []) /\
  (length (array w points) = 1%nat ->
   getStartPoint (newPath points) w = getEndPoint (newPath points) w).
Proof.
  unfold getStartPoint, getEndPoint, reverse. cbn [newPath path_points].
  rewrite array_store, length_rev. split; [|split; [|split; [|split]]].
  - f_equal. apply rev_lookup_0.
  - f_equal. apply rev_lookup_last.
  - destruct (array w points); split; intros H; try reflexivity; discriminate.
  - destruct (array w points) as [|p ps] using rev_ind; split; intros H; try reflexivity.
    + exfalso. injection H as H. rewrite length_app in H. simpl in H.
      rewrite lookup_app_r in H by lia.
      replace (length ps + 1 - 1 - length ps)%nat with 0%nat in H by lia. discriminate.
    + destruct ps; discriminate.
  - intros H. destruct (array w points) as [|p [|q ps]]; try discriminate. reflexivity.
Qed.

(** ** Links *)

(** X18: a [Link] is placed at the start point of its path, visible; over an
    empty array, which [Path] accepts, the [Link] constructor throws a
    TypeError. *)
Theorem newLink_start_point points lineStyle startArrow endArrow w :
  isLineStyle lineStyle = true -> isArrow startArrow = true -> isArrow endArrow = true ->
  match getStartPoint (newPath points) w with
  | inr (Some p) =>
      exists link,
        newLink (newPath points) lineStyle startArrow endArrow w = inr link /\
        link_x link = point_x p /\ link_y link = point_y p /\ link_visible link = true /\
        link_path link = newPath points
  | _ =>
      array w points = [] /\
      exists message,
        newLink (newPath points) lineStyle startArrow endArrow w = inl (TypeError message)
  end.
Proof.
  intros Hs Ha Hb. unfold getStartPoint, newLink. cbn [newPath path_points].
  destruct lineStyle; try discriminate; destruct startArrow; try discriminate;
    destruct endArrow; try discriminate;
    (destruct (array w points) as [|p ps]; simpl; [split; eauto|eauto 10]).
Qed.

Lemma newLink_start_point_witness :
  match getStartPoint (newPath 0%nat) (newWorld 0 {[ 0%nat := [] ]}) with
  | inr (Some p) =>
      exists link,
        newLink (newPath 0%nat) undefined undefined undefined (newWorld 0 {[ 0%nat := [] ]})
        = inr link /\
        link_x link = point_x p /\ link_y link = point_y p /\ link_visible link = true /\
        link_path link = newPath 0%nat
  | _ =>
      array (newWorld 0 {[ 0%nat := [] ]}) 0%nat = [] /\
      exists message,
        newLink (newPath 0%nat) undefined undefined undefined (newWorld 0 {[ 0%nat := [] ]})
        = inl (TypeError message)
  end.
Proof.
  apply (newLink_start_point 0%nat undefined undefined undefined
           (newWorld 0 {[ 0%nat := [] ]}));
    reflexivity.
Defined.

(** X19: [createLink] returns a link exactly when the line style is a string
    or left out and each arrow a boolean or left out, with 'solid' and no
    arrow for what is left out; otherwise the line style is checked before
    the arrows; either way the array of the two centres has been allocated. *)
Theorem createLink_arguments element1 element2 lineStyle sa ea w :
  match fst (createLink element1 element2 lineStyle sa ea w) with
  | inr link =>
      isLineStyle lineStyle = true /\ isArrow sa = true /\
      isArrow ea = true /\
      (lineStyle = undefined -> link_borderStyle link = "solid") /\
      (sa = undefined -> startArrow link = false) /\
      (ea = undefined -> endArrow link = false)
  | inl e =>
      (isLineStyle lineStyle = false /\ e = TypeError "Link线样式必须为字符串类型") \/
      (isLineStyle lineStyle = true /\
       (isArrow sa = false \/ isArrow ea = false) /\
       e = TypeError "Link箭头参数必须为布尔类型")
  end /\
  heap (snd (createLink element1 element2 lineStyle sa ea w))
  = <[ fresh (dom (heap w)) :=
         [ {| point_x := box_x element1 + box_width element1 / 2;
              point_y := box_y element1 + box_height element1 / 2 |};
           {| point_x := box_x element2 + box_width element2 / 2;
              point_y := box_y element2 + box_height element2 / 2 |} ] ]> (heap w).
Proof.
  unfold createLink, alloc, newLink. cbn [newPath path_points fst snd].
  rewrite array_store. cbn [lookup list_lookup]. split; [|reflexivity].
  destruct lineStyle, sa, ea; simpl; auto 10;
    repeat split; try reflexivity; try discriminate.
Qed.

(** ** Constructors *)

(** X20: the [Element] constructor checks the coordinates before the
    visibility and throws nothing but TypeErrors; the element built has the
    coordinates given, is visible unless told otherwise, and has the default
    style. *)
Theorem newElement_errors unique x y visible id :
  match newElement unique x y visible id with
  | inr element =>
      typeof x = "number" /\ typeof y = "number" /\
      js_number (element_x element) = x /\ js_number (element_y element) = y /\
      (visible = js_undefined /\ element_visible element = true \/
       visible = js_boolean (element_visible element)) /\
      element_style element = defaultStyle /\ element_shape element = plainElement
  | inl (RangeError _) => False
  | inl (TypeError message) =>
      if decide (typeof x = "number" /\ typeof y = "number") then
        message = "Element可见性必须为布尔类型" /\
        visible <> js_undefined /\ typeof visible <> "boolean"
      else message = "Element坐标必须为数字类型"
  end.
Proof.
  unfold newElement.
  destruct x, y; simpl; try reflexivity;
    destruct visible; simpl; auto 10; repeat split; discriminate.
Qed.

Lemma not_leb_zero n : (n <=? 0) = negb (aboveZeroOrNaN n).
Proof.
  unfold aboveZeroOrNaN.
  destruct (is_nan n) eqn:Hn.
  - rewrite orb_true_r. apply Prim2SF_nan in Hn.
    rewrite FloatAxioms.leb_spec, Hn. reflexivity.
  - rewrite orb_false_r, FloatAxioms.leb_spec, FloatAxioms.ltb_spec.
    change (Prim2SF 0) with (S754_zero false).
    assert (H : Prim2SF n <> S754_nan) by (intros E; apply Prim2SF_nan in E; congruence).
    destruct (Prim2SF n) as [[]|[]| |[] ? ?]; try reflexivity. contradiction.
Qed.

(** X22: on numbers the [Box] constructor throws a RangeError unless each of
    width and height is above zero or NaN, which passes the test
    [width <= 0]; the box built has the position and the size given, is
    visible and has a generated id. *)
Theorem newBox_sizes unique x y width height :
  match newBox unique (js_number x) (js_number y) (js_number width) (js_number height) with
  | inr box =>
      aboveZeroOrNaN width = true /\ aboveZeroOrNaN height = true /\
      element_shape box = boxElement width height /\
      element_x box = x /\ element_y box = y /\ element_visible box = true /\
      element_id box = js_string ("element_" ++ unique)
  | inl e =>
      e = RangeError "Box宽高必须大于0" /\
      (aboveZeroOrNaN width = false \/ aboveZeroOrNaN height = false)
  end.
Proof.
  unfold newBox. simpl. rewrite !not_leb_zero.
  destruct (aboveZeroOrNaN width), (aboveZeroOrNaN height); simpl; auto 10.
Qed.

(** X23: the checks of the [Box] constructor come in order: a coordinate that
    is not a number gives the TypeError of [Element], whatever the size; then
    a size that is not a number gives the TypeError of [Box], even if the
    other size is not positive; a RangeError is thrown only on four numbers. *)
Theorem newBox_errors unique x y width height :
  match newBox unique x y width height with
  | inr box =>
      typeof x = "number" /\ typeof y = "number" /\
      typeof width = "number" /\ typeof height = "number"
  | inl (RangeError _) =>
      typeof x = "number" /\ typeof y = "number" /\
      typeof width = "number" /\ typeof height = "number"
  | inl (TypeError message) =>
      if decide (typeof x = "number" /\ typeof y = "number") then
        message = "Box宽高必须为数字类型" /\
        (typeof width <> "number" \/ typeof height <> "number")
      else message = "Element坐标必须为数字类型"
  end.
Proof.
  unfold newBox, newElement.
  destruct x, y; simpl; try reflexivity;
    destruct width, height; simpl; try (split; [reflexivity|]; auto; fail);
    try (split; [reflexivity|]; (left; discriminate) || (right; discriminate)).
  destruct (_ || _); simpl; auto.
Qed.

(** ** Identifiers *)

Lemma strictEquals_truthy v : truthy v = true -> strictEquals v v = true.
Proof.
  destruct v as [| |n|s|b|r]; simpl; try discriminate; intros H.
  - apply negb_true_iff, orb_false_iff in H as [_ H]. apply float_eqb_refl, H.
  - apply String.eqb_refl.
  - apply eqb_reflx.
  - apply Nat.eqb_refl.
Qed.

Lemma newElement_id unique x y visible id element :
  newElement unique x y visible id = inr element ->
  element_id element
  = if truthy id then id else js_string ("element_" ++ unique).
Proof.
  unfold newElement.
  destruct x; try discriminate; destruct y; try discriminate.
  destruct visible as [| | | |b|]; try discriminate;
    destruct id; intros [= <-]; reflexivity.
Qed.

Lemma newElement_truthy unique x y visible id element :
  newElement unique x y visible id = inr element -> truthy (element_id element) = true.
Proof.
  intros H. rewrite (newElement_id _ _ _ _ _ _ H).
  destruct (truthy id) eqn:E; [exact E|reflexivity].
Qed.

(** X21: the id of a new element is truthy and equal to itself under [===]:
    an id argument that is falsy (left out, null, 0, NaN, the empty string,
    false) is replaced by a generated one. *)
Theorem newElement_identifier unique x y visible id element :
  newElement unique x y visible id = inr element ->
  truthy (element_id element) = true /\
  strictEquals (element_id element) (element_id element) = true /\
  (truthy id = true -> element_id element = id) /\
  (truthy id = false -> element_id element = js_string ("element_" ++ unique)).
Proof.
  intros H. pose proof (newElement_truthy _ _ _ _ _ _ H) as Ht.
  split; [exact Ht|]. split; [apply strictEquals_truthy, Ht|].
  rewrite (newElement_id _ _ _ _ _ _ H). split; intros ->; reflexivity.
Qed.

Lemma newElement_identifier_witness :
  exists element,
    newElement "1_abc" (js_number 0) (js_number 0) js_undefined (js_number nan)
    = inr element /\
    truthy (element_id element) = true /\
    strictEquals (element_id element) (element_id element) = true /\
    (truthy (js_number nan) = true -> element_id element = js_number nan) /\
    (truthy (js_number nan) = false -> element_id element = js_string ("element_" ++ "1_abc")).
Proof.
  eexists. split; [reflexivity|].
  apply (newElement_identifier "1_abc" (js_number 0) (js_number 0) js_undefined
           (js_number nan)).
  reflexivity.
Defined.

(** ** The scene *)

Lemma removeElement_own objects id this r :
  strictEquals (idOf objects r) id = true ->
  ~ In r (elements (removeElement objects id this)).
Proof.
  intros H Hin. apply filter_In in Hin as [_ Hin]. rewrite H in Hin. discriminate.
Qed.

(** X24: an element with a truthy id is removed by [removeElement] on that
    id, however often it was added; the elements with another id stay, as
    often as before, and none is added. *)
Theorem removeElement_by_own_id element objects r this :
  truthy (element_id element) = true ->
  objects !! r = Some element ->
  let after := removeElement objects (element_id element) (addElement r this) in
  ~ In r (elements after) /\
  (forall e, strictEquals (idOf objects e) (element_id element) = false ->
             count_occ Nat.eq_dec (elements after) e
             = count_occ Nat.eq_dec (elements this) e) /\
  (forall e, In e (elements after) -> In e (elements this)).
Proof.
  intros Hnew Hr after.
  assert (Hid : strictEquals (idOf objects r) (element_id element) = true).
  { unfold idOf. rewrite Hr. apply strictEquals_truthy, Hnew. }
  split; [apply removeElement_own, Hid|]. subst after. simpl.
  rewrite List.filter_app. simpl. rewrite Hid. simpl. rewrite app_nil_r. split.
  - intros e He. induction (elements this) as [|e' es IH]; [reflexivity|]. simpl.
    destruct (Nat.eq_dec e' e) as [->|Hne].
    + rewrite He. simpl. destruct (Nat.eq_dec e e); [|contradiction]. rewrite IH.
      reflexivity.
    + destruct (negb _); simpl; [destruct (Nat.eq_dec e' e); [contradiction|]|]; exact IH.
  - intros e He. apply filter_In in He as [He _]. exact He.
Qed.

Lemma removeElement_by_own_id_witness :
  exists element,
    newBox "1_abc" (js_number 10) (js_number 10) (js_number 50) (js_number 50)
    = inr element /\
    let objects : gmap ref Element := {[ 7%nat := element ]} in
    let after :=
      removeElement objects (element_id element) (addElement 7%nat newAnimationFramework) in
    ~ In 7%nat (elements after) /\
    (forall e, strictEquals (idOf objects e) (element_id element) = false ->
               count_occ Nat.eq_dec (elements after) e
               = count_occ Nat.eq_dec (elements newAnimationFramework) e) /\
    (forall e, In e (elements after) -> In e (elements newAnimationFramework)).
Proof.
  eexists. split; [reflexivity|].
  apply removeElement_by_own_id.
  - reflexivity.
  - reflexivity.
Defined.

(** X25: adding an element and removing it by its id gives the scene as it
    was, provided that the id is equal to itself and that no element of the
    scene had it. *)
Theorem addElement_removeElement objects id r this :
  strictEquals (idOf objects r) id = true ->
  Forall (fun e => strictEquals (idOf objects e) id = false) (elements this) ->
  removeElement objects id (addElement r this) = this.
Proof.
  intros Hr Hall. destruct this as [es ts fl]. unfold removeElement, addElement. simpl in *.
  f_equal. rewrite List.filter_app. simpl. rewrite Hr. simpl. rewrite app_nil_r.
  induction Hall as [|e es He _ IH]; [reflexivity|]. simpl. rewrite He. simpl.
  rewrite IH. reflexivity.
Qed.

Lemma addElement_removeElement_witness :
  let objects : gmap ref Element :=
    {[ 1%nat := {| element_id := js_string "a"; element_x := 0; element_y := 0;
                   element_visible := true; element_style := defaultStyle;
                   element_shape := plainElement |};
       2%nat := {| element_id := js_string "b"; element_x := 5; element_y := 5;
                   element_visible := true; element_style := defaultStyle;
                   element_shape := boxElement 10 10 |} ]} in
  removeElement objects (js_string "b")
    (addElement 2%nat (addElement 1%nat newAnimationFramework))
  = addElement 1%nat newAnimationFramework.
Proof.
  apply addElement_removeElement.
  - reflexivity.
  - repeat constructor.
Defined.

(** X26: [removeElement] acts on [elements] only: an element that was
    flashed stays in [flashingElements] when it is removed from the scene,
    and the temporary objects are untouched. *)
Theorem removeElement_keeps_flash objects r this :
  let id := idOf objects r in
  let after := removeElement objects id (flash r (addElement r this)) in
  In r (flashingElements after) /\
  flashingElements after = flashingElements this ++ [r] /\
  temporaryObjects after = temporaryObjects this /\
  (strictEquals id id = true -> ~ In r (elements after)).
Proof.
  cbv zeta. split; [apply in_or_app; right; left; reflexivity|].
  split; [reflexivity|]. split; [reflexivity|]. apply removeElement_own.
Qed.

Lemma filter_other (r : ref) es :
  ~ In r (List.filter (fun e => negb (Nat.eqb e r)) es) /\
  forall e, e <> r ->
    count_occ Nat.eq_dec (List.filter (fun e => negb (Nat.eqb e r)) es) e
    = count_occ Nat.eq_dec es e.
Proof.
  split.
  - intros Hin. apply filter_In in Hin as [_ Hin]. rewrite Nat.eqb_refl in Hin.
    discriminate.
  - intros e Hne. induction es as [|e' es IH]; [reflexivity|]. simpl.
    destruct (Nat.eqb_spec e' r) as [->|Hne']; simpl.
    + destruct (Nat.eq_dec r e); [congruence|exact IH].
    + destruct (Nat.eq_dec e' e); rewrite IH; reflexivity.
Qed.

(** X27: [removeElement] goes by id, [removeTemporaryElement] and
    [removeFlash] by identity: of two distinct elements with the same id the
    first removes both, the other two remove the one given, however often it
    was added, and keep its twin. *)
Theorem remove_by_identity objects r r' this :
  r <> r' -> idOf objects r = idOf objects r' ->
  strictEquals (idOf objects r) (idOf objects r) = true ->
  let id := idOf objects r in
  (~ In r (elements (removeElement objects id (addElement r' (addElement r this)))) /\
   ~ In r' (elements (removeElement objects id (addElement r' (addElement r this))))) /\
  (~ In r (temporaryObjects
             (removeTemporaryElement r
                (createTemporaryElement r' (createTemporaryElement r this)))) /\
   In r' (temporaryObjects
            (removeTemporaryElement r
               (createTemporaryElement r' (createTemporaryElement r this))))) /\
  (~ In r (flashingElements (removeFlash r (addFlash r' (addFlash r (addFlash r this))))) /\
   In r' (flashingElements (removeFlash r (addFlash r' (addFlash r (addFlash r this)))))).
Proof.
  intros Hne Hid Hrefl. cbv zeta. repeat split.
  - apply removeElement_own, Hrefl.
  - apply removeElement_own. rewrite <- Hid. exact Hrefl.
  - apply filter_other.
  - apply filter_In. split.
    + simpl. apply in_or_app. right. left. reflexivity.
    + apply negb_true_iff, Nat.eqb_neq. auto.
  - apply filter_other.
  - apply filter_In. split.
    + simpl. apply in_or_app. right. left. reflexivity.
    + apply negb_true_iff, Nat.eqb_neq. auto.
Qed.

Lemma remove_by_identity_witness :
  let twin := {| element_id := js_string "a"; element_x := 0; element_y := 0;
                 element_visible := true; element_style := defaultStyle;
                 element_shape := plainElement |} in
  let objects : gmap ref Element := {[ 1%nat := twin; 2%nat := twin ]} in
  let this := newAnimationFramework in
  let id := idOf objects 1%nat in
  (~ In 1%nat (elements (removeElement objects id (addElement 2%nat (addElement 1%nat this)))) /\
   ~ In 2%nat (elements (removeElement objects id (addElement 2%nat (addElement 1%nat this))))) /\
  (~ In 1%nat (temporaryObjects
             (removeTemporaryElement 1%nat
                (createTemporaryElement 2%nat (createTemporaryElement 1%nat this)))) /\
   In 2%nat (temporaryObjects
            (removeTemporaryElement 1%nat
               (createTemporaryElement 2%nat (createTemporaryElement 1%nat this))))) /\
  (~ In 1%nat (flashingElements
                 (removeFlash 1%nat (addFlash 2%nat (addFlash 1%nat (addFlash 1%nat this))))) /\
   In 2%nat (flashingElements
               (removeFlash 1%nat (addFlash 2%nat (addFlash 1%nat (addFlash 1%nat this)))))).
Proof.
  intros twin objects this.
  apply (remove_by_identity objects 1%nat 2%nat this).
  - discriminate.
  - reflexivity.
  - reflexivity.
Defined.

(** X28: [moveTo] writes the position of one element and nothing else: its
    id, visibility and shape, and all other elements, are as before, so that
    [removeElement] acts the same after a move. *)
Theorem moveTo_keeps_scene objects r x y id this :
  let moved := alter (moveTo x y) r objects in
  removeElement moved id this = removeElement objects id this /\
  (forall e, idOf moved e = idOf objects e) /\
  (forall element, objects !! r = Some element ->
     exists element', moved !! r = Some element' /\
       element_x element' = x /\ element_y element' = y /\
       element_visible element' = element_visible element /\
       element_shape element' = element_shape element) /\
  (forall e, e <> r -> moved !! e = objects !! e).
Proof.
  cbv zeta.
  assert (Hid : forall e, idOf (alter (moveTo x y) r objects) e = idOf objects e).
  { intros e. unfold idOf. destruct (decide (r = e)) as [->|Hne].
    - rewrite lookup_alter_eq. destruct (objects !! e); reflexivity.
    - rewrite lookup_alter_ne by exact Hne. reflexivity. }
  split; [|split; [exact Hid|split]].
  - unfold removeElement. f_equal. apply filter_ext. intros e. rewrite Hid. reflexivity.
  - intros element Hr. rewrite lookup_alter_eq, Hr. simpl. eauto 6.
  - intros e Hne. apply lookup_alter_ne. auto.
Qed.
